(** * Block Blast: the game-state engine of [game.js]

    A shallow embedding of the rule engine of [src/game.js] (grid, shape
    catalog, placement validity, line clearing and scoring, block
    generation, the turn controller) and the properties its specification
    states about it.

    Conventions of the embedding.
    - JavaScript numbers that the engine uses as integers (indices, score,
      counters) are [Z]; [Math.floor (score / 250)] is [Z.div] (lemma
      [level_double]).
    - The numbers drawn by [Math.random], the literal [0.08] and their
      products are doubles: the rationals ([Q]) that binary64 holds, every
      product rounded to the nearest of them, ties to even.
    - The global [state] object is threaded explicitly; a function of the
      source that reads or writes it is a computation [M A].  A computation
      either returns, or throws a [TypeError] (reading a property of
      [undefined]); what was written to [state] before a throw stays.
    - A row of the grid is a JavaScript array: a finite map from integer
      keys to cells together with its [length].  Reading an absent key
      gives [undefined]; writing at a negative key adds a plain property
      and leaves [length] alone; writing at or beyond [length] grows it.
    - Calls into the presentation layer ([render], [updateScores],
      [showGameOver], the star-blast effects) do not touch [state] and are
      left out. *)

From Stdlib Require Import Ascii String DecimalString DecimalZ DecimalPos.
From Stdlib Require Import ZArith QArith Qround Qabs Qpower Lia Lqa List Bool.
From Stdlib Require SpecFloat.
From stdpp Require Import base option list list_numbers gmap.
From stdpp Require Import strings.

Local Open Scope Z_scope.

(* ================================================================== *)
(** * Part I: the embedding and the vocabulary of the properties *)

(* ------------------------------------------------------------------ *)
(** ** Constants and the shape catalog *)

Definition ROWS : Z := 8.

Definition COLS : Z := 8.

(** A shape is an array of rows, each row an array of 0/1 numbers. *)
Abbreviation Shape := (list (list Z)) (only parsing).

Definition SHAPES : list Shape :=
  [ [[1]];
    [[1; 1]];
    [[1]; [1]];
    [[1; 1]; [1; 1]];
    [[1; 1; 1]];
    [[1]; [1]; [1]];
    [[1; 1; 1; 1]];
    [[1]; [1]; [1]; [1]];
    [[1; 1; 1]; [1; 0; 0]];
    [[1; 1; 1]; [0; 0; 1]];
    [[1; 0; 0]; [1; 1; 1]];
    [[0; 0; 1]; [1; 1; 1]];
    [[1; 1]; [1; 0]];
    [[1; 1]; [0; 1]];
    [[0; 1]; [1; 1]];
    [[1; 0]; [1; 1]];
    [[1; 1; 1]; [0; 1; 0]];
    [[0; 1; 0]; [1; 1; 1]];
    [[1; 0]; [1; 1]; [1; 0]];
    [[0; 1]; [1; 1]; [0; 1]];
    [[1; 1; 1]; [1; 1; 1]];
    [[1; 1]; [1; 1]; [1; 1]];
    [[1; 1; 1]; [1; 1; 1]; [1; 1; 1]] ].

Definition LARGE_SHAPE_INDICES : list Z :=
  [6; 7; 8; 9; 10; 11; 16; 17; 18; 19; 20; 21; 22].

Inductive Color : Type := c1 | c2 | c3 | c4 | c5.

Definition COLORS : list Color := [c1; c2; c3; c4; c5].

#[global] Instance Color_eq_dec : EqDecision Color.
Proof. solve_decision. Defined.

(* ------------------------------------------------------------------ *)
(** ** JavaScript values of the grid *)

(** A grid cell holds the number [0] or the colour tag of a block. *)
Inductive Cell : Type :=
  | Zero
  | Tag (c : Color).

#[global] Instance Cell_eq_dec : EqDecision Cell.
Proof. solve_decision. Defined.

(** [cell !== 0], the test of the row scan. *)
Definition nonzero (v : Cell) : bool :=
  match v with Zero => false | Tag _ => true end.

(** Truthiness of what [a[i]] evaluates to; [None] is [undefined].  This is
    the test of [canPlace] and of the column scan. *)
Definition truthy (v : option Cell) : bool :=
  match v with
  | Some (Tag _) => true
  | Some Zero => false
  | None => false
  end.

(** Truthiness of a shape entry. *)
Definition truthyZ (v : option Z) : bool :=
  match v with
  | Some n => negb (n =? 0)
  | None => false
  end.

(** A JavaScript array of cells. *)
Record JsArray : Type := mkArray {
  props : gmap Z Cell;
  len : Z
}.

(** [a[i]] *)
Definition arr_get (a : JsArray) (i : Z) : option Cell := props a !! i.

(** [a[i] = v] *)
Definition arr_set (a : JsArray) (i : Z) (v : Cell) : JsArray :=
  mkArray (<[i := v]> (props a))
          (if (0 <=? i) && (len a <=? i) then i + 1 else len a).

(** [a.every(p)]: the indices below [length] that are present are tested. *)
Definition arr_every (p : Cell → bool) (a : JsArray) : bool :=
  forallb (λ k, match props a !! k with Some v => p v | None => true end)
          (seqZ 0 (len a)).

(** [Array(n).fill(v)] *)
Definition arr_fill (n : Z) (v : Cell) : JsArray :=
  mkArray (list_to_map ((λ k, (k, v)) <$> seqZ 0 n)) n.

Abbreviation Grid := (list JsArray) (only parsing).

(** [g[i]]: [None] is [undefined]. *)
Definition lookupZ {A : Type} (l : list A) (i : Z) : option A :=
  if i <? 0 then None else l !! Z.to_nat i.

(* ------------------------------------------------------------------ *)
(** ** The session state and the random source *)

Record Block : Type := mkBlock {
  shape : Shape;
  color : Color
}.

(** The fields of the global [state] object, followed by the hidden state
    of [Math.random]: an arbitrary sequence of rationals and the number of
    draws made so far. *)
Record World : Type := mkWorld {
  grid : Grid;
  currentBlocks : list Block;
  score : Z;
  combo : Z;
  streak : Z;
  lastMoveCleared : bool;
  gameOver : bool;
  selectedBlockIndex : Z;
  draggingBlockIndex : Z;
  draws : nat → Q;
  drawn : nat
}.

Definition set_grid (g : Grid) (w : World) : World :=
  mkWorld g (currentBlocks w) (score w) (combo w) (streak w)
    (lastMoveCleared w) (gameOver w) (selectedBlockIndex w)
    (draggingBlockIndex w) (draws w) (drawn w).

Definition set_currentBlocks (bs : list Block) (w : World) : World :=
  mkWorld (grid w) bs (score w) (combo w) (streak w)
    (lastMoveCleared w) (gameOver w) (selectedBlockIndex w)
    (draggingBlockIndex w) (draws w) (drawn w).

Definition set_score (n : Z) (w : World) : World :=
  mkWorld (grid w) (currentBlocks w) n (combo w) (streak w)
    (lastMoveCleared w) (gameOver w) (selectedBlockIndex w)
    (draggingBlockIndex w) (draws w) (drawn w).

Definition set_combo (n : Z) (w : World) : World :=
  mkWorld (grid w) (currentBlocks w) (score w) n (streak w)
    (lastMoveCleared w) (gameOver w) (selectedBlockIndex w)
    (draggingBlockIndex w) (draws w) (drawn w).

Definition set_streak (n : Z) (w : World) : World :=
  mkWorld (grid w) (currentBlocks w) (score w) (combo w) n
    (lastMoveCleared w) (gameOver w) (selectedBlockIndex w)
    (draggingBlockIndex w) (draws w) (drawn w).

Definition set_lastMoveCleared (b : bool) (w : World) : World :=
  mkWorld (grid w) (currentBlocks w) (score w) (combo w) (streak w)
    b (gameOver w) (selectedBlockIndex w)
    (draggingBlockIndex w) (draws w) (drawn w).

Definition set_gameOver (b : bool) (w : World) : World :=
  mkWorld (grid w) (currentBlocks w) (score w) (combo w) (streak w)
    (lastMoveCleared w) b (selectedBlockIndex w)
    (draggingBlockIndex w) (draws w) (drawn w).

Definition set_selectedBlockIndex (n : Z) (w : World) : World :=
  mkWorld (grid w) (currentBlocks w) (score w) (combo w) (streak w)
    (lastMoveCleared w) (gameOver w) n
    (draggingBlockIndex w) (draws w) (drawn w).

Definition set_draggingBlockIndex (n : Z) (w : World) : World :=
  mkWorld (grid w) (currentBlocks w) (score w) (combo w) (streak w)
    (lastMoveCleared w) (gameOver w) (selectedBlockIndex w)
    n (draws w) (drawn w).

Definition set_drawn (n : nat) (w : World) : World :=
  mkWorld (grid w) (currentBlocks w) (score w) (combo w) (streak w)
    (lastMoveCleared w) (gameOver w) (selectedBlockIndex w)
    (draggingBlockIndex w) (draws w) n.

(* ------------------------------------------------------------------ *)
(** ** Computations over the session state *)

Inductive Outcome (A : Type) : Type :=
  | Ok (a : A)
  | TypeError
  | OutOfFuel.

Arguments Ok {A} a.

Arguments TypeError {A}.

Arguments OutOfFuel {A}.

Definition M (A : Type) : Type := World → Outcome A * World.

Definition ret {A} (a : A) : M A := λ w, (Ok a, w).

Definition bind {A B} (m : M A) (f : A → M B) : M B :=
  λ w, match m w with
       | (Ok a, w') => f a w'
       | (TypeError, w') => (TypeError, w')
       | (OutOfFuel, w') => (OutOfFuel, w')
       end.

Definition throw {A} : M A := λ w, (TypeError, w).

Definition gets {A} (f : World → A) : M A := λ w, (Ok (f w), w).

Definition modify (f : World → World) : M unit := λ w, (Ok tt, f w).

Notation "'let*' x := m 'in' k" := (bind m (λ x, k))
  (at level 10, x name, m at level 100, k at level 200).

Notation "m ;;; k" := (bind m (λ _, k))
  (at level 100, k at level 200, right associativity).

(** Reading a property of a value that may be [undefined]. *)
Definition defined {A} (o : option A) : M A :=
  match o with Some a => ret a | None => throw end.

(** A [for] loop over the elements [l] whose body may [return] from the
    enclosing function ([Some v]) or fall through to the next iteration
    ([None]). *)
Fixpoint for_return {I B} (l : list I) (body : I → M (option B)) : M (option B) :=
  match l with
  | [] => ret None
  | k :: l' =>
      let* o := body k in
      match o with
      | Some v => ret (Some v)
      | None => for_return l' body
      end
  end.

(** A [for] loop that runs to the end, threading the local variables [acc]. *)
Fixpoint for_fold {I A} (l : list I) (acc : A) (body : I → A → M A) : M A :=
  match l with
  | [] => ret acc
  | k :: l' => let* acc' := body k acc in for_fold l' acc' body
  end.

Definition for_each {I} (l : list I) (body : I → M unit) : M unit :=
  for_fold l tt (λ k _, body k).

(* ------------------------------------------------------------------ *)
(** ** The engine *)

(** [state.grid[i][j]]: throws when the row is [undefined]. *)
Definition grid_read (i j : Z) : M (option Cell) :=
  let* g := gets grid in
  let* a := defined (lookupZ g i) in
  ret (arr_get a j).

(** [state.grid[i][j] = v]: throws when the row is [undefined]. *)
Definition grid_write (i j : Z) (v : Cell) : M unit :=
  let* g := gets grid in
  let* a := defined (lookupZ g i) in
  modify (set_grid (<[Z.to_nat i := arr_set a j v]> g)).

(** [shape[r][c]]: throws when the row [shape[r]] is [undefined]. *)
Definition shape_read (s : Shape) (r c : Z) : M (option Z) :=
  let* row := defined (lookupZ s r) in
  ret (lookupZ row c).

(** [shape.length] and [shape[0].length]. *)
Definition height (s : Shape) : Z := Z.of_nat (length s).

Definition width (s : Shape) : M Z :=
  let* row := defined (lookupZ s 0) in
  ret (Z.of_nat (length row)).

Definition initGrid : M unit :=
  modify (set_grid ((λ _, arr_fill COLS Zero) <$> seqZ 0 ROWS)).

Definition canPlace (s : Shape) (color : option Color) (row col : Z) : M bool :=
  let H := height s in
  let* W := width s in
  if (row + H >? ROWS) || (col + W >? COLS) then ret false
  else
    let* found :=
      for_return (seqZ 0 H) (λ r,
        for_return (seqZ 0 W) (λ c,
          let* sc := shape_read s r c in
          if truthyZ sc then
            let* gc := grid_read (row + r) (col + c) in
            if truthy gc then ret (Some false) else ret None
          else ret None)) in
    match found with
    | Some b => ret b
    | None => ret true
    end.

Definition placeBlock (s : Shape) (color : Color) (row col : Z) : M unit :=
  let H := height s in
  let* W := width s in
  for_each (seqZ 0 H) (λ r,
    for_each (seqZ 0 W) (λ c,
      let* sc := shape_read s r c in
      if truthyZ sc then grid_write (row + r) (col + c) (Tag color)
      else ret tt)).

Record LinesCleared : Type := mkLines {
  count : Z;
  rows : list Z;
  cols : list Z
}.

Definition clearLines : M LinesCleared :=
  let* rowsToClear :=
    for_fold (seqZ 0 ROWS) [] (λ r acc,
      let* g := gets grid in
      let* a := defined (lookupZ g r) in
      if arr_every nonzero a then ret (acc ++ [r]) else ret acc) in
  let* colsToClear :=
    for_fold (seqZ 0 COLS) [] (λ c acc,
      let* brk :=
        for_return (seqZ 0 ROWS) (λ r,
          let* v := grid_read r c in
          if negb (truthy v) then ret (Some false) else ret None) in
      let full := match brk with Some b => b | None => true end in
      if full then ret (acc ++ [c]) else ret acc) in
  let count := Z.of_nat (length rowsToClear) + Z.of_nat (length colsToClear) in
  if count =? 0 then ret (mkLines 0 [] [])
  else
    for_each rowsToClear (λ r,
      for_each (seqZ 0 COLS) (λ c, grid_write r c Zero));;;
    for_each colsToClear (λ c,
      for_each (seqZ 0 ROWS) (λ r, grid_write r c Zero));;;
    let points := count * 10 in
    let points := points + 2 ^ count in
    let* s := gets streak in
    let points := if s >? 0 then points + s * 20 else points in
    modify (λ w, set_score (score w + points) w);;;
    modify (set_combo count);;;
    modify (set_lastMoveCleared true);;;
    modify (λ w, set_streak (streak w + 1) w);;;
    ret (mkLines count rowsToClear colsToClear).

Definition noClearThisMove : M unit :=
  modify (set_lastMoveCleared false);;;
  modify (set_streak 0);;;
  modify (set_combo 0).

Definition canPlaceAny (blocks : list Block) : M bool :=
  let* found :=
    for_return blocks (λ b,
      let s := shape b in
      let H := height s in
      let* W := width s in
      for_return (seqZ 0 (ROWS - H + 1)) (λ r,
        for_return (seqZ 0 (COLS - W + 1)) (λ c,
          let* ok := canPlace s None r c in
          if ok then ret (Some true) else ret None))) in
  match found with
  | Some b => ret b
  | None => ret false
  end.

(* ------------------------------------------------------------------ *)
(** ** Double-precision numbers *)

(** A JavaScript number is a binary64 value: a rational with a significand
    of 53 bits, or of fewer bits below [2^-1022].  An arithmetic operation
    returns its exact result rounded to the nearest such number, and to the
    one with the even significand when two are equally near.  Rounding to
    [Infinity], from [2^1024] on, is out of reach of the products below. *)

Definition pow2 (e : Z) : Q := Qpower 2 e.

(** [floor (log2 x)] for [x > 0]. *)
Definition ilog2 (x : Q) : Z :=
  if Qle_bool 1 x then Z.log2 (Qfloor x) else - Z.log2_up (Qceiling (/ x)).

(** The exponent of the unit in the last place at [x]: 52 binary places
    below the leading bit of [x], and [-1074] in the subnormal range. *)
Definition ulp_exponent (x : Q) : Z := Z.max (ilog2 (Qabs x)) (-1022) - 52.

(** The nearest integer, the even one when two are equally near. *)
Definition nearest_even (y : Q) : Z :=
  let f := Qfloor y in
  match (y - inject_Z f ?= 1 # 2)%Q with
  | Lt => f
  | Gt => f + 1
  | Eq => if Z.even f then f else f + 1
  end.

(** The double nearest to [x]. *)
Definition double (x : Q) : Q :=
  let q := ulp_exponent x in
  Qred (inject_Z (nearest_even (x / pow2 q)) * pow2 q).

(** The largest double that is not above [x], for [x >= 0]. *)
Definition double_below (x : Q) : Q :=
  let q := ulp_exponent x in
  Qred (inject_Z (Qfloor (x / pow2 q)) * pow2 q).

(** A double is a multiple of the unit in its own last place. *)
Definition is_double (x : Q) : Prop :=
  ∃ m : Z, (x == inject_Z m * pow2 (ulp_exponent x))%Q.

(** The standard library's executable specification of IEEE 754, at the
    binary64 format, to compare [double] with: the number [m * 2^e] rounded
    to binary64, and the rational a finite value stands for. *)
Definition binary64 (m e : Z) : SpecFloat.spec_float :=
  SpecFloat.binary_normalize 53 1024 m e false.

Definition binary64_value (x : SpecFloat.spec_float) : Q :=
  match x with
  | SpecFloat.S754_finite s m e =>
      Qred ((if s then -1 else 1) * inject_Z (Zpos m) * pow2 e)
  | _ => 0%Q
  end.

(** The binary64 value of a double given in lowest terms. *)
Definition binary64_of (x : Q) : SpecFloat.spec_float :=
  binary64 (Qnum x) (- Z.log2 (Zpos (Qden x))).

(** The proofs reason about roundings by their bounds, not by unfolding. *)
#[global] Strategy 100 [double double_below].

(* ------------------------------------------------------------------ *)
(** ** The engine: block generation and moves *)

(** [Math.random()] returns a double in [0, 1).  The next number of the
    sequence is brought into [0, 1) by taking its fractional part and then
    to the double below it, so that every sequence of rationals is a random
    source that keeps the contract of [Math.random], and a double of [0, 1)
    is drawn as it is (lemmas [random_double_is_double] and
    [random_double_onto]). *)
Definition frac (q : Q) : Q := (q - inject_Z (Qfloor q))%Q.

Definition random_double (q : Q) : Q := double_below (frac q).

Definition Math_random : M Q :=
  λ w, (Ok (random_double (draws w (drawn w))), set_drawn (S (drawn w)) w).

Definition Qltb (x y : Q) : bool := negb (Qle_bool y x).

(** [Math.floor(u * n)] for an array length [n]: the floor of the rounded
    product. *)
Definition scale (u : Q) (n : nat) : Z :=
  Qfloor (double (u * inject_Z (Z.of_nat n))).

(** The locals [level] and [largeChance] of [randomShape]; [0.08] is the
    double nearest to 8/100. *)
Definition level (score : Z) : Z := score / 250.

Definition largeChance (level : Z) : Q :=
  double (inject_Z level * double (8 # 100)).

(** The colour is [COLORS[k]] with [k = Math.floor(u * 5)]; [u] is in [0, 1),
    so [k] is an index of [COLORS] (lemma [scale_COLORS_defined]) and the
    default is never taken. *)
Definition randomShape : M Block :=
  let* score := gets score in
  let level := level score in
  let largeChance := largeChance level in
  let* useLargePool :=
    if Qltb 0%Q largeChance
    then (let* u := Math_random in ret (Qltb u largeChance))
    else ret false in
  let pool := if useLargePool : bool then LARGE_SHAPE_INDICES
              else seqZ 0 (Z.of_nat (length SHAPES)) in
  let* u := Math_random in
  let idx := lookupZ pool (scale u (length pool)) in
  let* shape := defined (idx ≫= lookupZ SHAPES) in
  let* u := Math_random in
  let color := default c1 (lookupZ COLORS (scale u (length COLORS))) in
  ret (mkBlock shape color).

Definition getThreeBlocks : M (list Block) :=
  let* b0 := randomShape in
  let* b1 := randomShape in
  let* b2 := randomShape in
  ret [b0; b1; b2].

(** [while (state.currentBlocks.length < 3) state.currentBlocks.push(randomShape())].
    The loop is unrolled [fuel] times; meeting the test with no fuel left is
    reported as [OutOfFuel]. *)
Fixpoint refill (fuel : nat) : M unit :=
  let* blocks := gets currentBlocks in
  if Z.of_nat (length blocks) <? 3 then
    match fuel with
    | O => λ w, (OutOfFuel, w)
    | S fuel' =>
        let* b := randomShape in
        modify (λ w, set_currentBlocks (currentBlocks w ++ [b]) w);;;
        refill fuel'
    end
  else ret tt.

Definition tryPlaceBlock (blockIndex row col : Z) : M bool :=
  let* over := gets gameOver in
  let* blocks := gets currentBlocks in
  if over || (blockIndex <? 0) || (blockIndex >=? Z.of_nat (length blocks))
  then ret false
  else
    let* b := defined (lookupZ blocks blockIndex) in
    let* ok := canPlace (shape b) (Some (color b)) row col in
    if negb ok then ret false
    else
      placeBlock (shape b) (color b) row col;;;
      modify (λ w, set_score (score w + 5) w);;;
      let* linesCleared := clearLines in
      (if count linesCleared =? 0 then noClearThisMove else ret tt);;;
      modify (λ w, set_currentBlocks
                     (delete (Z.to_nat blockIndex) (currentBlocks w)) w);;;
      refill 3;;;
      let* blocks := gets currentBlocks in
      let* any := canPlaceAny blocks in
      (if negb any then modify (set_gameOver true) else ret tt);;;
      ret true.

Definition doRestart : M unit :=
  initGrid;;;
  let* bs := getThreeBlocks in
  modify (set_currentBlocks bs);;;
  modify (set_score 0);;;
  modify (set_combo 0);;;
  modify (set_streak 0);;;
  modify (set_lastMoveCleared false);;;
  modify (set_gameOver false);;;
  modify (set_selectedBlockIndex (-1));;;
  modify (set_draggingBlockIndex (-1)).

(** The [state] literal the script starts from, for a given random source. *)
Definition state0 (rnd : nat → Q) (n : nat) : World :=
  mkWorld [] [] 0 0 0 false false (-1) (-1) rnd n.

(** The initialisation at the end of the script. *)
Definition init : M unit :=
  initGrid;;;
  let* bs := getThreeBlocks in
  modify (set_currentBlocks bs).

(* ------------------------------------------------------------------ *)
(** ** Reasoning about computations *)

(** A computation that only reads the grid: it leaves the state as it is and
    its outcome is a function of the grid. *)
Definition reads_grid {A} (m : M A) : Prop :=
  ∃ f : Grid → Outcome A, ∀ w, m w = (f (grid w), w).

(** A computation that writes nothing but the grid. *)
Definition writes_grid_only {A} (m : M A) : Prop :=
  ∀ w, snd (m w) = set_grid (grid (snd (m w))) w.

(* ------------------------------------------------------------------ *)
(** ** Grids: reading, writing and well-formedness *)

(** What [g[i][j]] evaluates to when [g[i]] is a row. *)
Definition cellAt (g : Grid) (i j : Z) : option Cell :=
  lookupZ g i ≫= λ a, arr_get a j.

(** What [s[r][c]] evaluates to when [s[r]] is a row. *)
Definition shapeAt (s : Shape) (r c : Z) : option Z :=
  lookupZ s r ≫= λ row, lookupZ row c.

(** A row as [initGrid] makes it and as the engine keeps it: [length] is 8
    and the indices 0..7 are all present. *)
Definition wf_row (a : JsArray) : bool :=
  (len a =? COLS) &&
  forallb (λ c, match props a !! c with Some _ => true | None => false end)
          (seqZ 0 COLS).

(** The 8x8 grid of the data model. *)
Definition wf_grid (g : Grid) : bool :=
  (Z.of_nat (length g) =? ROWS) && forallb wf_row g.

(** The grid after [g[i][j] = v], for a row [g[i] = a]. *)
Definition grid_set (g : Grid) (i : Z) (a : JsArray) (j : Z) (v : Cell) : Grid :=
  <[Z.to_nat i := arr_set a j v]> g.

(* ------------------------------------------------------------------ *)
(** ** Loops that only read *)

(** The outcome of a loop with early return, from the outcomes of its
    iterations: the first iteration that does not fall through decides. *)
Fixpoint scan {B} (os : list (Outcome (option B))) : Outcome (option B) :=
  match os with
  | [] => Ok None
  | Ok None :: os' => scan os'
  | o :: _ => o
  end.

(* ------------------------------------------------------------------ *)
(** ** Placement validity *)

(** [shape[0].length] when the shape has a first row. *)
Definition width0 (s : Shape) : Z :=
  match s with
  | [] => 0
  | row0 :: _ => Z.of_nat (length row0)
  end.

(** Some occupied cell of the shape lies on a truthy [state.grid] entry. *)
Definition overlaps (g : Grid) (s : Shape) (row col : Z) : bool :=
  existsb (λ r,
    existsb (λ c, truthyZ (shapeAt s r c) && truthy (cellAt g (row + r) (col + c)))
            (seqZ 0 (width0 s)))
    (seqZ 0 (height s)).

(** The bounds test of [canPlace]. *)
Definition out_of_bounds (s : Shape) (row col : Z) : bool :=
  (row + height s >? ROWS) || (col + width0 s >? COLS).

(** Outcome of one iteration of the inner loop of [canPlace]. *)
Definition probe (g : Grid) (s : Shape) (row col r c : Z) : Outcome (option bool) :=
  match lookupZ s r with
  | None => TypeError
  | Some srow =>
      if truthyZ (lookupZ srow c) then
        match lookupZ g (row + r) with
        | None => TypeError
        | Some a => if truthy (arr_get a (col + c)) then Ok (Some false) else Ok None
        end
      else Ok None
  end.

(** The first row of the shape has an occupied cell. *)
Definition first_row_occupied (s : Shape) : bool :=
  existsb (λ c, truthyZ (shapeAt s 0 c)) (seqZ 0 (width0 s)).

(* ------------------------------------------------------------------ *)
(** ** Loops that write cells *)

(** [g'] is the 8x8 grid obtained from [g] by storing [v] in the cells
    selected by [S]. *)
Definition updated (g g' : Grid) (S : Z → Z → bool) (v : Cell) : Prop :=
  wf_grid g' = true ∧
  ∀ i j, cellAt g' i j = if S i j then Some v else cellAt g i j.

(** The cells a shape anchored at [(row, col)] covers. *)
Definition covers (s : Shape) (row col i j : Z) : bool :=
  existsb (λ r,
    existsb (λ c, truthyZ (shapeAt s r c) && ((i =? row + r) && (j =? col + c)))
            (seqZ 0 (width0 s)))
    (seqZ 0 (height s)).

(* ------------------------------------------------------------------ *)
(** ** Line clearing *)

(** The state after the scoring block of [clearLines], for [n] cleared lines
    and the cleared grid [g']. *)
Definition scored (n : Z) (g' : Grid) (w : World) : World :=
  set_streak (streak w + 1)
    (set_lastMoveCleared true
       (set_combo n
          (set_score (score w + (n * 10 + 2 ^ n +
                                 (if streak w >? 0 then streak w * 20 else 0)))
             (set_grid g' w)))).

(** Full rows and columns of a grid. *)
Definition row_full (g : Grid) (r : Z) : bool :=
  forallb (λ c, truthy (cellAt g r c)) (seqZ 0 COLS).

Definition col_full (g : Grid) (c : Z) : bool :=
  forallb (λ r, truthy (cellAt g r c)) (seqZ 0 ROWS).

Definition full_rows (g : Grid) : list Z :=
  filter (λ r, row_full g r = true) (seqZ 0 ROWS).

Definition full_cols (g : Grid) : list Z :=
  filter (λ c, col_full g c = true) (seqZ 0 COLS).

(** The cells that [clearLines] empties: those of the board that lie in a
    full row or in a full column. *)
Definition cleared (g : Grid) (i j : Z) : bool :=
  ((0 <=? i) && (i <? ROWS) && ((0 <=? j) && (j <? COLS))) &&
  (row_full g i || col_full g j).

(* ------------------------------------------------------------------ *)
(** ** Block generation *)

(** The shape [randomShape] reads for a draw [u] from a pool of indices. *)
Definition pick (pool : list Z) (u : Q) : option (list (list Z)) :=
  lookupZ pool (scale u (length pool)) ≫= lookupZ SHAPES.

(* ------------------------------------------------------------------ *)
(** ** The turn controller *)

(** The state after [noClearThisMove]. *)
Definition noClear (w : World) : World :=
  set_combo 0 (set_streak 0 (set_lastMoveCleared false w)).

(** The value of the local [linesCleared] in a call of [tryPlaceBlock] that
    gets as far as [clearLines]. *)
Definition linesOfMove (blockIndex row col : Z) (w : World) : Outcome LinesCleared :=
  match lookupZ (currentBlocks w) blockIndex with
  | Some b =>
      fst ((placeBlock (shape b) (color b) row col;;;
            modify (λ w, set_score (score w + 5) w);;;
            clearLines) w)
  | None => TypeError
  end.

(** The state an accepted move ends in: [w4] is the state after the clearing
    step, [news] the generated blocks, [n] the position of the random source
    and [any] the answer of [canPlaceAny]. *)
Definition finish (blockIndex : Z) (w w4 : World) (news : list Block)
    (n : nat) (any : bool) : World :=
  let w5 := set_drawn n
              (set_currentBlocks
                 (delete (Z.to_nat blockIndex) (currentBlocks w) ++ news) w4) in
  if any then w5 else set_gameOver true w5.

(** No row and no column of the board is full. *)
Definition no_full_line (g : Grid) : Prop :=
  (∀ r, 0 ≤ r < 8 → row_full g r = false) ∧
  (∀ c, 0 ≤ c < 8 → col_full g c = false).

(* ------------------------------------------------------------------ *)
(** ** The game-over scan *)

(** The shape fits at some anchor that keeps it on the board. *)
Definition fits_somewhere (g : Grid) (s : Shape) : bool :=
  existsb (λ r,
    existsb (λ c, negb (overlaps g s r c)) (seqZ 0 (COLS - width0 s + 1)))
    (seqZ 0 (ROWS - height s + 1)).

(* ------------------------------------------------------------------ *)
(** ** Reachable states and their invariant *)

(** What the engine keeps true of the session state between moves. *)
Definition Inv (w : World) : Prop :=
  wf_grid (grid w) = true ∧
  length (currentBlocks w) = 3%nat ∧
  Forall (λ b, shape b ∈ SHAPES) (currentBlocks w) ∧
  no_full_line (grid w).

(** The states of a session: the script initialises the state, then the
    handlers restart, attempt placements, and select or drag a block. *)
Inductive reachable : World → Prop :=
  | reach_init rnd n w :
      init (state0 rnd n) = (Ok tt, w) → reachable w
  | reach_restart w w' :
      reachable w → doRestart w = (Ok tt, w') → reachable w'
  | reach_move w blockIndex row col o w' :
      reachable w → tryPlaceBlock blockIndex row col w = (o, w') → reachable w'
  | reach_select w k :
      reachable w → reachable (set_selectedBlockIndex k w)
  | reach_drag w k :
      reachable w → reachable (set_draggingBlockIndex k w).

(** The grid [initGrid] makes. *)
Definition empty_grid : list JsArray := (λ _, arr_fill COLS Zero) <$> seqZ 0 ROWS.

(* ------------------------------------------------------------------ *)
(** ** Example states *)

(** The array [[v0, v1, ...]]. *)
Definition row_of (l : list Cell) : JsArray :=
  mkArray (list_to_map (zip (seqZ 0 (Z.of_nat (length l))) l)) (Z.of_nat (length l)).

Definition grid_of (ls : list (list Cell)) : list JsArray := row_of <$> ls.

Definition X : Cell := Tag c1.

Definition o : Cell := Zero.

(** A fresh session whose random source always yields 0. *)
Definition fresh : World := snd (init (state0 (λ _, 0%Q) 0)).

(** The state after a sequence of moves (block index, row, column), each
    accepted or not. *)
Definition play (moves : list (Z * Z * Z)) (w : World) : World :=
  foldl (λ w m, snd (tryPlaceBlock m.1.1 m.1.2 m.2 w)) w moves.

(** The fresh session after eight single cells have filled row 0: the last
    of the eight moves clears the row. *)
Definition after_clear : World :=
  play [(0, 0, 0); (0, 0, 1); (0, 0, 2); (0, 0, 3);
        (0, 0, 4); (0, 0, 5); (0, 0, 6); (0, 0, 7)] fresh.

(** Row 0 lacks only its last cell; the streak is 2. *)
Definition almost_row : World :=
  mkWorld
    (grid_of [ [X; X; X; X; X; X; X; o];
               [o; o; o; o; o; o; o; o];
               [o; o; o; o; o; o; o; o];
               [o; o; o; o; o; o; o; o];
               [o; o; o; o; o; o; o; o];
               [o; o; o; o; o; o; o; o];
               [o; o; o; o; o; o; o; o];
               [o; o; o; o; o; o; o; o] ])
    [mkBlock [[1]] c2; mkBlock [[1; 1]] c3; mkBlock [[1]; [1]] c4]
    100 0 2 true false (-1) (-1) (λ _, 0%Q) 0.

(** Row 0 and column 7 both lack only the corner cell; the streak is 3. *)
Definition almost_cross : World :=
  mkWorld
    (grid_of [ [X; X; X; X; X; X; X; o];
               [o; o; o; o; o; o; o; X];
               [o; o; o; o; o; o; o; X];
               [o; o; o; o; o; o; o; X];
               [o; o; o; o; o; o; o; X];
               [o; o; o; o; o; o; o; X];
               [o; o; o; o; o; o; o; X];
               [o; o; o; o; o; o; o; X] ])
    [mkBlock [[1]] c2; mkBlock [[1; 1]] c3; mkBlock [[1]; [1]] c4]
    200 1 3 true false (-1) (-1) (λ _, 0%Q) 0.

(** A checkerboard: only the single cell fits; the random source keeps
    yielding the 3x3 square. *)
Definition nearly_full : World :=
  mkWorld
    (grid_of [ [o; X; o; X; o; X; o; X];
               [X; o; X; o; X; o; X; o];
               [o; X; o; X; o; X; o; X];
               [X; o; X; o; X; o; X; o];
               [o; X; o; X; o; X; o; X];
               [X; o; X; o; X; o; X; o];
               [o; X; o; X; o; X; o; X];
               [X; o; X; o; X; o; X; o] ])
    [mkBlock [[1]] c2;
     mkBlock [[1; 1; 1]; [1; 1; 1]; [1; 1; 1]] c3;
     mkBlock [[1]; [1]] c4]
    40 0 0 false false (-1) (-1) (λ _, (99 # 100)%Q) 0.

(** Score 249, and a random source that always yields the double below
    0.99. *)
Definition at_249 : World :=
  mkWorld empty_grid [] 249 0 0 false false (-1) (-1) (λ _, (99 # 100)%Q) 0.

(** Score 750, and a random source that yields the double below 0.24 and
    then 0.5. *)
Definition at_750 : World :=
  mkWorld empty_grid [] 750 0 0 false false (-1) (-1)
    (λ n, match n with O => (24 # 100)%Q | _ => (1 # 2)%Q end) 0.

(* ------------------------------------------------------------------ *)
(** ** The catalog and its large shapes *)

(** Number of occupied cells of a shape. *)
Definition occupied_cells (s : Shape) : Z :=
  Z.of_nat (length (List.filter (λ v, negb (v =? 0)) (concat s))).

(* ------------------------------------------------------------------ *)
(** ** Difficulty scaling *)

(** The shape [randomShape] returns is large: it has 4 or more occupied
    cells. *)
Definition is_large (s : Shape) : bool := 4 <=? occupied_cells s.

(* ------------------------------------------------------------------ *)
(** ** Counters of a session *)

(** What the engine keeps true of score, streak, combo and the
    [lastMoveCleared] flag between moves. *)
Definition Counters (w : World) : Prop :=
  0 ≤ score w ∧ 0 ≤ streak w ∧ 0 ≤ combo w ≤ 6 ∧
  (lastMoveCleared w = true ↔ 1 ≤ streak w) ∧
  (lastMoveCleared w = true ↔ 1 ≤ combo w).

(* ------------------------------------------------------------------ *)
(** ** Strings of numbers and the stored high score *)

(** [String(n)] and the [${n}] of a template literal for an integer [n]: its
    decimal digits, after a minus sign when negative.  (JavaScript prints
    this way below 10^21; it represents integers exactly below 2^53.) *)
Definition JsString (n : Z) : string := NilZero.string_of_int (Z.to_int n).

(** The white space [parseInt] skips, among the code units below 256: tab,
    line feed, vertical tab, form feed, carriage return, space, no-break
    space.  Strings are sequences of such code units. *)
Definition is_white_space (a : ascii) : bool :=
  let n := N_of_ascii a in
  ((9 <=? n) && (n <=? 13) || (n =? 32) || (n =? 160))%N.

Fixpoint skip_white_space (s : string) : string :=
  match s with
  | String a s' => if is_white_space a then skip_white_space s' else s
  | EmptyString => s
  end.

(** The value of a decimal digit. *)
Definition digit_value (a : ascii) : option Z :=
  let n := N_of_ascii a in
  if ((48 <=? n) && (n <=? 57))%N then Some (Z.of_N n - 48) else None.

(** The longest prefix of decimal digits of [s], read as a number on top of
    the digits read so far; [None] when there is no digit at all. *)
Fixpoint read_digits (s : string) (acc : option Z) : option Z :=
  match s with
  | String a s' =>
      match digit_value a with
      | Some v => read_digits s' (Some (10 * default 0 acc + v))
      | None => acc
      end
  | EmptyString => acc
  end.

(** [parseInt(s, 10)]; [None] is [NaN].  The result is the integer the digits
    denote (JavaScript rounds it to a double beyond 2^53). *)
Definition parseInt10 (s : string) : option Z :=
  match skip_white_space s with
  | String "-"%char s' => Z.opp <$> read_digits s' None
  | String "+"%char s' => read_digits s' None
  | s' => read_digits s' None
  end.

(** The item of [localStorage] under [HIGH_SCORE_KEY]; [None] is [null]. *)
Abbreviation Storage := (option string) (only parsing).

Definition getHighScore (st : Storage) : option Z :=
  match st with
  | Some s => parseInt10 s
  | None => Some 0
  end.

Definition setHighScore (value : Z) (st : Storage) : Storage :=
  Some (JsString value).

(** [state.score > best]; a comparison with [NaN] is false. *)
Definition js_gt (x : Z) (y : option Z) : bool :=
  match y with
  | Some b => x >? b
  | None => false
  end.

(** What [showGameOver] does to the stored high score (its writes to the
    page are left out). *)
Definition showGameOver (w : World) (st : Storage) : Storage :=
  let best := getHighScore st in
  if js_gt (score w) best then setHighScore (score w) st else st.

(* ------------------------------------------------------------------ *)
(** ** The cells of the star blast *)

(** The key [`${r},${c}`] of a cell. *)
Definition cellKey (r c : Z) : string :=
  String.append (JsString r) (String "," (JsString c)).

(** The [cellSet] that [triggerBoardStarBlast] builds from the cleared rows
    and columns. *)
Definition blastCellSet (rowsCleared colsCleared : list Z) : gset string :=
  let cellSet :=
    foldl (λ set r, foldl (λ set c, {[cellKey r c]} ∪ set) set (seqZ 0 COLS))
          ∅ rowsCleared in
  foldl (λ set c, foldl (λ set r, {[cellKey r c]} ∪ set) set (seqZ 0 ROWS))
        cellSet colsCleared.

(** [cellSet.has(`${r},${c}`)]: the cell gets a star. *)
Definition blastActive (cellSet : gset string) (r c : Z) : bool :=
  bool_decide (cellKey r c ∈ cellSet).

(* ------------------------------------------------------------------ *)
(** ** Click to place *)

(** The click handler of a block option: [state.selectedBlockIndex = index]. *)
Definition blockClick (index : Z) : M unit :=
  modify (set_selectedBlockIndex index).

(** The click handler of the board cell [(r, c)] (its changes to the page
    are left out). *)
Definition cellClick (r c : Z) : M unit :=
  let* sel := gets selectedBlockIndex in
  if sel <? 0 then ret tt
  else
    let* sel := gets selectedBlockIndex in
    let* ok := tryPlaceBlock sel r c in
    if ok then modify (set_selectedBlockIndex (-1)) else ret tt.

(** The number a sequence of decimal digits denotes on top of [acc]. *)
Fixpoint horner (d : Decimal.uint) (acc : Z) : Z :=
  match d with
  | Decimal.Nil => acc
  | Decimal.D0 d => horner d (10 * acc)
  | Decimal.D1 d => horner d (10 * acc + 1)
  | Decimal.D2 d => horner d (10 * acc + 2)
  | Decimal.D3 d => horner d (10 * acc + 3)
  | Decimal.D4 d => horner d (10 * acc + 4)
  | Decimal.D5 d => horner d (10 * acc + 5)
  | Decimal.D6 d => horner d (10 * acc + 6)
  | Decimal.D7 d => horner d (10 * acc + 7)
  | Decimal.D8 d => horner d (10 * acc + 8)
  | Decimal.D9 d => horner d (10 * acc + 9)
  end.

(** No character of the string is a comma. *)
Fixpoint no_comma (s : string) : bool :=
  match s with
  | String a s' => negb (Ascii.eqb a ","%char) && no_comma s'
  | EmptyString => true
  end.

(* ================================================================== *)
(** * Part II: lemmas and theorems *)

(* ------------------------------------------------------------------ *)
(** ** Reasoning about computations *)

Lemma bind_Ok {A B} (m : M A) (f : A → M B) w b w' :
  bind m f w = (Ok b, w') ↔ ∃ a w1, m w = (Ok a, w1) ∧ f a w1 = (Ok b, w').
Proof.
  unfold bind. split.
  - destruct (m w) as [[a| |] w1]; intros E; try discriminate. eauto.
  - intros (a & w1 & -> & E). exact E.
Qed.

Lemma bind_run {A B} (m : M A) (f : A → M B) w a w1 :
  m w = (Ok a, w1) → bind m f w = f a w1.
Proof. unfold bind. intros ->. reflexivity. Qed.

Lemma set_grid_id w : set_grid (grid w) w = w.
Proof. destruct w; reflexivity. Qed.

Lemma reads_unchanged {A} (m : M A) w : reads_grid m → snd (m w) = w.
Proof. intros [f Hf]. rewrite Hf. reflexivity. Qed.

Lemma reads_same_grid {A} (m : M A) w1 w2 :
  reads_grid m → grid w1 = grid w2 → fst (m w1) = fst (m w2).
Proof. intros [f Hf] E. rewrite !Hf. simpl. rewrite E. reflexivity. Qed.

Lemma reads_ret {A} (a : A) : reads_grid (ret a).
Proof. exists (λ _, Ok a). reflexivity. Qed.

Lemma reads_throw {A} : reads_grid (@throw A).
Proof. exists (λ _, TypeError). reflexivity. Qed.

Lemma reads_defined {A} (o : option A) : reads_grid (defined o).
Proof. destruct o; [apply reads_ret | apply reads_throw]. Qed.

Lemma reads_gets_grid : reads_grid (gets grid).
Proof. exists (λ g, Ok g). reflexivity. Qed.

Lemma reads_bind {A B} (m : M A) (f : A → M B) :
  reads_grid m → (∀ a, reads_grid (f a)) → reads_grid (bind m f).
Proof.
  intros [fm Hm] Hf.
  assert (Hf' : ∀ a g, ∃ o, ∀ w, grid w = g → f a w = (o, w)).
  { intros a g. destruct (Hf a) as [fa Ha]. exists (fa g).
    intros w <-. apply Ha. }
  exists (λ g, match fm g with
               | Ok a => fst (f a (mkWorld g [] 0 0 0 false false 0 0 (λ _, 0%Q) O))
               | TypeError => TypeError
               | OutOfFuel => OutOfFuel
               end).
  intros w. unfold bind. rewrite Hm.
  destruct (fm (grid w)) as [a| |]; try reflexivity.
  destruct (Hf' a (grid w)) as [o Ho].
  rewrite (Ho w eq_refl). rewrite (Ho (mkWorld (grid w) _ _ _ _ _ _ _ _ _ _) eq_refl).
  reflexivity.
Qed.

Lemma reads_for_return {I B} (l : list I) (body : I → M (option B)) :
  (∀ k, reads_grid (body k)) → reads_grid (for_return l body).
Proof.
  intros Hb. induction l as [|k l IH]; simpl.
  - apply reads_ret.
  - apply reads_bind; [apply Hb|]. intros [v|]; [apply reads_ret | exact IH].
Qed.

Lemma reads_for_fold {I A} (l : list I) (body : I → A → M A) acc :
  (∀ k a, reads_grid (body k a)) → reads_grid (for_fold l acc body).
Proof.
  intros Hb. revert acc. induction l as [|k l IH]; intros acc; simpl.
  - apply reads_ret.
  - apply reads_bind; [apply Hb|]. intros a. apply IH.
Qed.

Ltac reads_tac :=
  repeat first
    [ apply reads_ret | apply reads_throw | apply reads_defined
    | apply reads_gets_grid
    | apply reads_for_return; intros
    | apply reads_for_fold; intros
    | apply reads_bind; [|intros]
    | match goal with
      | |- reads_grid (if ?b then _ else _) => destruct b
      | |- reads_grid (match ?o with Some _ => _ | None => _ end) => destruct o
      end ].

Lemma reads_grid_read i j : reads_grid (grid_read i j).
Proof. unfold grid_read. reads_tac. Qed.

Lemma reads_shape_read s r c : reads_grid (shape_read s r c).
Proof. unfold shape_read. reads_tac. Qed.

Lemma reads_width s : reads_grid (width s).
Proof. unfold width. reads_tac. Qed.

Lemma reads_canPlace s color row col : reads_grid (canPlace s color row col).
Proof.
  unfold canPlace.
  apply reads_bind; [apply reads_width|]. intros W.
  destruct (_ || _); [apply reads_ret|].
  apply reads_bind.
  - apply reads_for_return; intros r. apply reads_for_return; intros c.
    apply reads_bind; [apply reads_shape_read|]. intros sc.
    destruct (truthyZ sc); [|apply reads_ret].
    apply reads_bind; [apply reads_grid_read|]. intros gc.
    destruct (truthy gc); apply reads_ret.
  - intros [b|]; apply reads_ret.
Qed.

Lemma reads_canPlaceAny blocks : reads_grid (canPlaceAny blocks).
Proof.
  unfold canPlaceAny.
  apply reads_bind.
  - apply reads_for_return; intros b.
    apply reads_bind; [apply reads_width|]. intros W.
    apply reads_for_return; intros r. apply reads_for_return; intros c.
    apply reads_bind; [apply reads_canPlace|]. intros [|]; apply reads_ret.
  - intros [b|]; apply reads_ret.
Qed.

Lemma wgo_reads {A} (m : M A) : reads_grid m → writes_grid_only m.
Proof. intros H w. rewrite (reads_unchanged m w H), set_grid_id. reflexivity. Qed.

Lemma wgo_bind {A B} (m : M A) (f : A → M B) :
  writes_grid_only m → (∀ a, writes_grid_only (f a)) → writes_grid_only (bind m f).
Proof.
  intros Hm Hf w. unfold bind. specialize (Hm w).
  destruct (m w) as [[a| |] w1]; simpl in *; try exact Hm.
  rewrite (Hf a w1). rewrite Hm at 2. reflexivity.
Qed.

Lemma wgo_for_fold {I A} (l : list I) (body : I → A → M A) acc :
  (∀ k a, writes_grid_only (body k a)) → writes_grid_only (for_fold l acc body).
Proof.
  intros Hb. revert acc. induction l as [|k l IH]; intros acc; simpl.
  - apply wgo_reads, reads_ret.
  - apply wgo_bind; [apply Hb|]. intros a. apply IH.
Qed.

Lemma wgo_for_each {I} (l : list I) (body : I → M unit) :
  (∀ k, writes_grid_only (body k)) → writes_grid_only (for_each l body).
Proof. intros Hb. apply wgo_for_fold. intros k _. apply Hb. Qed.

Lemma wgo_grid_write i j v : writes_grid_only (grid_write i j v).
Proof.
  unfold grid_write. apply wgo_bind; [apply wgo_reads, reads_gets_grid|].
  intros g. apply wgo_bind; [apply wgo_reads, reads_defined|].
  intros a w. reflexivity.
Qed.

Lemma wgo_placeBlock s color row col : writes_grid_only (placeBlock s color row col).
Proof.
  unfold placeBlock. apply wgo_bind; [apply wgo_reads, reads_width|]. intros W.
  apply wgo_for_each; intros r. apply wgo_for_each; intros c.
  apply wgo_bind; [apply wgo_reads, reads_shape_read|]. intros sc.
  destruct (truthyZ sc); [apply wgo_grid_write | apply wgo_reads, reads_ret].
Qed.

(* ------------------------------------------------------------------ *)
(** ** Grids: reading, writing and well-formedness *)

Lemma forallb_seqZ (f : Z → bool) n :
  forallb f (seqZ 0 n) = true ↔ ∀ k, 0 ≤ k < n → f k = true.
Proof.
  rewrite forallb_forall. split.
  - intros H k Hk. apply H, list_elem_of_In, elem_of_seqZ. lia.
  - intros H k Hk. apply list_elem_of_In, elem_of_seqZ in Hk. apply H. lia.
Qed.

Lemma existsb_seqZ (f : Z → bool) n :
  existsb f (seqZ 0 n) = true ↔ ∃ k, 0 ≤ k < n ∧ f k = true.
Proof.
  rewrite existsb_exists. split.
  - intros (k & Hk & E). apply list_elem_of_In, elem_of_seqZ in Hk.
    exists k. split; [lia | exact E].
  - intros (k & Hk & E). exists k. split; [|exact E].
    apply list_elem_of_In, elem_of_seqZ. lia.
Qed.

Lemma lookupZ_Some {A} (l : list A) i a :
  lookupZ l i = Some a → 0 ≤ i < Z.of_nat (length l).
Proof.
  unfold lookupZ. destruct (Z.ltb_spec i 0); [discriminate|].
  intros E. apply lookup_lt_Some in E. lia.
Qed.

Lemma lookupZ_is_Some {A} (l : list A) i :
  0 ≤ i < Z.of_nat (length l) → is_Some (lookupZ l i).
Proof.
  intros Hi. unfold lookupZ. destruct (Z.ltb_spec i 0); [lia|].
  apply lookup_lt_is_Some. lia.
Qed.

Lemma lookupZ_None {A} (l : list A) i :
  i < 0 ∨ Z.of_nat (length l) ≤ i → lookupZ l i = None.
Proof.
  intros Hi. unfold lookupZ. destruct (Z.ltb_spec i 0); [reflexivity|].
  apply lookup_ge_None. lia.
Qed.

Lemma lookupZ_elem_of {A} (l : list A) i a : lookupZ l i = Some a → a ∈ l.
Proof.
  unfold lookupZ. destruct (i <? 0); [discriminate|].
  intros E. eapply list_elem_of_lookup_2, E.
Qed.

Lemma wf_grid_length g : wf_grid g = true → Z.of_nat (length g) = 8.
Proof.
  unfold wf_grid, ROWS. intros H. apply andb_true_iff in H as [H _]. lia.
Qed.

Lemma wf_grid_row g i :
  wf_grid g = true → 0 ≤ i < 8 →
  ∃ a, lookupZ g i = Some a ∧ wf_row a = true.
Proof.
  intros Hg Hi. pose proof (wf_grid_length g Hg) as Hlen.
  destruct (lookupZ_is_Some g i) as [a Ha]; [lia|].
  exists a. split; [exact Ha|].
  unfold wf_grid in Hg. apply andb_true_iff in Hg as [_ Hg].
  rewrite forallb_forall in Hg. apply Hg, list_elem_of_In.
  eapply lookupZ_elem_of, Ha.
Qed.

Lemma wf_row_len a : wf_row a = true → len a = 8.
Proof.
  unfold wf_row, COLS. intros H. apply andb_true_iff in H as [H _]. lia.
Qed.

Lemma wf_row_get a j :
  wf_row a = true → 0 ≤ j < 8 → ∃ v, arr_get a j = Some v.
Proof.
  unfold wf_row, COLS, arr_get. intros H Hj.
  apply andb_true_iff in H as [_ H].
  rewrite forallb_seqZ in H. specialize (H j Hj).
  destruct (props a !! j) as [v|]; [eauto | discriminate].
Qed.

Lemma wf_grid_cell g i j :
  wf_grid g = true → 0 ≤ i < 8 → 0 ≤ j < 8 → ∃ v, cellAt g i j = Some v.
Proof.
  intros Hg Hi Hj. destruct (wf_grid_row g i Hg Hi) as (a & Ha & Hwa).
  destruct (wf_row_get a j Hwa Hj) as [v Hv].
  exists v. unfold cellAt. rewrite Ha. exact Hv.
Qed.

(** On a present cell the two occupancy tests of the source agree. *)
Lemma truthy_nonzero v : truthy (Some v) = nonzero v.
Proof. destruct v; reflexivity. Qed.

Lemma wf_row_arr_set a j v :
  wf_row a = true → j < 8 → wf_row (arr_set a j v) = true.
Proof.
  intros H Hj. pose proof (wf_row_len a H) as Hl.
  unfold wf_row, COLS in *. apply andb_true_iff in H as [_ H].
  rewrite forallb_seqZ in H. apply andb_true_iff. split.
  - unfold arr_set. simpl.
    destruct (Z.leb_spec 0 j), (Z.leb_spec (len a) j); simpl; lia.
  - apply forallb_seqZ. intros k Hk. specialize (H k Hk).
    unfold arr_set. simpl. rewrite lookup_insert.
    case_decide; [reflexivity | exact H].
Qed.

Lemma arr_get_arr_set a j v j' :
  arr_get (arr_set a j v) j' = if decide (j = j') then Some v else arr_get a j'.
Proof. unfold arr_get, arr_set. simpl. apply lookup_insert. Qed.

Lemma grid_write_run i j v w a :
  lookupZ (grid w) i = Some a →
  grid_write i j v w = (Ok tt, set_grid (grid_set (grid w) i a j v) w).
Proof. unfold grid_write, bind, gets, defined. intros ->. reflexivity. Qed.

Lemma lookupZ_grid_set g i a j v i' :
  lookupZ g i = Some a →
  lookupZ (grid_set g i a j v) i' =
    if decide (i = i') then Some (arr_set a j v) else lookupZ g i'.
Proof.
  intros Ha. pose proof (lookupZ_Some g i a Ha) as Hi.
  unfold lookupZ, grid_set. destruct (Z.ltb_spec i' 0).
  - case_decide; [lia | reflexivity].
  - case_decide as E.
    + subst i'. apply list_lookup_insert_eq. lia.
    + apply list_lookup_insert_ne. lia.
Qed.

Lemma cellAt_grid_set g i a j v i' j' :
  lookupZ g i = Some a →
  cellAt (grid_set g i a j v) i' j' =
    if (i' =? i) && (j' =? j) then Some v else cellAt g i' j'.
Proof.
  intros Ha. unfold cellAt. rewrite (lookupZ_grid_set g i a j v i' Ha).
  case_decide as E.
  - subst i'. rewrite Z.eqb_refl, Ha. simpl. rewrite arr_get_arr_set.
    case_decide as E'.
    + subst j'. rewrite Z.eqb_refl. reflexivity.
    + destruct (Z.eqb_spec j' j); [congruence | reflexivity].
  - destruct (Z.eqb_spec i' i); [congruence | reflexivity].
Qed.

Lemma wf_grid_set g i a j v :
  wf_grid g = true → lookupZ g i = Some a → j < 8 →
  wf_grid (grid_set g i a j v) = true.
Proof.
  intros Hg Ha Hj. pose proof (wf_grid_length g Hg) as Hlen.
  unfold wf_grid in *. apply andb_true_iff in Hg as [_ Hg].
  rewrite forallb_forall in Hg.
  apply andb_true_iff. split.
  - unfold grid_set, ROWS. rewrite length_insert. lia.
  - apply forallb_forall. intros a' Ha'. apply list_elem_of_In in Ha'.
    unfold grid_set in Ha'. apply list_elem_of_lookup in Ha' as [n Hn].
    destruct (decide (Z.to_nat i = n)) as [<-|Hne].
    + rewrite list_lookup_insert_eq in Hn.
      * injection Hn as <-. apply wf_row_arr_set; [|exact Hj].
        apply Hg, list_elem_of_In. eapply lookupZ_elem_of, Ha.
      * apply lookupZ_Some in Ha. lia.
    + rewrite list_lookup_insert_ne in Hn by exact Hne.
      apply Hg, list_elem_of_In. eapply list_elem_of_lookup_2, Hn.
Qed.

(* ------------------------------------------------------------------ *)
(** ** Loops that only read *)

Lemma for_return_scan {I B} (l : list I) (body : I → M (option B)) w :
  (∀ k, reads_grid (body k)) →
  for_return l body w = (scan ((λ k, fst (body k w)) <$> l), w).
Proof.
  intros Hb. induction l as [|k l IH]; simpl; [reflexivity|].
  unfold bind. pose proof (reads_unchanged (body k) w (Hb k)) as Hw.
  destruct (body k w) as [[[v|]| |] w1]; simpl in *; subst w1;
    try reflexivity.
  exact IH.
Qed.

Lemma scan_flags {I B} (l : list I) (f : I → Outcome (option B)) p (v : B) :
  (∀ k, k ∈ l → f k = Ok (if p k : bool then Some v else None)) →
  scan (f <$> l) = Ok (if existsb p l then Some v else None).
Proof.
  induction l as [|k l IH]; intros H; simpl; [reflexivity|].
  rewrite (H k) by apply list_elem_of_here.
  destruct (p k); simpl; [reflexivity|].
  apply IH. intros k' Hk'. apply H. by apply list_elem_of_further.
Qed.

Lemma scan_None_inv {I B} (l : list I) (f : I → Outcome (option B)) :
  scan (f <$> l) = Ok None → ∀ k, k ∈ l → f k = Ok None.
Proof.
  induction l as [|k l IH]; simpl; intros H k' Hk'.
  - by apply elem_of_nil in Hk'.
  - destruct (f k) as [[v|]| |] eqn:E; try discriminate.
    apply elem_of_cons in Hk' as [->|Hk']; [exact E | by apply IH].
Qed.

Lemma scan_Some_inv {I B} (l : list I) (f : I → Outcome (option B)) v :
  scan (f <$> l) = Ok (Some v) → ∃ k, k ∈ l ∧ f k = Ok (Some v).
Proof.
  induction l as [|k l IH]; simpl; intros H; [discriminate|].
  destruct (f k) as [[v'|]| |] eqn:E; try discriminate.
  - injection H as ->. exists k. split; [apply list_elem_of_here | exact E].
  - destruct (IH H) as (k' & Hk' & E'). exists k'.
    split; [by apply list_elem_of_further | exact E'].
Qed.

(** A loop that accumulates without writing. *)
Lemma for_fold_reads {I A} (l : list I) (body : I → A → M A) f acc w :
  (∀ k a, k ∈ l → body k a w = (Ok (f a k), w)) →
  for_fold l acc body w = (Ok (fold_left f l acc), w).
Proof.
  revert acc. induction l as [|k l IH]; intros acc H; simpl; [reflexivity|].
  rewrite (bind_run _ _ _ _ _ (H k acc (list_elem_of_here _ _))).
  apply IH. intros k' a Hk'. apply H. by apply list_elem_of_further.
Qed.

Lemma fold_left_push {I} (p : I → bool) (l acc : list I) :
  fold_left (λ a k, if p k then a ++ [k] else a) l acc = acc ++ filter (λ k, p k = true) l.
Proof.
  revert acc. induction l as [|k l IH]; intros acc; simpl.
  - by rewrite app_nil_r.
  - rewrite IH. rewrite filter_cons. destruct (p k) eqn:E.
    + rewrite decide_True by done. by rewrite <- app_assoc.
    + rewrite decide_False by (by intros ?). reflexivity.
Qed.

(* ------------------------------------------------------------------ *)
(** ** Placement validity *)

Lemma fmap_ext_all {A B} (f g : A → B) (l : list A) :
  (∀ x, f x = g x) → f <$> l = g <$> l.
Proof. intros H. induction l as [|x l IH]; csimpl; [reflexivity|]. by rewrite H, IH. Qed.

Lemma width_run s w : s ≠ [] → width s w = (Ok (width0 s), w).
Proof. destruct s as [|row0 s]; [done|]. reflexivity. Qed.

Lemma canPlace_probe s row col w c r :
  fst ((let* sc := shape_read s r c in
        if truthyZ sc then
          let* gc := grid_read (row + r) (col + c) in
          if truthy gc then ret (Some false) else ret None
        else ret None) w) = probe (grid w) s row col r c.
Proof.
  unfold probe, shape_read, grid_read, bind, defined, gets, ret, throw.
  destruct (lookupZ s r) as [srow|]; simpl; [|reflexivity].
  destruct (truthyZ (lookupZ srow c)); simpl; [|reflexivity].
  destruct (lookupZ (grid w) (row + r)) as [a|]; simpl; [|reflexivity].
  destruct (truthy (arr_get a (col + c))); reflexivity.
Qed.

Lemma canPlace_unfold s color row col w :
  s ≠ [] →
  canPlace s color row col w =
    (if out_of_bounds s row col then Ok false
     else match scan ((λ r, scan ((λ c, probe (grid w) s row col r c)
                                    <$> seqZ 0 (width0 s)))
                        <$> seqZ 0 (height s)) with
          | Ok (Some b) => Ok b
          | Ok None => Ok true
          | TypeError => TypeError
          | OutOfFuel => OutOfFuel
          end, w).
Proof.
  intros Hs. unfold canPlace, out_of_bounds.
  rewrite (bind_run _ _ _ _ _ (width_run s w Hs)).
  destruct (_ || _); [reflexivity|].
  unfold bind at 1. rewrite for_return_scan.
  2:{ intros r. apply reads_for_return. intros c.
      apply reads_bind; [apply reads_shape_read|]. intros sc.
      destruct (truthyZ sc); [|apply reads_ret].
      apply reads_bind; [apply reads_grid_read|]. intros gc.
      destruct (truthy gc); apply reads_ret. }
  erewrite (fmap_ext_all _ (λ r, scan ((λ c, probe (grid w) s row col r c)
                                         <$> seqZ 0 (width0 s)))).
  - destruct (scan _) as [[b|]| |]; reflexivity.
  - intros r. rewrite for_return_scan.
    2:{ intros c. apply reads_bind; [apply reads_shape_read|]. intros sc.
        destruct (truthyZ sc); [|apply reads_ret].
        apply reads_bind; [apply reads_grid_read|]. intros gc.
        destruct (truthy gc); apply reads_ret. }
    simpl. f_equal. apply fmap_ext_all. intros c. apply canPlace_probe.
Qed.

Lemma canPlace_empty_shape color row col w :
  canPlace [] color row col w = (TypeError, w).
Proof. reflexivity. Qed.

Lemma probe_defined g s row col r c :
  wf_grid g = true → 0 ≤ r < height s → 0 ≤ row + r < 8 →
  probe g s row col r c =
    Ok (if truthyZ (shapeAt s r c) && truthy (cellAt g (row + r) (col + c))
        then Some false else None).
Proof.
  intros Hg Hr Hrow. unfold probe, shapeAt, cellAt.
  destruct (lookupZ_is_Some s r Hr) as [srow ->]. simpl.
  destruct (wf_grid_row g (row + r) Hg Hrow) as (a & -> & _). simpl.
  destruct (truthyZ (lookupZ srow c)); [|reflexivity].
  destruct (truthy (arr_get a (col + c))); reflexivity.
Qed.

(** On an 8x8 grid and from a row [row >= 0], [canPlace] returns, and it
    returns the negation of "out of bounds or overlapping". *)
Lemma canPlace_run s color row col w :
  s ≠ [] → wf_grid (grid w) = true → 0 ≤ row →
  canPlace s color row col w =
    (Ok (negb (out_of_bounds s row col || overlaps (grid w) s row col)), w).
Proof.
  intros Hs Hg Hrow. rewrite (canPlace_unfold s color row col w Hs).
  destruct (out_of_bounds s row col) eqn:Hoob; [reflexivity|]. simpl.
  unfold out_of_bounds, ROWS in Hoob. apply orb_false_iff in Hoob as [Hr _].
  rewrite (scan_flags _ _
             (λ r, existsb (λ c, truthyZ (shapeAt s r c) &&
                                 truthy (cellAt (grid w) (row + r) (col + c)))
                           (seqZ 0 (width0 s))) false).
  - fold (overlaps (grid w) s row col).
    destruct (overlaps (grid w) s row col); reflexivity.
  - intros r Hin. apply elem_of_seqZ in Hin.
    apply scan_flags. intros c _. apply probe_defined; [exact Hg| |]; lia.
Qed.

Lemma scan_throw_any {I B} (l : list I) (f : I → Outcome (option B)) :
  (∀ k, k ∈ l → f k = Ok None ∨ f k = TypeError) →
  (∃ k, k ∈ l ∧ f k = TypeError) →
  scan (f <$> l) = TypeError.
Proof.
  induction l as [|k l IH]; intros Hall (k0 & Hk0 & E0).
  - by apply elem_of_nil in Hk0.
  - csimpl. pose proof (Hall k (list_elem_of_here _ _)) as Hk.
    destruct (f k) as [[v|]| |] eqn:E;
      [destruct Hk; congruence | | reflexivity | destruct Hk; congruence].
    apply IH.
    + intros k' Hk'. apply Hall. by apply list_elem_of_further.
    + apply elem_of_cons in Hk0 as [->|Hk0]; [congruence | eauto].
Qed.

Lemma catalog_first_row_occupied :
  Forall (λ s, first_row_occupied s = true) SHAPES.
Proof. repeat constructor. Qed.

Lemma catalog_nonempty : Forall (λ s : Shape, s ≠ []) SHAPES.
Proof. repeat (constructor; [discriminate|]). constructor. Qed.

(** From a negative row, a shape that fits below the upper bounds makes
    [canPlace] read a property of [undefined]. *)
Lemma canPlace_negative_row s color row col w :
  first_row_occupied s = true → row < 0 → out_of_bounds s row col = false →
  canPlace s color row col w = (TypeError, w).
Proof.
  intros Hocc Hrow Hoob.
  assert (Hs : s ≠ []) by (intros ->; discriminate).
  rewrite (canPlace_unfold s color row col w Hs), Hoob.
  assert (Hh : 0 < height s).
  { destruct s; [done|]. unfold height. simpl. lia. }
  rewrite (seqZ_cons 0 (height s) Hh). csimpl.
  rewrite scan_throw_any; [reflexivity| |].
  - intros c _. unfold probe.
    destruct (lookupZ s 0) as [srow|]; [|by right].
    destruct (truthyZ (lookupZ srow c)); [|by left].
    rewrite (lookupZ_None (grid w) (row + 0)) by lia. by right.
  - unfold first_row_occupied in Hocc. apply existsb_exists in Hocc as (c & Hc & E).
    exists c. split; [by apply list_elem_of_In|].
    unfold probe. unfold shapeAt in E.
    destruct (lookupZ s 0) as [srow|]; [|reflexivity]. simpl in E. rewrite E.
    by rewrite (lookupZ_None (grid w) (row + 0)) by lia.
Qed.

(** What an accepting [canPlace] has checked. *)
Lemma canPlace_true_inv s color row col w w' :
  canPlace s color row col w = (Ok true, w') →
  w' = w ∧ s ≠ [] ∧ out_of_bounds s row col = false ∧
  ∀ r c, 0 ≤ r < height s → 0 ≤ c < width0 s →
    truthyZ (shapeAt s r c) = true →
    ∃ a, lookupZ (grid w) (row + r) = Some a ∧ truthy (arr_get a (col + c)) = false.
Proof.
  intros E.
  assert (Hs : s ≠ []).
  { intros ->. rewrite canPlace_empty_shape in E. discriminate. }
  rewrite (canPlace_unfold s color row col w Hs) in E.
  destruct (out_of_bounds s row col); [discriminate|].
  destruct (scan _) as [[b|]| |] eqn:Hscan; try discriminate.
  - (* an early return only ever returns false *)
    apply scan_Some_inv in Hscan as (r & _ & Hr).
    apply scan_Some_inv in Hr as (c & _ & Hc).
    unfold probe in Hc.
    destruct (lookupZ s r); [|discriminate].
    destruct (truthyZ _); [|discriminate].
    destruct (lookupZ (grid w) _); [|discriminate].
    destruct (truthy _); congruence.
  - injection E as <-. repeat split; try done.
    intros r c Hr Hc Hocc.
    pose proof (scan_None_inv _ _ Hscan r) as Hrow.
    cbv beta in Hrow.
    specialize (Hrow ltac:(apply elem_of_seqZ; lia)).
    pose proof (scan_None_inv _ _ Hrow c ltac:(apply elem_of_seqZ; lia)) as Hp.
    unfold probe in Hp. unfold shapeAt in Hocc.
    destruct (lookupZ s r) as [srow|]; [|discriminate]. simpl in Hocc.
    rewrite Hocc in Hp.
    destruct (lookupZ (grid w) (row + r)) as [a|]; [|discriminate].
    exists a. split; [reflexivity|].
    destruct (truthy (arr_get a (col + c))); [discriminate | reflexivity].
Qed.

(* ------------------------------------------------------------------ *)
(** ** Loops that write cells *)

Lemma updated_ext g g' S S' v :
  (∀ i j, S i j = S' i j) → updated g g' S v → updated g g' S' v.
Proof. intros E [Hwf H]. split; [exact Hwf|]. intros i j. rewrite <- E. apply H. Qed.

Lemma updated_none g v : wf_grid g = true → updated g g (λ _ _, false) v.
Proof. intros H. split; [exact H | reflexivity]. Qed.

Lemma updated_trans g g1 g2 S1 S2 v :
  updated g g1 S1 v → updated g1 g2 S2 v →
  updated g g2 (λ i j, S1 i j || S2 i j) v.
Proof.
  intros [_ H1] [Hwf H2]. split; [exact Hwf|]. intros i j.
  rewrite H2, H1. destruct (S1 i j), (S2 i j); reflexivity.
Qed.

Lemma grid_write_updated i j v w g1 :
  wf_grid g1 = true → 0 ≤ i < 8 → j < 8 →
  ∃ g2, grid_write i j v (set_grid g1 w) = (Ok tt, set_grid g2 w) ∧
        updated g1 g2 (λ i' j', (i' =? i) && (j' =? j)) v.
Proof.
  intros Hg Hi Hj. destruct (wf_grid_row g1 i Hg Hi) as (a & Ha & _).
  exists (grid_set g1 i a j v). split.
  - rewrite (grid_write_run i j v (set_grid g1 w) a Ha). reflexivity.
  - split; [by apply wf_grid_set|]. intros i' j'. by apply cellAt_grid_set.
Qed.

Lemma for_each_updated {I} (l : list I) (body : I → M unit)
    (S : I → Z → Z → bool) v w :
  (∀ k g1, k ∈ l → wf_grid g1 = true →
     ∃ g2, body k (set_grid g1 w) = (Ok tt, set_grid g2 w) ∧
           updated g1 g2 (S k) v) →
  ∀ g0, wf_grid g0 = true →
    ∃ g', for_each l body (set_grid g0 w) = (Ok tt, set_grid g' w) ∧
          updated g0 g' (λ i j, existsb (λ k, S k i j) l) v.
Proof.
  induction l as [|k l IH]; intros Hb g0 Hg0.
  - exists g0. split; [reflexivity | by apply updated_none].
  - destruct (Hb k g0 (list_elem_of_here _ _) Hg0) as (g1 & E1 & U1).
    destruct (IH (λ k' g Hk', Hb k' g (list_elem_of_further _ _ _ Hk')) g1 (proj1 U1))
      as (g' & E' & U').
    exists g'. split.
    + unfold for_each in *. simpl.
      rewrite (bind_run _ _ _ _ _ E1). exact E'.
    + simpl. exact (updated_trans _ _ _ _ _ _ U1 U').
Qed.

Lemma shape_read_run s r c w :
  0 ≤ r < height s → shape_read s r c w = (Ok (shapeAt s r c), w).
Proof.
  intros Hr. unfold shape_read, shapeAt, bind, defined.
  destruct (lookupZ_is_Some s r Hr) as [srow ->]. reflexivity.
Qed.

Lemma placeBlock_run s color row col w :
  wf_grid (grid w) = true → s ≠ [] →
  (∀ r c, 0 ≤ r < height s → 0 ≤ c < width0 s →
     truthyZ (shapeAt s r c) = true → 0 ≤ row + r < 8 ∧ col + c < 8) →
  ∃ g', placeBlock s color row col w = (Ok tt, set_grid g' w) ∧
        updated (grid w) g' (covers s row col) (Tag color).
Proof.
  intros Hg Hs Hin. unfold placeBlock.
  rewrite (bind_run _ _ _ _ _ (width_run s w Hs)).
  destruct (for_each_updated (seqZ 0 (height s))
           (λ r, for_each (seqZ 0 (width0 s)) (λ c,
              let* sc := shape_read s r c in
              if truthyZ sc then grid_write (row + r) (col + c) (Tag color)
              else ret tt))
           (λ r i j, existsb (λ c, truthyZ (shapeAt s r c) &&
                                   ((i =? row + r) && (j =? col + c)))
                             (seqZ 0 (width0 s))) (Tag color) w) with (g0 := grid w)
    as (g' & E & U); [|exact Hg|].
  2:{ rewrite set_grid_id in E. exists g'. split; [exact E | exact U]. }
  intros r g1 Hr Hg1. apply elem_of_seqZ in Hr.
  apply (for_each_updated (seqZ 0 (width0 s)) _
           (λ c i j, truthyZ (shapeAt s r c) &&
                     ((i =? row + r) && (j =? col + c))) (Tag color) w);
    [|exact Hg1].
  intros c g2 Hc Hg2. apply elem_of_seqZ in Hc.
  rewrite (bind_run _ _ _ _ _ (shape_read_run s r c _ ltac:(lia))).
  destruct (truthyZ (shapeAt s r c)) eqn:Hocc.
  - destruct (Hin r c ltac:(lia) ltac:(lia) Hocc) as [Hi Hj].
    apply grid_write_updated; [exact Hg2 | exact Hi | exact Hj].
  - exists g2. split; [reflexivity | by apply updated_none].
Qed.

(* ------------------------------------------------------------------ *)
(** ** Line clearing *)

Lemma run_eq_unchanged {A} (m : M A) w o w' :
  reads_grid m → m w = (o, w') → w' = w.
Proof. intros H E. rewrite <- (reads_unchanged m w H), E. reflexivity. Qed.

Lemma run_eq_grid_only {A} (m : M A) w o w' :
  writes_grid_only m → m w = (o, w') → w' = set_grid (grid w') w.
Proof. intros H E. specialize (H w). rewrite E in H. exact H. Qed.

(** Whatever the grid, [clearLines] either finds nothing and leaves the state
    alone, or clears and scores. *)
Lemma clearLines_frame w lc w' :
  clearLines w = (Ok lc, w') →
  (count lc = 0 ∧ w' = w) ∨
  (1 ≤ count lc ∧ ∃ g', w' = scored (count lc) g' w).
Proof.
  unfold clearLines. intros E.
  apply bind_Ok in E as (rs & w1 & E1 & E).
  apply run_eq_unchanged in E1 as ->.
  2:{ apply reads_for_fold. intros r acc.
      apply reads_bind; [apply reads_gets_grid|]. intros g.
      apply reads_bind; [apply reads_defined|]. intros a.
      destruct (arr_every nonzero a); apply reads_ret. }
  apply bind_Ok in E as (cs & w2 & E2 & E).
  apply run_eq_unchanged in E2 as ->.
  2:{ apply reads_for_fold. intros c acc.
      apply reads_bind.
      - apply reads_for_return. intros r.
        apply reads_bind; [apply reads_grid_read|]. intros v.
        destruct (negb (truthy v)); apply reads_ret.
      - intros [[|]|]; apply reads_ret. }
  destruct (Z.eqb_spec (Z.of_nat (length rs) + Z.of_nat (length cs)) 0) as [Hz|Hnz].
  - injection E as <- <-. left. split; reflexivity.
  - right.
    apply bind_Ok in E as (u1 & w3 & E3 & E).
    apply run_eq_grid_only in E3.
    2:{ apply wgo_for_each. intros r. apply wgo_for_each. intros c.
        apply wgo_grid_write. }
    apply bind_Ok in E as (u2 & w4 & E4 & E).
    apply run_eq_grid_only in E4.
    2:{ apply wgo_for_each. intros c. apply wgo_for_each. intros r.
        apply wgo_grid_write. }
    unfold bind, gets, modify, ret in E. injection E as <- <-.
    split; [simpl; lia|].
    exists (grid w4). rewrite E4, E3. simpl.
    unfold scored. simpl.
    destruct (streak w >? 0); [reflexivity|].
    rewrite Z.add_0_r. reflexivity.
Qed.

Lemma forallb_ext_in {A} (f g : A → bool) (l : list A) :
  (∀ x, x ∈ l → f x = g x) → forallb f l = forallb g l.
Proof.
  induction l as [|x l IH]; intros H; simpl; [reflexivity|].
  rewrite (H x) by apply list_elem_of_here. f_equal.
  apply IH. intros y Hy. apply H. by apply list_elem_of_further.
Qed.

Lemma negb_existsb_negb {A} (f : A → bool) (l : list A) :
  negb (existsb (λ x, negb (f x)) l) = forallb f l.
Proof.
  induction l as [|x l IH]; simpl; [reflexivity|].
  rewrite negb_orb, negb_involutive, IH. reflexivity.
Qed.

(** The row test [every(cell => cell !== 0)] on a well-formed row. *)
Lemma arr_every_row_full g r a :
  lookupZ g r = Some a → wf_row a = true →
  arr_every nonzero a = row_full g r.
Proof.
  intros Ha Hwa. unfold arr_every, row_full, COLS.
  rewrite (wf_row_len a Hwa). apply forallb_ext_in. intros c Hc.
  apply elem_of_seqZ in Hc. unfold cellAt. rewrite Ha. simpl.
  destruct (wf_row_get a c Hwa ltac:(lia)) as [v Hv].
  unfold arr_get in *. rewrite Hv. symmetry. apply truthy_nonzero.
Qed.

Lemma grid_read_run g i j w :
  is_Some (lookupZ (grid w) i) → g = grid w →
  grid_read i j w = (Ok (cellAt g i j), w).
Proof.
  intros [a Ha] ->. unfold grid_read, cellAt, bind, gets, defined.
  rewrite Ha. reflexivity.
Qed.

Lemma detect_rows w :
  wf_grid (grid w) = true →
  for_fold (seqZ 0 ROWS) [] (λ r acc,
      let* g := gets grid in
      let* a := defined (lookupZ g r) in
      if arr_every nonzero a then ret (acc ++ [r]) else ret acc) w
  = (Ok (full_rows (grid w)), w).
Proof.
  intros Hg.
  rewrite (for_fold_reads _ _
             (λ acc r, if row_full (grid w) r then acc ++ [r] else acc)).
  - rewrite fold_left_push. reflexivity.
  - intros r acc Hr. apply elem_of_seqZ in Hr. unfold ROWS in Hr.
    destruct (wf_grid_row (grid w) r Hg ltac:(lia)) as (a & Ha & Hwa).
    unfold bind, gets, defined. rewrite Ha. simpl.
    rewrite (arr_every_row_full (grid w) r a Ha Hwa).
    destruct (row_full (grid w) r); reflexivity.
Qed.

Lemma detect_cols w :
  wf_grid (grid w) = true →
  for_fold (seqZ 0 COLS) [] (λ c acc,
      let* brk :=
        for_return (seqZ 0 ROWS) (λ r,
          let* v := grid_read r c in
          if negb (truthy v) then ret (Some false) else ret None) in
      let full := match brk with Some b => b | None => true end in
      if full then ret (acc ++ [c]) else ret acc) w
  = (Ok (full_cols (grid w)), w).
Proof.
  intros Hg.
  rewrite (for_fold_reads _ _
             (λ acc c, if col_full (grid w) c then acc ++ [c] else acc)).
  - rewrite fold_left_push. reflexivity.
  - intros c acc _. unfold bind at 1. rewrite for_return_scan.
    2:{ intros r. apply reads_bind; [apply reads_grid_read|]. intros v.
        destruct (negb (truthy v)); apply reads_ret. }
    rewrite (scan_flags _ _ (λ r, negb (truthy (cellAt (grid w) r c))) false).
    + unfold col_full. rewrite <- negb_existsb_negb.
      destruct (existsb _ _); reflexivity.
    + intros r Hr. apply elem_of_seqZ in Hr. unfold ROWS in Hr.
      destruct (wf_grid_row (grid w) r Hg ltac:(lia)) as (a & Ha & _).
      rewrite (bind_run _ _ _ _ _
                 (grid_read_run (grid w) r c w (mk_is_Some _ _ Ha) eq_refl)).
      destruct (negb (truthy (cellAt (grid w) r c))); reflexivity.
Qed.

Lemma elem_of_full_rows g r :
  r ∈ full_rows g ↔ 0 ≤ r < 8 ∧ row_full g r = true.
Proof.
  unfold full_rows, ROWS. rewrite list_elem_of_filter, elem_of_seqZ.
  split; intros []; split; try done; lia.
Qed.

Lemma elem_of_full_cols g c :
  c ∈ full_cols g ↔ 0 ≤ c < 8 ∧ col_full g c = true.
Proof.
  unfold full_cols, COLS. rewrite list_elem_of_filter, elem_of_seqZ.
  split; intros []; split; try done; lia.
Qed.

Lemma existsb_elem_of {A} (f : A → bool) (l : list A) :
  existsb f l = true ↔ ∃ x, x ∈ l ∧ f x = true.
Proof.
  rewrite existsb_exists. split; intros (x & Hx & E); exists x;
    (split; [by apply list_elem_of_In | exact E]).
Qed.

Lemma cleared_by_loops g i j :
  existsb (λ r, existsb (λ c, (i =? r) && (j =? c)) (seqZ 0 COLS)) (full_rows g)
  || existsb (λ c, existsb (λ r, (i =? r) && (j =? c)) (seqZ 0 ROWS)) (full_cols g)
  = cleared g i j.
Proof.
  apply eq_iff_eq_true. unfold cleared, ROWS, COLS.
  rewrite !orb_true_iff, !andb_true_iff, orb_true_iff, !existsb_elem_of.
  split.
  - intros [(r & Hr & E) | (c & Hc & E)].
    + apply existsb_seqZ in E as (c & Hc & E).
      apply andb_true_iff in E as [E1 E2].
      apply elem_of_full_rows in Hr as [Hr Hf].
      assert (i = r) as -> by lia. assert (j = c) as -> by lia.
      repeat split; try lia. by left.
    + apply existsb_seqZ in E as (r & Hr & E).
      apply andb_true_iff in E as [E1 E2].
      apply elem_of_full_cols in Hc as [Hc Hf].
      assert (i = r) as -> by lia. assert (j = c) as -> by lia.
      repeat split; try lia. by right.
  - intros [[[Hi1 Hi2] [Hj1 Hj2]] [Hf | Hf]].
    + left. exists i. split; [apply elem_of_full_rows; split; [lia | exact Hf]|].
      apply existsb_seqZ. exists j. split; [lia|].
      rewrite !Z.eqb_refl. reflexivity.
    + right. exists j. split; [apply elem_of_full_cols; split; [lia | exact Hf]|].
      apply existsb_seqZ. exists i. split; [lia|].
      rewrite !Z.eqb_refl. reflexivity.
Qed.

Lemma no_full_none_cleared g i j :
  full_rows g = [] → full_cols g = [] → cleared g i j = false.
Proof.
  intros Hr Hc. rewrite <- cleared_by_loops, Hr, Hc. reflexivity.
Qed.

Lemma clear_rows_run (l : list Z) w g0 :
  (∀ r, r ∈ l → 0 ≤ r < 8) → wf_grid g0 = true →
  ∃ g', for_each l (λ r, for_each (seqZ 0 COLS) (λ c, grid_write r c Zero))
          (set_grid g0 w) = (Ok tt, set_grid g' w) ∧
        updated g0 g'
          (λ i j, existsb (λ r, existsb (λ c, (i =? r) && (j =? c)) (seqZ 0 COLS)) l)
          Zero.
Proof.
  intros Hl Hg0.
  apply (for_each_updated l _
           (λ r i j, existsb (λ c, (i =? r) && (j =? c)) (seqZ 0 COLS)) Zero w);
    [|exact Hg0].
  intros r g1 Hr Hg1.
  apply (for_each_updated (seqZ 0 COLS) _ (λ c i j, (i =? r) && (j =? c)) Zero w);
    [|exact Hg1].
  intros c g2 Hc Hg2. apply elem_of_seqZ in Hc. unfold COLS in Hc.
  apply grid_write_updated; [exact Hg2 | by apply Hl | lia].
Qed.

Lemma clear_cols_run (l : list Z) w g0 :
  (∀ c, c ∈ l → 0 ≤ c < 8) → wf_grid g0 = true →
  ∃ g', for_each l (λ c, for_each (seqZ 0 ROWS) (λ r, grid_write r c Zero))
          (set_grid g0 w) = (Ok tt, set_grid g' w) ∧
        updated g0 g'
          (λ i j, existsb (λ c, existsb (λ r, (i =? r) && (j =? c)) (seqZ 0 ROWS)) l)
          Zero.
Proof.
  intros Hl Hg0.
  apply (for_each_updated l _
           (λ c i j, existsb (λ r, (i =? r) && (j =? c)) (seqZ 0 ROWS)) Zero w);
    [|exact Hg0].
  intros c g1 Hc Hg1.
  apply (for_each_updated (seqZ 0 ROWS) _ (λ r i j, (i =? r) && (j =? c)) Zero w);
    [|exact Hg1].
  intros r g2 Hr Hg2. apply elem_of_seqZ in Hr. unfold ROWS in Hr.
  apply grid_write_updated; [exact Hg2 | lia |].
  specialize (Hl c Hc). lia.
Qed.

(** On an 8x8 grid [clearLines] returns: it reports the full rows and
    columns of the grid it was called on, empties exactly their cells, and
    scores when there are any. *)
Lemma clearLines_run w :
  wf_grid (grid w) = true →
  ∃ g', updated (grid w) g' (cleared (grid w)) Zero ∧
    clearLines w =
      (Ok (mkLines (Z.of_nat (length (full_rows (grid w))) +
                    Z.of_nat (length (full_cols (grid w))))
                   (full_rows (grid w)) (full_cols (grid w))),
       if Z.of_nat (length (full_rows (grid w))) +
          Z.of_nat (length (full_cols (grid w))) =? 0
       then w else
         scored (Z.of_nat (length (full_rows (grid w))) +
                 Z.of_nat (length (full_cols (grid w)))) g' w).
Proof.
  intros Hg. unfold clearLines.
  rewrite (bind_run _ _ _ _ _ (detect_rows w Hg)).
  rewrite (bind_run _ _ _ _ _ (detect_cols w Hg)).
  destruct (Z.eqb_spec (Z.of_nat (length (full_rows (grid w))) +
                        Z.of_nat (length (full_cols (grid w)))) 0) as [Hz|Hnz].
  - assert (Hr : full_rows (grid w) = []) by (apply length_zero_iff_nil; lia).
    assert (Hc : full_cols (grid w) = []) by (apply length_zero_iff_nil; lia).
    exists (grid w). split.
    + split; [exact Hg|]. intros i j.
      by rewrite (no_full_none_cleared _ i j Hr Hc).
    + rewrite Hr, Hc. reflexivity.
  - destruct (clear_rows_run (full_rows (grid w)) w (grid w)) as (g1 & E1 & U1);
      [intros r Hr; by apply elem_of_full_rows in Hr as [? _] | exact Hg |].
    destruct (clear_cols_run (full_cols (grid w)) w g1) as (g2 & E2 & U2);
      [intros c Hc; by apply elem_of_full_cols in Hc as [? _] | exact (proj1 U1) |].
    rewrite set_grid_id in E1.
    exists g2. split.
    + eapply updated_ext; [|exact (updated_trans _ _ _ _ _ _ U1 U2)].
      intros i j. apply cleared_by_loops.
    + rewrite (bind_run _ _ _ _ _ E1), (bind_run _ _ _ _ _ E2).
      unfold bind, gets, modify, ret, scored. simpl.
      destruct (streak w >? 0); [reflexivity|].
      rewrite Z.add_0_r. reflexivity.
Qed.

(* ------------------------------------------------------------------ *)
(** ** Double-precision numbers *)

Lemma pow2_pos e : (0 < pow2 e)%Q.
Proof. apply Qpower_0_lt. reflexivity. Qed.

Lemma pow2_add a b : (pow2 (a + b) == pow2 a * pow2 b)%Q.
Proof. apply Qpower_plus. discriminate. Qed.

Lemma pow2_le a b : a ≤ b → (pow2 a <= pow2 b)%Q.
Proof. intros H. apply Qpower_le_compat_l; [exact H | discriminate]. Qed.

Lemma pow2_lt a b : a < b → (pow2 a < pow2 b)%Q.
Proof. intros H. apply Qpower_lt_compat_l; [exact H | reflexivity]. Qed.

Lemma pow2_inject e : 0 ≤ e → (pow2 e == inject_Z (2 ^ e))%Q.
Proof. intros H. symmetry. apply (Zpower_Qpower 2 e H). Qed.

Lemma pow2_opp e : (pow2 (- e) == / pow2 e)%Q.
Proof. apply Qpower_opp. Qed.

Lemma ilog2_spec x :
  (0 < x)%Q → (pow2 (ilog2 x) <= x)%Q ∧ (x < pow2 (ilog2 x + 1))%Q.
Proof.
  intros Hx. unfold ilog2. destruct (Qle_bool 1 x) eqn:E.
  - apply Qle_bool_iff in E.
    assert (Hf : 1 ≤ Qfloor x).
    { change 1 with (Qfloor 1). apply Qfloor_resp_le. exact E. }
    destruct (Z.log2_spec (Qfloor x) ltac:(lia)) as [Hlo Hhi].
    pose proof (Z.log2_nonneg (Qfloor x)) as Hnn.
    split.
    + rewrite pow2_inject by exact Hnn.
      eapply Qle_trans; [|apply Qfloor_le]. rewrite <- Zle_Qle. exact Hlo.
    + rewrite pow2_inject by lia.
      eapply Qlt_le_trans; [apply Qlt_floor|]. rewrite <- Zle_Qle.
      change (Z.succ (Z.log2 (Qfloor x))) with (Z.log2 (Qfloor x) + 1) in Hhi. lia.
  - assert (Hlt : (x < 1)%Q).
    { apply Qnot_le_lt. intros H. apply Qle_bool_iff in H. congruence. }
    assert (Hinv : (1 < / x)%Q).
    { apply Qlt_shift_inv_l; [exact Hx|]. rewrite Qmult_1_l. exact Hlt. }
    set (m := Qceiling (/ x)).
    assert (Hm : 1 < m).
    { apply Z.lt_le_trans with (Qceiling 1 + 1).
      - reflexivity.
      - subst m. assert (H : ¬ (Qceiling (/ x) ≤ 1)); [|change (Qceiling 1) with 1; lia].
        intros H. apply (Qlt_irrefl 1).
        eapply Qlt_le_trans; [exact Hinv|].
        eapply Qle_trans; [apply Qle_ceiling|].
        change 1%Q with (inject_Z 1). rewrite <- Zle_Qle. exact H. }
    destruct (Z.log2_up_spec m Hm) as [Hlo Hhi].
    pose proof (Z.log2_up_nonneg m) as Hnn.
    assert (Hk : 1 ≤ Z.log2_up m).
    { destruct (Z.eq_dec (Z.log2_up m) 0) as [H0|]; [|lia].
      rewrite H0 in Hhi. simpl in Hhi. lia. }
    split.
    + rewrite pow2_opp. apply Qle_shift_inv_r; [apply pow2_pos|].
      rewrite pow2_inject by exact Hnn.
      assert (H1 : (/ x <= inject_Z (2 ^ Z.log2_up m))%Q).
      { eapply Qle_trans; [apply Qle_ceiling|]. rewrite <- Zle_Qle. exact Hhi. }
      apply Qle_trans with (x * / x)%Q.
      * rewrite Qmult_inv_r; [apply Qle_refl|]. intros H; rewrite H in Hx; discriminate.
      * apply Qmult_le_l; [exact Hx | exact H1].
    + replace (- Z.log2_up m + 1) with (- (Z.log2_up m - 1)) by lia.
      rewrite pow2_opp. apply Qlt_shift_inv_l; [apply pow2_pos|].
      rewrite pow2_inject by lia.
      replace (Z.pred (Z.log2_up m)) with (Z.log2_up m - 1) in Hlo by lia.
      assert (H1 : (inject_Z (2 ^ (Z.log2_up m - 1)) < / x)%Q).
      { eapply Qle_lt_trans; [|apply Qceiling_lt]. fold m. rewrite <- Zle_Qle. lia. }
      apply Qlt_le_trans with (x * / x)%Q.
      * apply Qmult_lt_l; [exact Hx | exact H1].
      * rewrite Qmult_inv_r; [apply Qle_refl|]. intros H; rewrite H in Hx; discriminate.
Qed.

Lemma nearest_even_near y :
  (y - (1 # 2) <= inject_Z (nearest_even y))%Q ∧
  (inject_Z (nearest_even y) <= y + (1 # 2))%Q.
Proof.
  unfold nearest_even. pose proof (Qfloor_le y) as Hlo.
  pose proof (Qlt_floor y) as Hhi. rewrite inject_Z_plus in Hhi.
  change (inject_Z 1) with 1%Q in Hhi.
  destruct (Qcompare_spec (y - inject_Z (Qfloor y)) (1 # 2)) as [E|E|E].
  - destruct (Z.even _); rewrite ?inject_Z_plus; change (inject_Z 1) with 1%Q;
      split; lra.
  - split; lra.
  - rewrite inject_Z_plus. change (inject_Z 1) with 1%Q. split; lra.
Qed.

Lemma nearest_even_le y n : (y <= inject_Z n)%Q → nearest_even y ≤ n.
Proof.
  intros H. pose proof (Qfloor_resp_le _ _ H) as Hf. rewrite Qfloor_Z in Hf.
  unfold nearest_even.
  destruct (Z.eq_dec (Qfloor y) n) as [En|Hn].
  - pose proof (Qfloor_le y) as Hlo. rewrite En in *.
    destruct (Qcompare_spec (y - inject_Z n) (1 # 2)) as [E|E|E]; [lra | lia | lra].
  - destruct (_ ?= _)%Q; [destruct (Z.even _)| |]; lia.
Qed.

Lemma nearest_even_ge y n : (inject_Z n <= y)%Q → n ≤ nearest_even y.
Proof.
  intros H. pose proof (Qfloor_resp_le _ _ H) as Hf. rewrite Qfloor_Z in Hf.
  unfold nearest_even.
  destruct (_ ?= _)%Q; [destruct (Z.even _)| |]; lia.
Qed.

Lemma pow2_nonzero e : ¬ (pow2 e == 0)%Q.
Proof. intros H. pose proof (pow2_pos e) as Hp. rewrite H in Hp. discriminate. Qed.

Lemma div_pow2 x e : (x / pow2 e * pow2 e == x)%Q.
Proof. field. apply pow2_nonzero. Qed.

Lemma double_eq x :
  (double x ==
   inject_Z (nearest_even (x / pow2 (ulp_exponent x))) * pow2 (ulp_exponent x))%Q.
Proof. unfold double. apply Qred_correct. Qed.

Lemma double_below_eq x :
  (double_below x ==
   inject_Z (Qfloor (x / pow2 (ulp_exponent x))) * pow2 (ulp_exponent x))%Q.
Proof. unfold double_below. apply Qred_correct. Qed.

Lemma pow2_half e : (pow2 e * (1 # 2) == pow2 (e - 1))%Q.
Proof.
  replace (e - 1) with (e + -1) by lia. rewrite pow2_add. reflexivity.
Qed.

(** The result is within half a unit in the last place. *)
Lemma double_near x :
  (x - pow2 (ulp_exponent x - 1) <= double x)%Q ∧
  (double x <= x + pow2 (ulp_exponent x - 1))%Q.
Proof.
  rewrite double_eq, <- pow2_half.
  set (p := pow2 (ulp_exponent x)).
  pose proof (pow2_pos (ulp_exponent x)) as Hp. fold p in Hp.
  pose proof (div_pow2 x (ulp_exponent x)) as Hy. fold p in Hy.
  destruct (nearest_even_near (x / p)) as [Hlo Hhi].
  set (n := inject_Z (nearest_even (x / p))) in *.
  set (y := (x / p)%Q) in *. clearbody n y p.
  split; nra.
Qed.

Lemma double_nonneg x : (0 <= x)%Q → (0 <= double x)%Q.
Proof.
  intros H. rewrite double_eq.
  apply Qmult_le_0_compat; [|apply Qlt_le_weak, pow2_pos].
  change 0%Q with (inject_Z 0). rewrite <- Zle_Qle. apply nearest_even_ge.
  apply Qle_shift_div_l; [apply pow2_pos|].
  change (inject_Z 0) with 0%Q. rewrite Qmult_0_l. exact H.
Qed.

Lemma double_nonpos x : (x <= 0)%Q → (double x <= 0)%Q.
Proof.
  intros H. rewrite double_eq.
  assert (Hn : nearest_even (x / pow2 (ulp_exponent x)) ≤ 0).
  { apply nearest_even_le. apply Qle_shift_div_r; [apply pow2_pos|].
    change (inject_Z 0) with 0%Q. rewrite Qmult_0_l. exact H. }
  rewrite Zle_Qle in Hn. change (inject_Z 0) with 0%Q in Hn.
  pose proof (pow2_pos (ulp_exponent x)) as Hp.
  set (n := inject_Z _) in *. set (p := pow2 _) in *. clearbody n p. nra.
Qed.

Lemma Qabs_pos_eq x : (0 < x)%Q → Qabs x = x.
Proof.
  destruct x as [[|p|p] d]; unfold Qlt; simpl; intros H; (reflexivity || lia).
Qed.

(** Half a unit in the last place of [x > 0] is at most [x * 2^-53], or
    [2^-1075] in the subnormal range. *)
Lemma half_ulp_bound x :
  (0 < x)%Q →
  (pow2 (ulp_exponent x - 1) <= x * pow2 (-53) + pow2 (-1075))%Q.
Proof.
  intros Hx. unfold ulp_exponent. rewrite (Qabs_pos_eq x Hx).
  destruct (ilog2_spec x Hx) as [Hlo _].
  pose proof (pow2_pos (-53)) as H53. pose proof (pow2_pos (-1075)) as H1075.
  pose proof (pow2_pos (ilog2 x)) as He.
  destruct (Z.max_spec (ilog2 x) (-1022)) as [[_ ->] | [_ ->]].
  - change (-1022 - 52 - 1) with (-1075). nra.
  - replace (ilog2 x - 52 - 1) with (ilog2 x + -53) by lia. rewrite pow2_add.
    set (a := pow2 (ilog2 x)) in *. set (c := pow2 (-53)) in *.
    set (c' := pow2 (-1075)) in *. clearbody a c c'. nra.
Qed.

Lemma double_bounds x :
  (0 <= x)%Q →
  (x - (x * pow2 (-53) + pow2 (-1075)) <= double x)%Q ∧
  (double x <= x + (x * pow2 (-53) + pow2 (-1075)))%Q.
Proof.
  intros Hx. destruct (Qlt_le_dec 0 x) as [Hpos|H0].
  - pose proof (half_ulp_bound x Hpos). destruct (double_near x). split; lra.
  - pose proof (double_nonneg x Hx). pose proof (double_nonpos x H0).
    pose proof (pow2_pos (-53)). pose proof (pow2_pos (-1075)).
    set (c := pow2 (-53)) in *. set (c' := pow2 (-1075)) in *. clearbody c c'.
    split; nra.
Qed.

(** In the normal range the error is relative: at most [x * 2^-53]. *)
Lemma double_rel x :
  (pow2 (-1022) <= x)%Q →
  (x - x * pow2 (-53) <= double x)%Q ∧ (double x <= x + x * pow2 (-53))%Q.
Proof.
  intros Hn. pose proof (pow2_pos (-1022)) as H0.
  assert (Hpos : (0 < x)%Q) by lra.
  destruct (ilog2_spec x Hpos) as [Hlo Hhi].
  assert (He : -1022 < ilog2 x + 1).
  { apply (Qpower_lt_compat_l_inv 2); [|reflexivity].
    fold (pow2 (-1022)). fold (pow2 (ilog2 x + 1)). lra. }
  assert (Hq : ulp_exponent x - 1 = ilog2 x + -53).
  { unfold ulp_exponent. rewrite (Qabs_pos_eq x Hpos). lia. }
  destruct (double_near x) as [H1 H2]. rewrite Hq, pow2_add in H1, H2.
  pose proof (pow2_pos (-53)) as Hc.
  set (a := pow2 (ilog2 x)) in *. set (c := pow2 (-53)) in *.
  set (d := double x) in *. clearbody a c d. split; nra.
Qed.

Lemma rounding_units :
  (0 < pow2 (-53))%Q ∧ (pow2 (-53) <= 1 # 1024)%Q ∧
  (0 < pow2 (-1075))%Q ∧ (pow2 (-1075) <= 1 # 1024)%Q ∧
  (pow2 (-1022) <= 1 # 1024)%Q.
Proof.
  change (1 # 1024)%Q with (pow2 (-10)).
  repeat split; (apply pow2_pos || (apply pow2_le; lia)).
Qed.

#[global] Instance ilog2_wd : Proper (Qeq ==> eq) ilog2.
Proof.
  intros x y E. unfold ilog2.
  assert (Hb : Qle_bool 1 x = Qle_bool 1 y).
  { destruct (Qle_bool 1 x) eqn:Ex, (Qle_bool 1 y) eqn:Ey; try reflexivity.
    - apply Qle_bool_iff in Ex. rewrite E in Ex. apply Qle_bool_iff in Ex. congruence.
    - apply Qle_bool_iff in Ey. rewrite <- E in Ey. apply Qle_bool_iff in Ey. congruence. }
  rewrite Hb. destruct (Qle_bool 1 y).
  - by rewrite (Qfloor_comp _ _ E).
  - assert (E' : (/ x == / y)%Q) by (by rewrite E).
    by rewrite (Qceiling_comp _ _ E').
Qed.

#[global] Instance ulp_exponent_wd : Proper (Qeq ==> eq) ulp_exponent.
Proof.
  intros x y E. unfold ulp_exponent.
  assert (E' : (Qabs x == Qabs y)%Q) by (by rewrite E).
  by rewrite (ilog2_wd _ _ E').
Qed.

Lemma Qfloor_inject_eq y m : (y == inject_Z m)%Q → Qfloor y = m.
Proof. intros E. rewrite (Qfloor_comp _ _ E). apply Qfloor_Z. Qed.

Lemma mul_pow2_div x m e : (x == inject_Z m * pow2 e)%Q → (x / pow2 e == inject_Z m)%Q.
Proof. intros E. rewrite E. field. apply pow2_nonzero. Qed.

(** Rounding down leaves a double as it is. *)
Lemma double_below_fixed x : is_double x → (double_below x == x)%Q.
Proof.
  intros [m E]. rewrite double_below_eq.
  rewrite (Qfloor_inject_eq _ m (mul_pow2_div _ _ _ E)). symmetry. exact E.
Qed.

Lemma nearest_even_inject y m : (y == inject_Z m)%Q → nearest_even y = m.
Proof.
  intros E. apply Z.le_antisymm.
  - apply nearest_even_le. rewrite E. apply Qle_refl.
  - apply nearest_even_ge. rewrite E. apply Qle_refl.
Qed.

(** Rounding to nearest leaves a double as it is. *)
Lemma double_fixed x : is_double x → (double x == x)%Q.
Proof.
  intros [m E]. rewrite double_eq.
  rewrite (nearest_even_inject _ m (mul_pow2_div _ _ _ E)). symmetry. exact E.
Qed.

Lemma ilog2_unique x e : (pow2 e <= x)%Q → (x < pow2 (e + 1))%Q → ilog2 x = e.
Proof.
  intros Hlo Hhi. pose proof (pow2_pos e) as Hp.
  assert (Hx : (0 < x)%Q) by lra.
  destruct (ilog2_spec x Hx) as [H1 H2].
  assert (ilog2 x < e + 1).
  { apply (Qpower_lt_compat_l_inv 2); [|reflexivity].
    fold (pow2 (ilog2 x)). fold (pow2 (e + 1)). lra. }
  assert (e < ilog2 x + 1).
  { apply (Qpower_lt_compat_l_inv 2); [|reflexivity].
    fold (pow2 e). fold (pow2 (ilog2 x + 1)). lra. }
  lia.
Qed.

Lemma ilog2_mono x y : (0 < x)%Q → (x <= y)%Q → ilog2 x ≤ ilog2 y.
Proof.
  intros Hx Hxy. destruct (ilog2_spec x Hx) as [H1 _].
  destruct (ilog2_spec y ltac:(lra)) as [_ H2].
  assert (ilog2 x < ilog2 y + 1); [|lia].
  apply (Qpower_lt_compat_l_inv 2); [|reflexivity].
  fold (pow2 (ilog2 x)). fold (pow2 (ilog2 y + 1)). lra.
Qed.

Lemma ulp_exponent_mono x y : (0 < x)%Q → (x <= y)%Q → ulp_exponent x ≤ ulp_exponent y.
Proof.
  intros Hx Hxy. unfold ulp_exponent.
  rewrite (Qabs_pos_eq x Hx), (Qabs_pos_eq y) by lra.
  pose proof (ilog2_mono x y Hx Hxy). lia.
Qed.

(** A multiple of a unit that is no finer than its own is a double. *)
Lemma multiple_is_double x f q :
  (x == inject_Z f * pow2 q)%Q → ulp_exponent x ≤ q → is_double x.
Proof.
  intros E Hq. exists (f * 2 ^ (q - ulp_exponent x)).
  rewrite inject_Z_mult, <- pow2_inject by lia.
  rewrite <- Qmult_assoc, <- pow2_add.
  replace (q - ulp_exponent x + ulp_exponent x) with q by lia. exact E.
Qed.

Lemma zero_is_double x : (x == 0)%Q → is_double x.
Proof. intros E. exists 0. rewrite E. ring. Qed.

(** What rounding down returns is a double. *)
Lemma double_below_is_double x : (0 <= x)%Q → is_double (double_below x).
Proof.
  intros Hx. pose proof (double_below_eq x) as E.
  set (q := ulp_exponent x) in *. set (f := Qfloor (x / pow2 q)) in *.
  pose proof (pow2_pos q) as Hp.
  assert (Hf : (inject_Z f * pow2 q <= x)%Q).
  { pose proof (Qfloor_le (x / pow2 q)) as H. fold f in H.
    pose proof (div_pow2 x q) as Hy.
    set (y := (x / pow2 q)%Q) in *. set (p := pow2 q) in *.
    set (F := inject_Z f) in *. clearbody y p F. nra. }
  assert (Hf0 : 0 ≤ f).
  { subst f. change 0 with (Qfloor 0). apply Qfloor_resp_le.
    apply Qle_shift_div_l; [exact Hp|]. rewrite Qmult_0_l. exact Hx. }
  destruct (Z.eq_dec f 0) as [H0|Hne].
  - apply zero_is_double. rewrite E, H0. ring.
  - assert (Hpos : (0 < double_below x)%Q).
    { rewrite E. apply Qmult_lt_0_compat; [|exact Hp].
      change 0%Q with (inject_Z 0). rewrite <- Zlt_Qlt. lia. }
    apply (multiple_is_double _ f q E).
    apply ulp_exponent_mono; [exact Hpos|]. rewrite E. exact Hf.
Qed.


Lemma ilog2_pow2 e : ilog2 (pow2 e) = e.
Proof.
  apply ilog2_unique; [apply Qle_refl | apply pow2_lt; lia].
Qed.

(** What rounding to nearest returns is a double. *)
Lemma double_is_double x : (0 <= x)%Q → is_double (double x).
Proof.
  intros Hx. destruct (Qlt_le_dec 0 x) as [Hpos|H0].
  2:{ apply zero_is_double. apply Qle_antisym;
        [by apply double_nonpos | by apply double_nonneg]. }
  pose proof (double_eq x) as E. pose proof (double_nonneg x Hx) as Hr0.
  set (e := Z.max (ilog2 x) (-1022)).
  assert (Hq : ulp_exponent x = e - 52).
  { unfold ulp_exponent. by rewrite (Qabs_pos_eq x Hpos). }
  rewrite Hq in E. set (n := nearest_even (x / pow2 (e - 52))) in *.
  pose proof (pow2_pos (e - 52)) as Hp.
  destruct (ilog2_spec x Hpos) as [_ Hhi].
  assert (Hxe : (x < pow2 (e + 1))%Q).
  { eapply Qlt_le_trans; [exact Hhi|]. apply pow2_le. lia. }
  assert (Hsplit : (pow2 (e + 1) == inject_Z (2 ^ 53) * pow2 (e - 52))%Q).
  { rewrite <- pow2_inject, <- pow2_add by lia. by replace (53 + (e - 52)) with (e + 1) by lia. }
  assert (Hn : n ≤ 2 ^ 53).
  { apply nearest_even_le. apply Qle_shift_div_r; [exact Hp|].
    rewrite <- Hsplit. by apply Qlt_le_weak. }
  assert (Hn0 : 0 ≤ n).
  { apply nearest_even_ge. apply Qle_shift_div_l; [exact Hp|].
    change (inject_Z 0) with 0%Q. rewrite Qmult_0_l. exact Hx. }
  destruct (Z.eq_dec n 0) as [Hz|Hnz].
  { apply zero_is_double. rewrite E, Hz. ring. }
  assert (Hrpos : (0 < double x)%Q).
  { rewrite E. apply Qmult_lt_0_compat; [|exact Hp].
    change 0%Q with (inject_Z 0). rewrite <- Zlt_Qlt. lia. }
  assert (Hle : (double x <= pow2 (e + 1))%Q).
  { rewrite E, Hsplit. apply Qmult_le_compat_r; [|by apply Qlt_le_weak].
    by rewrite <- Zle_Qle. }
  destruct (Z.eq_dec n (2 ^ 53)) as [Htop|Hlow].
  - assert (Er : (double x == inject_Z 1 * pow2 (e + 1))%Q).
    { rewrite E, Htop, Hsplit. change (inject_Z 1) with 1%Q. ring. }
    apply (multiple_is_double _ 1 (e + 1) Er).
    change (inject_Z 1) with 1%Q in Er. rewrite Qmult_1_l in Er.
    rewrite (ulp_exponent_wd _ _ Er). unfold ulp_exponent.
    rewrite (Qabs_pos_eq _ (pow2_pos (e + 1))), ilog2_pow2. lia.
  - apply (multiple_is_double _ n (e - 52) E).
    unfold ulp_exponent. rewrite (Qabs_pos_eq _ Hrpos).
    assert (Hlt : (double x < pow2 (e + 1))%Q).
    { rewrite E, Hsplit. apply Qmult_lt_compat_r; [exact Hp|].
      rewrite <- Zlt_Qlt. lia. }
    destruct (ilog2_spec _ Hrpos) as [H1 _].
    assert (ilog2 (double x) < e + 1).
    { apply (Qpower_lt_compat_l_inv 2); [|reflexivity].
      fold (pow2 (ilog2 (double x))). fold (pow2 (e + 1)). lra. }
    lia.
Qed.


(** [double] and the standard library's binary64 agree on the products of
    [randomShape] at the edges of the rounding, and on a tie in the
    subnormal range. *)
Example double_agrees_with_binary64 :
  binary64_value (SpecFloat.SFdiv 53 1024 (binary64 8 0) (binary64 100 0))
    = double (8 # 100) ∧
  binary64_value
    (SpecFloat.SFmul 53 1024 (binary64 3 0)
       (SpecFloat.SFdiv 53 1024 (binary64 8 0) (binary64 100 0)))
    = largeChance 3 ∧
  binary64_value
    (SpecFloat.SFmul 53 1024 (binary64 13 0)
       (SpecFloat.SFdiv 53 1024 (binary64 8 0) (binary64 100 0)))
    = largeChance 13 ∧
  binary64_value
    (SpecFloat.SFmul 53 1024 (binary64 1566469435607129 (-52)) (binary64 23 0))
    = double ((1566469435607129 # 4503599627370496) * 23) ∧
  binary64_value
    (SpecFloat.SFmul 53 1024 (binary64 3 (-1075)) (binary64 1 0))
    = double (3 # 2 ^ 1075) ∧
  binary64_value (binary64 1 (-1075)) = double (1 # 2 ^ 1075).
Proof.
  do 5 (split; [vm_compute; reflexivity|]). vm_compute. reflexivity.
Qed.

(** The same on samples: 96 draws times each pool length and the colour
    count, and the products [k * 0.08] of 200 tiers. *)
Example double_agrees_on_samples :
  forallb (λ i,
    forallb (λ n,
      Qeq_bool
        (binary64_value
           (SpecFloat.SFmul 53 1024
              (binary64_of (random_double (Z.of_nat i # 97))) (binary64 n 0)))
        (double (random_double (Z.of_nat i # 97) * inject_Z n)))
      [5; 13; 23])
    (seq 0 97) = true ∧
  forallb (λ k,
    Qeq_bool
      (binary64_value
         (SpecFloat.SFmul 53 1024 (binary64 k 0) (binary64_of (double (8 # 100)))))
      (largeChance k))
    (seqZ 0 200) = true.
Proof. split; vm_compute; reflexivity. Qed.

(* ------------------------------------------------------------------ *)
(** ** Block generation *)

Lemma frac_range q : (0 <= frac q)%Q ∧ (frac q < 1)%Q.
Proof.
  unfold frac. pose proof (Qfloor_le q) as Hlo. pose proof (Qlt_floor q) as Hhi.
  rewrite inject_Z_plus in Hhi. change (inject_Z 1) with 1%Q in Hhi. split; lra.
Qed.

Lemma double_below_unit y :
  (0 <= y)%Q → (y < 1)%Q →
  (0 <= double_below y)%Q ∧ (double_below y <= 1 - pow2 (-53))%Q.
Proof.
  intros Hlo Hhi. rewrite double_below_eq.
  set (q := ulp_exponent y). pose proof (pow2_pos q) as Hp.
  pose proof (div_pow2 y q) as Hy.
  pose proof (Qfloor_le (y / pow2 q)) as Hf.
  assert (Hf0 : (0 <= inject_Z (Qfloor (y / pow2 q)))%Q).
  { change 0%Q with (inject_Z 0). rewrite <- Zle_Qle.
    change 0 with (Qfloor 0). apply Qfloor_resp_le.
    apply Qle_shift_div_l; [exact Hp|]. rewrite Qmult_0_l. exact Hlo. }
  assert (Hle : (inject_Z (Qfloor (y / pow2 q)) * pow2 q <= y)%Q).
  { set (f := inject_Z _) in *. set (z := (y / pow2 q)%Q) in *.
    set (p := pow2 q) in *. clearbody f z p. nra. }
  split.
  { apply Qmult_le_0_compat; [exact Hf0 | lra]. }
  destruct (Qlt_le_dec y (1 # 2)) as [Hsmall|Hbig].
  - assert (Hc : (pow2 (-53) <= 1 # 2)%Q) by (apply (pow2_le (-53) (-1)); lia).
    lra.
  - assert (Hpos : (0 < y)%Q) by lra.
    destruct (ilog2_spec y Hpos) as [He1 He2].
    assert (He : ilog2 y = -1).
    { assert (ilog2 y < 0).
      { apply (Qpower_lt_compat_l_inv 2); [|reflexivity].
        change (2 ^ 0)%Q with 1%Q. fold (pow2 (ilog2 y)). lra. }
      assert (-1 < ilog2 y + 1).
      { apply (Qpower_lt_compat_l_inv 2); [|reflexivity].
        change (2 ^ (-1))%Q with (1 # 2)%Q. fold (pow2 (ilog2 y + 1)). lra. }
      lia. }
    assert (Hq : q = -53).
    { subst q. unfold ulp_exponent. rewrite (Qabs_pos_eq y Hpos), He. reflexivity. }
    rewrite Hq in *.
    assert (Hlt : Qfloor (y / pow2 (-53)) < 2 ^ 53).
    { rewrite Zlt_Qlt. eapply Qle_lt_trans; [exact Hf|].
      apply Qlt_shift_div_r; [exact Hp|].
      rewrite <- pow2_inject by lia. rewrite <- pow2_add. simpl (53 + -53).
      change (pow2 0) with 1%Q. exact Hhi. }
    assert (Hle' : (inject_Z (Qfloor (y / pow2 (-53))) <= inject_Z (2 ^ 53 + -1))%Q).
    { rewrite <- Zle_Qle. lia. }
    rewrite inject_Z_plus in Hle'. rewrite <- pow2_inject in Hle' by lia.
    assert (Hone : (pow2 53 * pow2 (-53) == 1)%Q) by (rewrite <- pow2_add; reflexivity).
    set (f := inject_Z _) in *. set (c := pow2 (-53)) in *. set (d := pow2 53) in *.
    clearbody f c d. change (inject_Z (-1)) with (-1)%Q in Hle'. nra.
Qed.

Lemma random_double_range q :
  (0 <= random_double q)%Q ∧ (random_double q <= 1 - pow2 (-53))%Q.
Proof. destruct (frac_range q). by apply double_below_unit. Qed.

Lemma Qfloor_unit x : (0 <= x)%Q → (x < 1)%Q → Qfloor x = 0.
Proof.
  intros Hlo Hhi. apply Z.le_antisymm.
  - assert (Qfloor x < 1); [|lia]. rewrite Zlt_Qlt.
    eapply Qle_lt_trans; [apply Qfloor_le | exact Hhi].
  - change 0 with (Qfloor 0). by apply Qfloor_resp_le.
Qed.

(** The random numbers are the doubles of [0, 1): every number drawn is
    one, and a source that yields one draws it. *)
Lemma random_double_is_double q : is_double (random_double q).
Proof. apply double_below_is_double. apply frac_range. Qed.

Lemma random_double_onto d :
  (0 <= d)%Q → (d < 1)%Q → is_double d → (random_double d == d)%Q.
Proof.
  intros Hlo Hhi Hd. unfold random_double.
  assert (E : (frac d == d)%Q).
  { unfold frac. rewrite (Qfloor_unit d Hlo Hhi). ring. }
  rewrite double_below_eq. rewrite (ulp_exponent_wd _ _ E).
  destruct Hd as [m Hm].
  assert (E' : (frac d / pow2 (ulp_exponent d) == inject_Z m)%Q).
  { rewrite E. by apply mul_pow2_div. }
  rewrite (Qfloor_inject_eq _ m E'). symmetry. exact Hm.
Qed.

Lemma scale_range u n :
  (0 <= u)%Q → (u <= 1 - pow2 (-53))%Q → (0 < n)%nat → 0 ≤ scale u n < Z.of_nat n.
Proof.
  intros Hlo Hhi Hn. unfold scale.
  set (N := inject_Z (Z.of_nat n)).
  assert (HN : (1 <= N)%Q).
  { subst N. change 1%Q with (inject_Z 1). rewrite <- Zle_Qle. lia. }
  assert (Hx : (0 <= u * N)%Q) by (apply Qmult_le_0_compat; lra).
  destruct (double_bounds (u * N) Hx) as [_ Hd].
  pose proof (double_nonneg _ Hx) as Hd0.
  assert (Hc : (pow2 (-1075) < pow2 (-53) * pow2 (-53))%Q).
  { rewrite <- pow2_add. apply pow2_lt. lia. }
  pose proof (pow2_pos (-53)) as H53. pose proof (pow2_pos (-1075)) as H1075.
  assert (Hlt : (double (u * N) < N)%Q).
  { set (d := double _) in *. set (c := pow2 (-53)) in *.
    set (c' := pow2 (-1075)) in *. clearbody d c c' N.
    assert (H1 : (u * N <= (1 - c) * N)%Q) by nra.
    assert (H2 : (u * N * c <= (1 - c) * N * c)%Q) by nra.
    nra. }
  split.
  - change 0 with (Qfloor 0). apply Qfloor_resp_le. exact Hd0.
  - rewrite Zlt_Qlt. eapply Qle_lt_trans; [apply Qfloor_le | exact Hlt].
Qed.

(** The index is the floor of the rounded product.  The draw
    1566469435607129 * 2^-52 times 23 is below 8 and rounds to 8: the shape
    is [SHAPES[8]], where the exact product would give [SHAPES[7]]. *)
Example rounded_index :
  random_double (1566469435607129 # 4503599627370496)
    = 1566469435607129 # 4503599627370496 ∧
  Qfloor ((1566469435607129 # 4503599627370496) * 23) = 7 ∧
  scale (1566469435607129 # 4503599627370496) 23 = 8 ∧
  pick (seqZ 0 (Z.of_nat (length SHAPES)))
       (1566469435607129 # 4503599627370496) = lookupZ SHAPES 8.
Proof.
  do 3 (split; [vm_compute; reflexivity|]). vm_compute. reflexivity.
Qed.

Lemma pick_defined pool q :
  pool ≠ [] → Forall (λ i, 0 ≤ i < 23) pool →
  ∃ s, pick pool (random_double q) = Some s ∧ s ∈ SHAPES.
Proof.
  intros Hne Hall. unfold pick.
  destruct (random_double_range q) as [Hlo Hhi].
  assert (Hlen : (0 < length pool)%nat) by (destruct pool; [done | simpl; lia]).
  pose proof (scale_range (random_double q) (length pool) Hlo Hhi Hlen) as Hk.
  destruct (lookupZ_is_Some pool _ Hk) as [i Hi]. rewrite Hi. simpl.
  rewrite Forall_forall in Hall.
  specialize (Hall i (lookupZ_elem_of _ _ _ Hi)).
  destruct (lookupZ_is_Some SHAPES i) as [s Hs]; [simpl; lia|].
  exists s. split; [exact Hs | eapply lookupZ_elem_of, Hs].
Qed.

Lemma large_indices_in_catalog : Forall (λ i, 0 ≤ i < 23) LARGE_SHAPE_INDICES.
Proof. repeat (constructor; [lia|]). constructor. Qed.

Lemma all_indices_in_catalog :
  Forall (λ i, 0 ≤ i < 23) (seqZ 0 (Z.of_nat (length SHAPES))).
Proof. apply Forall_forall. intros i Hi. apply elem_of_seqZ in Hi. simpl in Hi. lia. Qed.

Lemma scale_COLORS_defined q :
  is_Some (lookupZ COLORS (scale (random_double q) (length COLORS))).
Proof.
  destruct (random_double_range q) as [Hlo Hhi]. apply lookupZ_is_Some.
  apply scale_range; [exact Hlo | exact Hhi | simpl; lia].
Qed.

(** [randomShape] always returns; it returns a catalog shape and touches
    nothing but the random source. *)
Lemma randomShape_run w :
  ∃ b n, randomShape w = (Ok b, set_drawn n w) ∧ shape b ∈ SHAPES.
Proof.
  unfold randomShape, bind at 1, gets.
  set (lc := largeChance (level (score w))).
  destruct (Qltb 0 lc).
  - unfold bind at 2. unfold bind at 1. unfold Math_random at 1, ret at 1.
    set (pool := if Qltb _ lc then _ else _).
    assert (Hpool : pool ≠ [] ∧ Forall (λ i, 0 ≤ i < 23) pool).
    { subst pool. destruct (Qltb _ lc);
        (split; [discriminate |
                 apply large_indices_in_catalog || apply all_indices_in_catalog]). }
    destruct Hpool as [Hne Hall].
    unfold bind at 1. unfold Math_random at 1.
    destruct (pick_defined pool (draws (set_drawn (S (drawn w)) w)
                                   (drawn (set_drawn (S (drawn w)) w))) Hne Hall)
      as (s & Hs & Hin).
    unfold pick in Hs. rewrite Hs.
    eexists _, _. split; [reflexivity | exact Hin].
  - unfold bind at 1, ret at 1.
    unfold bind at 1. unfold Math_random at 1.
    destruct (pick_defined (seqZ 0 (Z.of_nat (length SHAPES)))
                (draws w (drawn w)) ltac:(discriminate) all_indices_in_catalog)
      as (s & Hs & Hin).
    unfold pick in Hs. rewrite Hs.
    eexists _, _. split; [reflexivity | exact Hin].
Qed.

Lemma refill_run fuel w :
  3 - Z.of_nat (length (currentBlocks w)) ≤ Z.of_nat fuel →
  ∃ news n,
    refill fuel w =
      (Ok tt, set_drawn n (set_currentBlocks (currentBlocks w ++ news) w)) ∧
    Z.of_nat (length news) = Z.max 0 (3 - Z.of_nat (length (currentBlocks w))) ∧
    Forall (λ b, shape b ∈ SHAPES) news.
Proof.
  revert w. induction fuel as [|fuel IH]; intros w Hfuel.
  - exists [], (drawn w). simpl. unfold bind, gets.
    destruct (Z.ltb_spec (Z.of_nat (length (currentBlocks w))) 3); [lia|].
    rewrite app_nil_r. split; [by destruct w|]. split; [lia | constructor].
  - simpl. unfold bind at 1, gets.
    destruct (Z.ltb_spec (Z.of_nat (length (currentBlocks w))) 3) as [Hlt|Hge].
    + destruct (randomShape_run w) as (b & n & Eb & Hb).
      rewrite (bind_run _ _ _ _ _ Eb). unfold bind at 1, modify at 1.
      destruct (IH (set_currentBlocks (currentBlocks (set_drawn n w) ++ [b])
                      (set_drawn n w))) as (news & n' & E & Hlen & Hall).
      { simpl. rewrite length_app. simpl. lia. }
      exists (b :: news), n'. split; [|split].
      * rewrite E. simpl. rewrite <- app_assoc. reflexivity.
      * simpl in Hlen. rewrite length_app in Hlen. simpl in *. lia.
      * by constructor.
    + exists [], (drawn w). rewrite app_nil_r.
      split; [by destruct w|]. split; [simpl; lia | constructor].
Qed.

(* ------------------------------------------------------------------ *)
(** ** The turn controller *)

Lemma noClearThisMove_run w : noClearThisMove w = (Ok tt, noClear w).
Proof. reflexivity. Qed.

Lemma tryPlaceBlock_accept_inv blockIndex row col w w' :
  tryPlaceBlock blockIndex row col w = (Ok true, w') →
  ∃ b g1 lc w4 news n any,
    gameOver w = false ∧ 0 ≤ blockIndex ∧
    lookupZ (currentBlocks w) blockIndex = Some b ∧
    canPlace (shape b) (Some (color b)) row col w = (Ok true, w) ∧
    placeBlock (shape b) (color b) row col w = (Ok tt, set_grid g1 w) ∧
    clearLines (set_score (score w + 5) (set_grid g1 w))
      = (Ok lc, if count lc =? 0 then set_score (score w + 5) (set_grid g1 w) else w4) ∧
    linesOfMove blockIndex row col w = Ok lc ∧
    ((count lc = 0 ∧ w4 = noClear (set_score (score w + 5) (set_grid g1 w))) ∨
     (1 ≤ count lc ∧
      ∃ g2, w4 = scored (count lc) g2 (set_score (score w + 5) (set_grid g1 w)))) ∧
    Forall (λ b, shape b ∈ SHAPES) news ∧
    Z.of_nat (length news) =
      Z.max 0 (3 - Z.of_nat (length (delete (Z.to_nat blockIndex) (currentBlocks w)))) ∧
    canPlaceAny (currentBlocks (finish blockIndex w w4 news n true))
                (finish blockIndex w w4 news n true)
      = (Ok any, finish blockIndex w w4 news n true) ∧
    w' = finish blockIndex w w4 news n any.
Proof.
  unfold tryPlaceBlock. unfold bind at 1 2, gets.
  destruct (gameOver w) eqn:Hover; [discriminate|]. cbn [orb].
  destruct (Z.ltb_spec blockIndex 0) as [|Hidx]; [discriminate|]. cbn [orb].
  destruct (Z.geb_spec blockIndex (Z.of_nat (length (currentBlocks w))));
    [discriminate|].
  intros E.
  apply bind_Ok in E as (b & w0 & Eb & E).
  destruct (lookupZ (currentBlocks w) blockIndex) as [b'|] eqn:Hb; [|discriminate].
  injection Eb as <- <-.
  apply bind_Ok in E as (ok & w1 & Ecan & E).
  pose proof (run_eq_unchanged _ _ _ _ (reads_canPlace _ _ _ _) Ecan) as ->.
  destruct ok; [|discriminate]. cbn [negb] in E.
  apply bind_Ok in E as ([] & w2 & Eplace & E).
  pose proof (run_eq_grid_only _ _ _ _ (wgo_placeBlock _ _ _ _) Eplace) as Hw2.
  apply bind_Ok in E as ([] & w3 & Escore & E).
  injection Escore as <-.
  apply bind_Ok in E as (lc & w3 & Eclear & E).
  apply bind_Ok in E as ([] & w4 & Eno & E).
  apply bind_Ok in E as ([] & w5 & Edel & E).
  injection Edel as <-.
  apply bind_Ok in E as ([] & w6 & Erefill & E).
  destruct (refill_run 3 (set_currentBlocks
              (delete (Z.to_nat blockIndex) (currentBlocks w4)) w4))
    as (news & n & Erun & Hlen & Hall); [simpl; lia|].
  cbv beta in Erefill. rewrite Erun in Erefill. injection Erefill as <-.
  apply bind_Ok in E as (bs & w7 & Ebs & E). injection Ebs as <- <-.
  apply bind_Ok in E as (any & w8 & Eany & E).
  pose proof (run_eq_unchanged _ _ _ _ (reads_canPlaceAny _) Eany) as ->.
  assert (Hlines : linesOfMove blockIndex row col w = Ok lc).
  { unfold linesOfMove. rewrite Hb.
    rewrite (bind_run _ _ _ _ _ Eplace). unfold bind, modify.
    rewrite Eclear. reflexivity. }
  rewrite Hw2 in Eclear. simpl in Eclear.
  rewrite Hw2 in Eplace.
  assert (Hblocks : currentBlocks w4 = currentBlocks w ∧
            ((count lc = 0 ∧
              w4 = noClear (set_score (score w + 5) (set_grid (grid w2) w))) ∨
             (1 ≤ count lc ∧
              ∃ g2, w4 = scored (count lc) g2
                           (set_score (score w + 5) (set_grid (grid w2) w)))) ∧
            w3 = if count lc =? 0
                 then set_score (score w + 5) (set_grid (grid w2) w) else w4).
  { destruct (clearLines_frame _ _ _ Eclear) as [[Hz ->] | [Hpos (g2 & ->)]].
    - rewrite Hz in Eno |- *. simpl in Eno. injection Eno as <-.
      split; [reflexivity|]. split; [|reflexivity]. left. split; reflexivity.
    - destruct (Z.eqb_spec (count lc) 0) as [|_]; [lia|].
      injection Eno as <-.
      split; [reflexivity|]. split; [|reflexivity]. right. split; [exact Hpos|].
      by exists g2. }
  destruct Hblocks as (Hbl & Hcase & Hw3).
  rewrite Hbl in *. simpl in Hlen.
  exists b', (grid w2), lc, w4, news, n, any.
  rewrite Hw3 in Eclear.
  split; [reflexivity|]. split; [exact Hidx|]. split; [reflexivity|].
  split; [exact Ecan|]. split; [exact Eplace|]. split; [exact Eclear|].
  split; [exact Hlines|]. split; [exact Hcase|]. split; [exact Hall|].
  split; [exact Hlen|].
  split; [exact Eany|].
  unfold finish. destruct any; cbn [negb] in E; injection E as <-; reflexivity.
Qed.

(** [clearLines] on an 8x8 grid, with the grid it leaves. *)
Lemma clearLines_total w :
  wf_grid (grid w) = true →
  ∃ w', clearLines w =
          (Ok (mkLines (Z.of_nat (length (full_rows (grid w))) +
                        Z.of_nat (length (full_cols (grid w))))
                       (full_rows (grid w)) (full_cols (grid w))), w') ∧
        updated (grid w) (grid w') (cleared (grid w)) Zero ∧
        w' = if Z.of_nat (length (full_rows (grid w))) +
                Z.of_nat (length (full_cols (grid w))) =? 0
             then w
             else scored (Z.of_nat (length (full_rows (grid w))) +
                          Z.of_nat (length (full_cols (grid w)))) (grid w') w.
Proof.
  intros Hg. destruct (clearLines_run w Hg) as (g' & U & E).
  eexists. split; [exact E|].
  destruct (Z.eqb_spec (Z.of_nat (length (full_rows (grid w))) +
                        Z.of_nat (length (full_cols (grid w)))) 0) as [Hz|Hnz].
  - split; [|reflexivity]. split; [exact Hg|]. intros i j.
    rewrite no_full_none_cleared; [reflexivity | |];
      apply length_zero_iff_nil; lia.
  - split; [exact U | reflexivity].
Qed.

Lemma row_full_spec g r :
  row_full g r = true ↔ ∀ c, 0 ≤ c < 8 → truthy (cellAt g r c) = true.
Proof. unfold row_full, COLS. apply forallb_seqZ. Qed.

Lemma col_full_spec g c :
  col_full g c = true ↔ ∀ r, 0 ≤ r < 8 → truthy (cellAt g r c) = true.
Proof. unfold col_full, ROWS. apply forallb_seqZ. Qed.

Lemma truthy_cellAt_range g i j :
  wf_grid g = true → truthy (cellAt g i j) = true → 0 ≤ i < 8.
Proof.
  intros Hg H. unfold cellAt in H.
  destruct (lookupZ g i) as [a|] eqn:Ha; [|discriminate].
  apply lookupZ_Some in Ha. rewrite (wf_grid_length g Hg) in Ha. exact Ha.
Qed.

Lemma survives_clearing g g' i j :
  updated g g' (cleared g) Zero → truthy (cellAt g' i j) = true →
  cleared g i j = false ∧ truthy (cellAt g i j) = true.
Proof.
  intros [_ U] H. rewrite U in H.
  destruct (cleared g i j); [discriminate | by split].
Qed.

(** After the cells selected by [cleared] are emptied, no row and no column
    is full. *)
Lemma cleared_no_full_row g g' r :
  wf_grid g = true → updated g g' (cleared g) Zero → row_full g' r = false.
Proof.
  intros Hg U. apply not_true_is_false. intros Hfull.
  rewrite row_full_spec in Hfull.
  assert (Hr : row_full g r = true).
  { apply row_full_spec. intros c Hc.
    by destruct (survives_clearing g g' r c U (Hfull c Hc)). }
  destruct (survives_clearing g g' r 0 U (Hfull 0 ltac:(lia))) as [Hcl Ht].
  pose proof (truthy_cellAt_range g r 0 Hg Ht) as Hrange.
  unfold cleared, ROWS, COLS in Hcl. rewrite Hr in Hcl.
  destruct (Z.leb_spec 0 r), (Z.ltb_spec r 8); simpl in Hcl; try lia; discriminate.
Qed.

Lemma cleared_no_full_col g g' c :
  0 ≤ c < 8 → updated g g' (cleared g) Zero → col_full g' c = false.
Proof.
  intros Hrange U. apply not_true_is_false. intros Hfull.
  rewrite col_full_spec in Hfull.
  assert (Hc : col_full g c = true).
  { apply col_full_spec. intros r Hr.
    by destruct (survives_clearing g g' r c U (Hfull r Hr)). }
  destruct (survives_clearing g g' 0 c U (Hfull 0 ltac:(lia))) as [Hcl Ht].
  unfold cleared, ROWS, COLS in Hcl. rewrite Hc, orb_true_r in Hcl.
  destruct (Z.leb_spec 0 c), (Z.ltb_spec c 8); simpl in Hcl; try lia; discriminate.
Qed.

Lemma cleared_no_full_line g g' :
  wf_grid g = true → updated g g' (cleared g) Zero → no_full_line g'.
Proof.
  intros Hg U. split.
  - intros r _. by apply (cleared_no_full_row g).
  - intros c Hc. by apply (cleared_no_full_col g).
Qed.

(** The placement step of an accepted move, on an 8x8 grid. *)
Lemma placeBlock_after_canPlace s color row col w :
  wf_grid (grid w) = true →
  canPlace s (Some color) row col w = (Ok true, w) →
  ∃ g1, placeBlock s color row col w = (Ok tt, set_grid g1 w) ∧
        updated (grid w) g1 (covers s row col) (Tag color).
Proof.
  intros Hg Ecan.
  destruct (canPlace_true_inv _ _ _ _ _ _ Ecan) as (_ & Hs & Hoob & Hcells).
  apply placeBlock_run; [exact Hg | exact Hs |].
  intros r c Hr Hc Hocc.
  destruct (Hcells r c Hr Hc Hocc) as (a & Ha & _).
  apply lookupZ_Some in Ha. rewrite (wf_grid_length _ Hg) in Ha.
  unfold out_of_bounds, COLS in Hoob. apply orb_false_iff in Hoob as [_ Hoob].
  split; [exact Ha | lia].
Qed.

(** The grid an accepted move leaves, from an 8x8 grid: the block is
    stamped, then the lines that are full are emptied. *)
Lemma accepted_move_grid blockIndex row col w w' :
  wf_grid (grid w) = true →
  tryPlaceBlock blockIndex row col w = (Ok true, w') →
  ∃ b g1,
    lookupZ (currentBlocks w) blockIndex = Some b ∧
    placeBlock (shape b) (color b) row col w = (Ok tt, set_grid g1 w) ∧
    updated (grid w) g1 (covers (shape b) row col) (Tag (color b)) ∧
    updated g1 (grid w') (cleared g1) Zero ∧
    linesOfMove blockIndex row col w =
      Ok (mkLines (Z.of_nat (length (full_rows g1)) + Z.of_nat (length (full_cols g1)))
                  (full_rows g1) (full_cols g1)).
Proof.
  intros Hg E.
  destruct (tryPlaceBlock_accept_inv _ _ _ _ _ E)
    as (b & g1 & lc & w4 & news & n & any & _ & _ & Hb & Ecan & Eplace & Eclear
        & Hlines & Hcase & _ & _ & _ & ->).
  destruct (placeBlock_after_canPlace _ _ _ _ _ Hg Ecan) as (g1' & Eplace' & U1).
  rewrite Eplace in Eplace'. injection Eplace' as <-.
  destruct (clearLines_total (set_score (score w + 5) (set_grid g1 w)) (proj1 U1))
    as (w3 & Eclear' & U2 & Hw3).
  simpl in Eclear', U2, Hw3.
  rewrite Eclear in Eclear'. injection Eclear' as Hlc Hw3'.
  exists b, g1. split; [exact Hb|]. split; [exact Eplace|].
  split; [exact U1|]. split.
  - assert (grid (finish blockIndex w w4 news n any) = grid w4) as ->.
    { unfold finish. by destruct any. }
    destruct Hcase as [[Hz ->] | [Hpos (g2 & ->)]].
    + rewrite Hz in Hw3'. simpl in Hw3'. simpl. rewrite <- Hw3' in U2. exact U2.
    + destruct (Z.eqb_spec (count lc) 0); [lia|]. rewrite <- Hw3' in U2. exact U2.
  - rewrite Hlines, Hlc. reflexivity.
Qed.

(* ------------------------------------------------------------------ *)
(** ** The game-over scan *)

Lemma anchor_in_bounds s r c :
  0 ≤ r < ROWS - height s + 1 → 0 ≤ c < COLS - width0 s + 1 →
  out_of_bounds s r c = false.
Proof.
  unfold out_of_bounds. intros Hr Hc. apply orb_false_iff. split; lia.
Qed.

Lemma canPlaceAny_run blocks w :
  wf_grid (grid w) = true → Forall (λ b, shape b ≠ []) blocks →
  canPlaceAny blocks w =
    (Ok (existsb (λ b, fits_somewhere (grid w) (shape b)) blocks), w).
Proof.
  intros Hg Hne. unfold canPlaceAny. unfold bind at 1.
  rewrite for_return_scan.
  2:{ intros b. apply reads_bind; [apply reads_width|]. intros W.
      apply reads_for_return; intros r. apply reads_for_return; intros c.
      apply reads_bind; [apply reads_canPlace|]. intros [|]; apply reads_ret. }
  rewrite (scan_flags _ _ (λ b, fits_somewhere (grid w) (shape b)) true).
  { destruct (existsb _ blocks); reflexivity. }
  intros b Hb. rewrite Forall_forall in Hne. specialize (Hne b Hb).
  rewrite (bind_run _ _ _ _ _ (width_run (shape b) w Hne)).
  rewrite for_return_scan.
  2:{ intros r. apply reads_for_return; intros c.
      apply reads_bind; [apply reads_canPlace|]. intros [|]; apply reads_ret. }
  cbn [fst]. unfold fits_somewhere.
  apply scan_flags. intros r Hr. apply elem_of_seqZ in Hr.
  rewrite for_return_scan.
  2:{ intros c. apply reads_bind; [apply reads_canPlace|].
      intros [|]; apply reads_ret. }
  cbn [fst]. apply scan_flags. intros c Hc. apply elem_of_seqZ in Hc.
  rewrite (bind_run _ _ _ _ _
             (canPlace_run (shape b) None r c w Hne Hg ltac:(lia))).
  rewrite (anchor_in_bounds (shape b) r c) by lia. simpl.
  destruct (overlaps (grid w) (shape b) r c); reflexivity.
Qed.

(* ------------------------------------------------------------------ *)
(** ** Reachable states and their invariant *)

Lemma catalog_shape_nonempty (s : list (list Z)) : s ∈ SHAPES → s ≠ [].
Proof.
  intros Hs. pose proof catalog_nonempty as H.
  rewrite Forall_forall in H. by apply H.
Qed.

Lemma blocks_nonempty (bs : list Block) :
  Forall (λ b, shape b ∈ SHAPES) bs → Forall (λ b, shape b ≠ []) bs.
Proof.
  intros H. eapply Forall_impl; [exact H|].
  intros b. apply catalog_shape_nonempty.
Qed.

(** On an 8x8 grid and catalog shapes [canPlace] returns or throws, and it
    throws only from a negative row. *)
Lemma canPlace_cases s color row col w :
  s ∈ SHAPES → wf_grid (grid w) = true →
  (∃ b, canPlace s color row col w = (Ok b, w)) ∨
  (row < 0 ∧ canPlace s color row col w = (TypeError, w)).
Proof.
  intros Hs Hg. pose proof (catalog_shape_nonempty s Hs) as Hne.
  destruct (Z.le_gt_cases 0 row) as [Hrow|Hrow].
  - left. eexists. by apply canPlace_run.
  - destruct (out_of_bounds s row col) eqn:Hoob.
    + left. exists false. rewrite (canPlace_unfold s color row col w Hne), Hoob.
      reflexivity.
    + right. split; [lia|]. apply canPlace_negative_row; [|lia|exact Hoob].
      pose proof catalog_first_row_occupied as H.
      rewrite Forall_forall in H. by apply H.
Qed.

(** The steps of a move after [canPlace] has accepted all return. *)
Lemma tryPlaceBlock_accepts blockIndex row col w b :
  wf_grid (grid w) = true →
  Forall (λ b, shape b ∈ SHAPES) (currentBlocks w) →
  gameOver w = false →
  lookupZ (currentBlocks w) blockIndex = Some b →
  canPlace (shape b) (Some (color b)) row col w = (Ok true, w) →
  ∃ w', tryPlaceBlock blockIndex row col w = (Ok true, w').
Proof.
  intros Hg Hcat Hover Hb Ecan.
  pose proof (lookupZ_Some _ _ _ Hb) as Hidx.
  destruct (placeBlock_after_canPlace _ _ _ _ _ Hg Ecan) as (g1 & Eplace & U1).
  destruct (clearLines_total (set_score (score w + 5) (set_grid g1 w)) (proj1 U1))
    as (w3 & Eclear & U2 & Hw3).
  set (lc := mkLines _ _ _) in Eclear.
  set (w4 := if count lc =? 0 then noClear w3 else w3).
  assert (Hgrid4 : grid w4 = grid w3) by (subst w4; by destruct (count lc =? 0)).
  assert (Hblocks4 : currentBlocks w4 = currentBlocks w).
  { subst w4. rewrite Hw3.
    destruct (_ =? 0), (count lc =? 0); reflexivity. }
  destruct (refill_run 3 (set_currentBlocks
              (delete (Z.to_nat blockIndex) (currentBlocks w4)) w4))
    as (news & n & Erefill & _ & Hnews); [simpl; lia|].
  set (w5 := set_drawn n _) in Erefill.
  assert (Hany : ∃ any, canPlaceAny (currentBlocks w5) w5 = (Ok any, w5)).
  { eexists. apply canPlaceAny_run.
    - subst w5. simpl. rewrite Hgrid4. exact (proj1 U2).
    - subst w5. simpl. apply blocks_nonempty, Forall_app. split; [|exact Hnews].
      rewrite Hblocks4. by apply Forall_delete. }
  destruct Hany as [any Eany].
  exists (if any then w5 else set_gameOver true w5).
  unfold tryPlaceBlock. unfold bind at 1 2, gets. rewrite Hover. cbn [orb].
  destruct (Z.ltb_spec blockIndex 0); [lia|]. cbn [orb].
  destruct (Z.geb_spec blockIndex (Z.of_nat (length (currentBlocks w)))); [lia|].
  rewrite Hb. unfold defined. unfold bind at 1, ret at 1.
  rewrite (bind_run _ _ _ _ _ Ecan). cbn [negb].
  rewrite (bind_run _ _ _ _ _ Eplace).
  unfold bind at 1, modify at 1.
  rewrite (bind_run _ _ _ _ _ Eclear).
  assert (Eno : (if count lc =? 0 then noClearThisMove else ret ()) w3 = (Ok tt, w4)).
  { subst w4. by destruct (count lc =? 0). }
  rewrite (bind_run _ _ _ _ _ Eno).
  unfold bind at 1, modify at 1.
  rewrite (bind_run _ _ _ _ _ Erefill).
  unfold bind at 1. cbv beta iota.
  rewrite (bind_run _ _ _ _ _ Eany).
  destruct any; reflexivity.
Qed.

(** Every call of [tryPlaceBlock] on an 8x8 grid with catalog blocks
    rejects, throws before writing anything, or accepts; it never runs out
    of fuel. *)
Lemma tryPlaceBlock_cases blockIndex row col w :
  wf_grid (grid w) = true →
  Forall (λ b, shape b ∈ SHAPES) (currentBlocks w) →
  tryPlaceBlock blockIndex row col w = (Ok false, w) ∨
  (row < 0 ∧ tryPlaceBlock blockIndex row col w = (TypeError, w)) ∨
  ∃ w', tryPlaceBlock blockIndex row col w = (Ok true, w').
Proof.
  intros Hg Hcat.
  destruct (gameOver w) eqn:Hover.
  { left. unfold tryPlaceBlock, bind at 1 2, gets. rewrite Hover. reflexivity. }
  destruct (Z.ltb_spec blockIndex 0) as [Hlt|Hge].
  { left. unfold tryPlaceBlock, bind at 1 2, gets. rewrite Hover. cbn [orb].
    destruct (Z.ltb_spec blockIndex 0); [reflexivity | lia]. }
  destruct (Z.geb_spec blockIndex (Z.of_nat (length (currentBlocks w)))) as [Hbig|Hsmall].
  { left. unfold tryPlaceBlock, bind at 1 2, gets. rewrite Hover. cbn [orb].
    destruct (Z.ltb_spec blockIndex 0); [reflexivity|]. cbn [orb].
    destruct (Z.geb_spec blockIndex (Z.of_nat (length (currentBlocks w))));
      [reflexivity | lia]. }
  destruct (lookupZ_is_Some (currentBlocks w) blockIndex ltac:(lia)) as [b Hb].
  assert (Hs : shape b ∈ SHAPES).
  { rewrite Forall_forall in Hcat. eapply Hcat, lookupZ_elem_of, Hb. }
  assert (Hstart : ∀ o, canPlace (shape b) (Some (color b)) row col w = (o, w) →
            o ≠ Ok true →
            tryPlaceBlock blockIndex row col w =
              (match o with Ok _ => Ok false | TypeError => TypeError
                          | OutOfFuel => OutOfFuel end, w)).
  { intros o Eo Hne. unfold tryPlaceBlock, bind at 1 2, gets. rewrite Hover. cbn [orb].
    destruct (Z.ltb_spec blockIndex 0); [lia|]. cbn [orb].
    destruct (Z.geb_spec blockIndex (Z.of_nat (length (currentBlocks w)))); [lia|].
    rewrite Hb. unfold defined. unfold bind at 1, ret at 1.
    unfold bind at 1. rewrite Eo.
    destruct o as [[|]| |]; [done | reflexivity..]. }
  destruct (canPlace_cases (shape b) (Some (color b)) row col w Hs Hg)
    as [[[|] Ecan] | [Hrow Ecan]].
  - right. right. by eapply tryPlaceBlock_accepts.
  - left. by rewrite (Hstart _ Ecan).
  - right. left. split; [exact Hrow|]. by rewrite (Hstart _ Ecan).
Qed.

Lemma accepted_move_blocks blockIndex row col w w' :
  tryPlaceBlock blockIndex row col w = (Ok true, w') →
  ∃ news,
    currentBlocks w' = delete (Z.to_nat blockIndex) (currentBlocks w) ++ news ∧
    Forall (λ b, shape b ∈ SHAPES) news ∧
    Z.of_nat (length news) = Z.max 0 (4 - Z.of_nat (length (currentBlocks w))).
Proof.
  intros E.
  destruct (tryPlaceBlock_accept_inv _ _ _ _ _ E)
    as (b & g1 & lc & w4 & news & n & any & _ & Hidx & Hb & _ & _ & _
        & _ & _ & Hnews & Hlen & _ & ->).
  exists news. split; [|split; [exact Hnews|]].
  - unfold finish. by destruct any.
  - rewrite Hlen, length_delete.
    + apply lookupZ_Some in Hb. lia.
    + unfold lookupZ in Hb. destruct (blockIndex <? 0); [discriminate|]. eauto.
Qed.

Lemma getThreeBlocks_run w :
  ∃ b0 b1 b2 n,
    getThreeBlocks w = (Ok [b0; b1; b2], set_drawn n w) ∧
    Forall (λ b, shape b ∈ SHAPES) [b0; b1; b2].
Proof.
  unfold getThreeBlocks.
  destruct (randomShape_run w) as (b0 & n0 & E0 & H0).
  destruct (randomShape_run (set_drawn n0 w)) as (b1 & n1 & E1 & H1).
  destruct (randomShape_run (set_drawn n1 (set_drawn n0 w))) as (b2 & n2 & E2 & H2).
  exists b0, b1, b2, n2.
  rewrite (bind_run _ _ _ _ _ E0), (bind_run _ _ _ _ _ E1), (bind_run _ _ _ _ _ E2).
  split; [reflexivity|].
  apply Forall_cons_2; [exact H0|]. apply Forall_cons_2; [exact H1|].
  apply Forall_cons_2; [exact H2|]. apply Forall_nil_2.
Qed.

Lemma in_range_cases (i : Z) :
  0 ≤ i < 8 → i = 0 ∨ i = 1 ∨ i = 2 ∨ i = 3 ∨ i = 4 ∨ i = 5 ∨ i = 6 ∨ i = 7.
Proof. lia. Qed.

Lemma empty_grid_wf : wf_grid empty_grid = true.
Proof. reflexivity. Qed.

Lemma empty_grid_no_full_line : no_full_line empty_grid.
Proof.
  split; intros i Hi; apply in_range_cases in Hi;
    repeat (destruct Hi as [->|Hi]; [reflexivity|]); subst i; reflexivity.
Qed.

Lemma Inv_fresh w bs :
  Forall (λ b, shape b ∈ SHAPES) bs → length bs = 3%nat →
  grid w = empty_grid → currentBlocks w = bs → Inv w.
Proof.
  intros Hbs Hlen Hg Hb. unfold Inv. rewrite Hg, Hb.
  split; [exact empty_grid_wf|]. split; [exact Hlen|].
  split; [exact Hbs | exact empty_grid_no_full_line].
Qed.

(** The script's initialisation returns, for every random source. *)
Lemma init_run rnd n : ∃ w, init (state0 rnd n) = (Ok tt, w) ∧ Inv w.
Proof.
  unfold init, initGrid. unfold bind at 1, modify at 1.
  destruct (getThreeBlocks_run
              (set_grid ((λ _, arr_fill COLS Zero) <$> seqZ 0 ROWS) (state0 rnd n)))
    as (b0 & b1 & b2 & n' & E & H).
  rewrite (bind_run _ _ _ _ _ E). eexists. split; [reflexivity|].
  by apply (Inv_fresh _ [b0; b1; b2]).
Qed.

Lemma doRestart_run w : ∃ w', doRestart w = (Ok tt, w') ∧ Inv w' ∧
  score w' = 0 ∧ combo w' = 0 ∧ streak w' = 0 ∧ gameOver w' = false.
Proof.
  unfold doRestart, initGrid. unfold bind at 1, modify at 1.
  destruct (getThreeBlocks_run
              (set_grid ((λ _, arr_fill COLS Zero) <$> seqZ 0 ROWS) w))
    as (b0 & b1 & b2 & n' & E & H).
  rewrite (bind_run _ _ _ _ _ E). eexists. split; [reflexivity|].
  split; [|by repeat split].
  by apply (Inv_fresh _ [b0; b1; b2]).
Qed.

Lemma tryPlaceBlock_Inv blockIndex row col w o w' :
  Inv w → tryPlaceBlock blockIndex row col w = (o, w') → Inv w'.
Proof.
  intros (Hg & Hlen & Hcat & Hnf) E.
  destruct (tryPlaceBlock_cases blockIndex row col w Hg Hcat)
    as [E' | [[_ E'] | [w'' E']]];
    rewrite E' in E; injection E as <- <-.
  1,2: exact (conj Hg (conj Hlen (conj Hcat Hnf))).
  destruct (accepted_move_grid _ _ _ _ _ Hg E') as (b & g1 & _ & _ & U1 & U2 & _).
  destruct (accepted_move_blocks _ _ _ _ _ E') as (news & Hbl & Hnews & Hn).
  split; [exact (proj1 U2)|]. split; [|split].
  - rewrite Hbl, length_app.
    destruct (tryPlaceBlock_accept_inv _ _ _ _ _ E')
      as (b' & _ & _ & _ & _ & _ & _ & _ & Hidx & Hb & _).
    rewrite length_delete.
    + lia.
    + unfold lookupZ in Hb. destruct (blockIndex <? 0); [discriminate|]. eauto.
  - rewrite Hbl. apply Forall_app. split; [by apply Forall_delete | exact Hnews].
  - exact (cleared_no_full_line g1 _ (proj1 U1) U2).
Qed.

(** The invariant holds in every state of a session. *)
Lemma reachable_Inv w : reachable w → Inv w.
Proof.
  induction 1 as [rnd n w E | w w' _ IH E | w blockIndex row col o w' _ IH E
                  | w k _ IH | w k _ IH].
  - destruct (init_run rnd n) as (w0 & E0 & HI). rewrite E0 in E.
    by injection E as <-.
  - destruct (doRestart_run w) as (w0 & E0 & HI & _). rewrite E0 in E.
    by injection E as <-.
  - by eapply tryPlaceBlock_Inv.
  - exact IH.
  - exact IH.
Qed.

(* ------------------------------------------------------------------ *)
(** ** Example states *)

Example almost_row_clears :
  let w' := snd (tryPlaceBlock 0 0 7 almost_row) in
  fst (tryPlaceBlock 0 0 7 almost_row) = Ok true ∧
  linesOfMove 0 0 7 almost_row = Ok (mkLines 1 [0] []) ∧
  score w' = 157 ∧ combo w' = 1 ∧ streak w' = 3 ∧
  cellAt (grid w') 0 0 = Some Zero ∧ cellAt (grid w') 0 7 = Some Zero.
Proof. vm_compute. repeat split. Qed.

(** The second scoring example of the specification: two lines with streak
    3 on entry give 5 + 20 + 4 + 60 = 89 points. *)
Example almost_cross_clears :
  let w' := snd (tryPlaceBlock 0 0 7 almost_cross) in
  fst (tryPlaceBlock 0 0 7 almost_cross) = Ok true ∧
  linesOfMove 0 0 7 almost_cross = Ok (mkLines 2 [0] [7]) ∧
  score w' = 200 + 89 ∧ combo w' = 2 ∧ streak w' = 4 ∧
  cellAt (grid w') 0 7 = Some Zero ∧ cellAt (grid w') 3 7 = Some Zero.
Proof. vm_compute. repeat split. Qed.

(** Filling row 0 of an empty board with two [[1,1,1,1]] blocks: the row is
    cleared by the second placement, not by the first. *)
Example two_bars_fill_row :
  let w0 := set_currentBlocks
              [mkBlock [[1; 1; 1; 1]] c1; mkBlock [[1; 1; 1; 1]] c2;
               mkBlock [[1]] c3] fresh in
  let w1 := snd (tryPlaceBlock 0 0 0 w0) in
  let w2 := snd (tryPlaceBlock 0 0 4 w1) in
  linesOfMove 0 0 0 w0 = Ok (mkLines 0 [] []) ∧
  cellAt (grid w1) 0 0 = Some (Tag c1) ∧ score w1 = 5 ∧
  linesOfMove 0 0 4 w1 = Ok (mkLines 1 [0] []) ∧
  cellAt (grid w2) 0 0 = Some Zero ∧ score w2 = 5 + 17.
Proof. vm_compute. repeat split. Qed.

(** Placing the single cell leaves two blocks that fit nowhere and draws a
    third one that does not fit either: the game is over. *)
Example nearly_full_game_over :
  let w' := snd (tryPlaceBlock 0 0 0 nearly_full) in
  fst (canPlaceAny (currentBlocks nearly_full) nearly_full) = Ok true ∧
  fst (tryPlaceBlock 0 0 0 nearly_full) = Ok true ∧
  shape <$> currentBlocks w' =
    [ [[1; 1; 1]; [1; 1; 1]; [1; 1; 1]]; [[1]; [1]];
      [[1; 1; 1]; [1; 1; 1]; [1; 1; 1]] ] ∧
  fst (canPlaceAny (currentBlocks w') w') = Ok false ∧
  gameOver w' = true ∧
  tryPlaceBlock 1 0 0 w' = (Ok false, w').
Proof. vm_compute. repeat split. Qed.

(* ------------------------------------------------------------------ *)
(** ** Scoring, streak and combo *)

(** Every accepted move has run [clearLines]; [linesOfMove] is its result. *)
Lemma accepted_move_has_lines blockIndex row col w w' :
  tryPlaceBlock blockIndex row col w = (Ok true, w') →
  ∃ lc, linesOfMove blockIndex row col w = Ok lc ∧ 0 ≤ count lc.
Proof.
  intros E.
  destruct (tryPlaceBlock_accept_inv _ _ _ _ _ E)
    as (b & g1 & lc & w4 & news & n & any & _ & _ & _ & _ & _ & _
        & Hlines & Hcase & _).
  exists lc. split; [exact Hlines|].
  destruct Hcase as [[-> _] | [H _]]; lia.
Qed.

(** The counters after an accepted move, by the number of lines cleared. *)
Lemma accepted_move_counters blockIndex row col w w' lc :
  tryPlaceBlock blockIndex row col w = (Ok true, w') →
  linesOfMove blockIndex row col w = Ok lc →
  (count lc = 0 ∧ score w' = score w + 5 ∧ combo w' = 0 ∧ streak w' = 0 ∧
   lastMoveCleared w' = false) ∨
  (1 ≤ count lc ∧
   score w' = score w + (5 + count lc * 10 + 2 ^ count lc +
                         (if streak w >? 0 then streak w * 20 else 0)) ∧
   combo w' = count lc ∧ streak w' = streak w + 1 ∧
   lastMoveCleared w' = true).
Proof.
  intros E Hlc.
  destruct (tryPlaceBlock_accept_inv _ _ _ _ _ E)
    as (b & g1 & lc' & w4 & news & n & any & _ & _ & _ & _ & _ & _
        & Hlines & Hcase & _ & _ & _ & ->).
  rewrite Hlines in Hlc. injection Hlc as ->.
  assert (Hf : ∀ (f : World → Z), (∀ x k, f (set_drawn k x) = f x) →
            (∀ x bs, f (set_currentBlocks bs x) = f x) →
            (∀ x v, f (set_gameOver v x) = f x) →
            f (finish blockIndex w w4 news n any) = f w4).
  { intros f H1 H2 H3. unfold finish.
    destruct any; rewrite ?H3, H1, H2; reflexivity. }
  assert (Hl : lastMoveCleared (finish blockIndex w w4 news n any)
               = lastMoveCleared w4)
    by (unfold finish; by destruct any).
  rewrite (Hf score), (Hf combo), (Hf streak), Hl by reflexivity.
  destruct Hcase as [[Hz ->] | [Hpos (g2 & ->)]].
  - left. by repeat split.
  - right. split; [exact Hpos|]. simpl. repeat split. lia.
Qed.

(** C1.  A move that clears [count >= 1] lines, entered with streak [s],
    changes the score by [5 + count*10 + 2^count + (s > 0 ? s*20 : 0)]: the
    streak bonus is computed from the streak the move was entered with, and
    the streak is incremented afterwards, to [s + 1]. *)
Theorem clearing_move_score blockIndex row col w w' lc :
  tryPlaceBlock blockIndex row col w = (Ok true, w') →
  linesOfMove blockIndex row col w = Ok lc →
  1 ≤ count lc →
  score w' - score w =
    5 + count lc * 10 + 2 ^ count lc +
    (if streak w >? 0 then streak w * 20 else 0) ∧
  streak w' = streak w + 1.
Proof.
  intros E Hlc Hpos.
  destruct (accepted_move_counters _ _ _ _ _ _ E Hlc)
    as [(Hz & _) | (_ & Hs & _ & Hk & _)]; [lia|].
  split; [lia | exact Hk].
Qed.

Lemma clearing_move_score_witness :
  score (snd (tryPlaceBlock 0 0 7 almost_cross)) - score almost_cross
    = 5 + 2 * 10 + 2 ^ 2 + 3 * 20 ∧
  streak (snd (tryPlaceBlock 0 0 7 almost_cross)) = 3 + 1.
Proof.
  apply (clearing_move_score 0 0 7 almost_cross
           (snd (tryPlaceBlock 0 0 7 almost_cross)) (mkLines 2 [0] [7])).
  - vm_compute. reflexivity.
  - vm_compute. reflexivity.
  - vm_compute. discriminate.
Defined.

(** C7.  An accepted placement that clears no line sets combo and streak to
    0, whatever the streak was. *)
Theorem non_clearing_move_resets blockIndex row col w w' lc :
  tryPlaceBlock blockIndex row col w = (Ok true, w') →
  linesOfMove blockIndex row col w = Ok lc →
  count lc = 0 →
  combo w' = 0 ∧ streak w' = 0.
Proof.
  intros E Hlc Hz.
  destruct (accepted_move_counters _ _ _ _ _ _ E Hlc)
    as [(_ & _ & Hc & Hs & _) | (Hpos & _)]; [|lia].
  split; assumption.
Qed.

Lemma non_clearing_move_resets_witness :
  combo (snd (tryPlaceBlock 0 3 3 almost_cross)) = 0 ∧
  streak (snd (tryPlaceBlock 0 3 3 almost_cross)) = 0.
Proof.
  apply (non_clearing_move_resets 0 3 3 almost_cross
           (snd (tryPlaceBlock 0 3 3 almost_cross)) (mkLines 0 [] [])).
  - vm_compute. reflexivity.
  - vm_compute. reflexivity.
  - reflexivity.
Defined.

(* ------------------------------------------------------------------ *)
(** ** Rejected moves *)

(** C4.  When the game is over, or the index names no current block, or
    [canPlace] returns false for the block at [(row, col)], [tryPlaceBlock]
    returns false (it does not throw) and the whole state is as before. *)
Theorem rejected_move_unchanged blockIndex row col w :
  gameOver w = true ∨
  blockIndex < 0 ∨ Z.of_nat (length (currentBlocks w)) ≤ blockIndex ∨
  (∃ b, lookupZ (currentBlocks w) blockIndex = Some b ∧
        fst (canPlace (shape b) (Some (color b)) row col w) = Ok false) →
  tryPlaceBlock blockIndex row col w = (Ok false, w).
Proof.
  intros H. unfold tryPlaceBlock, bind at 1 2, gets.
  destruct (gameOver w); [reflexivity|]. cbn [orb].
  destruct (Z.ltb_spec blockIndex 0); [reflexivity|]. cbn [orb].
  destruct (Z.geb_spec blockIndex (Z.of_nat (length (currentBlocks w))));
    [reflexivity|].
  destruct H as [H | [H | [H | (b & Hb & Hcan)]]]; [discriminate | lia | lia |].
  rewrite Hb. unfold defined. unfold bind at 1, ret at 1. unfold bind at 1.
  pose proof (reads_unchanged _ w (reads_canPlace (shape b) (Some (color b)) row col))
    as Hw.
  destruct (canPlace (shape b) (Some (color b)) row col w) as [oc w1].
  simpl in Hcan, Hw. subst oc w1. reflexivity.
Qed.

Lemma rejected_move_unchanged_witness :
  tryPlaceBlock 1 0 7 almost_row = (Ok false, almost_row) ∧
  tryPlaceBlock 3 0 0 almost_row = (Ok false, almost_row) ∧
  tryPlaceBlock 0 0 0 (set_gameOver true almost_row)
    = (Ok false, set_gameOver true almost_row).
Proof.
  split; [|split].
  - apply rejected_move_unchanged. right. right. right.
    exists (mkBlock [[1; 1]] c3). split; vm_compute; reflexivity.
  - apply rejected_move_unchanged. right. right. left. vm_compute. discriminate.
  - apply rejected_move_unchanged. left. reflexivity.
Defined.

(* ------------------------------------------------------------------ *)
(** ** Refilling the block set *)

(** C6.  After an accepted placement the block set holds exactly 3 blocks:
    it is the old set without the block at [blockIndex], followed by the
    newly generated catalog blocks that bring it back to 3. *)
Theorem refill_to_three blockIndex row col w w' :
  tryPlaceBlock blockIndex row col w = (Ok true, w') →
  (length (currentBlocks w) ≤ 3)%nat →
  ∃ news,
    currentBlocks w' = delete (Z.to_nat blockIndex) (currentBlocks w) ++ news ∧
    Forall (λ b, shape b ∈ SHAPES) news ∧
    (length news = 4 - length (currentBlocks w))%nat ∧
    length (currentBlocks w') = 3%nat.
Proof.
  intros E Hle.
  destruct (accepted_move_blocks _ _ _ _ _ E) as (news & Hbl & Hnews & Hn).
  destruct (tryPlaceBlock_accept_inv _ _ _ _ _ E)
    as (b & _ & _ & _ & _ & _ & _ & _ & Hidx & Hb & _).
  exists news. split; [exact Hbl|]. split; [exact Hnews|].
  split; [lia|].
  rewrite Hbl, length_app, length_delete.
  - apply lookupZ_Some in Hb. lia.
  - unfold lookupZ in Hb. destruct (blockIndex <? 0); [discriminate|]. eauto.
Qed.

Lemma refill_to_three_witness :
  ∃ news,
    currentBlocks (snd (tryPlaceBlock 0 0 7 almost_row))
      = delete (Z.to_nat 0) (currentBlocks almost_row) ++ news ∧
    Forall (λ b, shape b ∈ SHAPES) news ∧
    (length news = 4 - length (currentBlocks almost_row))%nat ∧
    length (currentBlocks (snd (tryPlaceBlock 0 0 7 almost_row))) = 3%nat.
Proof.
  apply (refill_to_three 0 0 7 almost_row).
  - vm_compute. reflexivity.
  - vm_compute. lia.
Defined.

(** In a session the block set always holds 3 catalog blocks. *)
Lemma reachable_three_blocks w :
  reachable w →
  length (currentBlocks w) = 3%nat ∧
  Forall (λ b, shape b ∈ SHAPES) (currentBlocks w).
Proof. intros H. apply reachable_Inv in H as (_ & Hl & Hc & _). by split. Qed.

(* ------------------------------------------------------------------ *)
(** ** Clearing full lines *)

Lemma cleared_true g i j :
  0 ≤ i < 8 → 0 ≤ j < 8 → i ∈ full_rows g ∨ j ∈ full_cols g →
  cleared g i j = true.
Proof.
  intros Hi Hj H. unfold cleared, ROWS, COLS.
  destruct (Z.leb_spec 0 i), (Z.ltb_spec i 8), (Z.leb_spec 0 j), (Z.ltb_spec j 8);
    try lia. simpl.
  destruct H as [H|H].
  - apply elem_of_full_rows in H as [_ ->]. reflexivity.
  - apply elem_of_full_cols in H as [_ ->]. apply orb_true_r.
Qed.

Lemma cleared_false g i j :
  i ∉ full_rows g → j ∉ full_cols g → cleared g i j = false.
Proof.
  intros Hi Hj. apply not_true_is_false. intros H.
  unfold cleared, ROWS, COLS in H.
  apply andb_true_iff in H as [H Hfull].
  apply andb_true_iff in H as [Hr Hc].
  apply andb_true_iff in Hr as [Hr1 Hr2]. apply andb_true_iff in Hc as [Hc1 Hc2].
  apply orb_true_iff in Hfull as [Hf|Hf].
  - apply Hi, elem_of_full_rows. split; [lia | exact Hf].
  - apply Hj, elem_of_full_cols. split; [lia | exact Hf].
Qed.

(** C2.  In a move, the rows and columns that [clearLines] clears are
    exactly those whose 8 cells are all occupied in the grid as it stands
    after the block is stamped and before anything is emptied; afterwards
    every cell of a cleared row or column is empty, crossings included, and
    the other cells are as they were. *)
Theorem move_clears_full_lines blockIndex row col w w' :
  wf_grid (grid w) = true →
  tryPlaceBlock blockIndex row col w = (Ok true, w') →
  ∃ b g1 lc,
    lookupZ (currentBlocks w) blockIndex = Some b ∧
    placeBlock (shape b) (color b) row col w = (Ok tt, set_grid g1 w) ∧
    linesOfMove blockIndex row col w = Ok lc ∧
    (∀ r, r ∈ rows lc ↔
          0 ≤ r < 8 ∧ ∀ c, 0 ≤ c < 8 → truthy (cellAt g1 r c) = true) ∧
    (∀ c, c ∈ cols lc ↔
          0 ≤ c < 8 ∧ ∀ r, 0 ≤ r < 8 → truthy (cellAt g1 r c) = true) ∧
    count lc = Z.of_nat (length (rows lc)) + Z.of_nat (length (cols lc)) ∧
    (∀ r c, 0 ≤ r < 8 → 0 ≤ c < 8 → r ∈ rows lc ∨ c ∈ cols lc →
            cellAt (grid w') r c = Some Zero) ∧
    (∀ r c, r ∉ rows lc → c ∉ cols lc → cellAt (grid w') r c = cellAt g1 r c).
Proof.
  intros Hg E.
  destruct (accepted_move_grid _ _ _ _ _ Hg E)
    as (b & g1 & Hb & Eplace & U1 & [_ U2] & Hlines).
  exists b, g1, (mkLines (Z.of_nat (length (full_rows g1)) +
                          Z.of_nat (length (full_cols g1)))
                         (full_rows g1) (full_cols g1)).
  split; [exact Hb|]. split; [exact Eplace|]. split; [exact Hlines|]. simpl.
  split; [|split; [|split; [reflexivity|split]]].
  - intros r. rewrite elem_of_full_rows, row_full_spec. reflexivity.
  - intros c. rewrite elem_of_full_cols, col_full_spec. reflexivity.
  - intros r c Hr Hc H. rewrite U2, cleared_true by assumption. reflexivity.
  - intros r c Hr Hc. rewrite U2, cleared_false by assumption. reflexivity.
Qed.

Lemma move_clears_full_lines_witness :
  ∃ b g1 lc,
    lookupZ (currentBlocks almost_cross) 0 = Some b ∧
    placeBlock (shape b) (color b) 0 7 almost_cross
      = (Ok tt, set_grid g1 almost_cross) ∧
    linesOfMove 0 0 7 almost_cross = Ok lc ∧
    (∀ r, r ∈ rows lc ↔
          0 ≤ r < 8 ∧ ∀ c, 0 ≤ c < 8 → truthy (cellAt g1 r c) = true) ∧
    (∀ c, c ∈ cols lc ↔
          0 ≤ c < 8 ∧ ∀ r, 0 ≤ r < 8 → truthy (cellAt g1 r c) = true) ∧
    count lc = Z.of_nat (length (rows lc)) + Z.of_nat (length (cols lc)) ∧
    (∀ r c, 0 ≤ r < 8 → 0 ≤ c < 8 → r ∈ rows lc ∨ c ∈ cols lc →
            cellAt (grid (snd (tryPlaceBlock 0 0 7 almost_cross))) r c = Some Zero) ∧
    (∀ r c, r ∉ rows lc → c ∉ cols lc →
            cellAt (grid (snd (tryPlaceBlock 0 0 7 almost_cross))) r c
            = cellAt g1 r c).
Proof.
  apply (move_clears_full_lines 0 0 7 almost_cross).
  - vm_compute. reflexivity.
  - vm_compute. reflexivity.
Defined.

(* ------------------------------------------------------------------ *)
(** ** No full line is left between moves *)

(** C10.  An accepted move leaves no full row and no full column on the
    board, so no state of a session has one. *)
Theorem no_full_line_between_moves w :
  (wf_grid (grid w) = true →
   ∀ blockIndex row col w',
     tryPlaceBlock blockIndex row col w = (Ok true, w') →
     no_full_line (grid w')) ∧
  (reachable w → no_full_line (grid w)).
Proof.
  split.
  - intros Hg blockIndex row col w' E.
    destruct (accepted_move_grid _ _ _ _ _ Hg E) as (b & g1 & _ & _ & U1 & U2 & _).
    exact (cleared_no_full_line g1 _ (proj1 U1) U2).
  - intros H. by apply reachable_Inv in H as (_ & _ & _ & H).
Qed.

Lemma no_full_line_between_moves_witness :
  no_full_line (grid (snd (tryPlaceBlock 0 0 7 almost_cross))) ∧
  no_full_line (grid fresh).
Proof.
  split.
  - refine (proj1 (no_full_line_between_moves almost_cross) _ 0 0 7 _ _);
      vm_compute; reflexivity.
  - apply (proj2 (no_full_line_between_moves fresh)).
    apply (reach_init (λ _, 0%Q) 0). vm_compute. reflexivity.
Defined.

(* ------------------------------------------------------------------ *)
(** ** Game over *)

Lemma fits_somewhere_false g s :
  fits_somewhere g s = false ↔
  ∀ row col, 0 ≤ row ≤ 8 - height s → 0 ≤ col ≤ 8 - width0 s →
             overlaps g s row col = true.
Proof.
  unfold fits_somewhere, ROWS, COLS. split.
  - intros H row col Hr Hc.
    destruct (overlaps g s row col) eqn:Ho; [reflexivity|].
    enough (Hex : existsb (λ r, existsb (λ c, negb (overlaps g s r c))
                                   (seqZ 0 (8 - width0 s + 1)))
                          (seqZ 0 (8 - height s + 1)) = true)
      by (rewrite H in Hex; discriminate).
    apply existsb_seqZ. exists row. split; [lia|].
    apply existsb_seqZ. exists col. split; [lia|]. by rewrite Ho.
  - intros H. apply not_true_is_false. intros Hex.
    apply existsb_seqZ in Hex as (row & Hr & Hex).
    apply existsb_seqZ in Hex as (col & Hc & Hex).
    rewrite H in Hex by lia. discriminate.
Qed.

(** C5.  [canPlaceAny] returns false exactly when [canPlace] is false for
    every block of the set at every anchor that keeps the shape on the
    board; and an accepted move ends with [gameOver] set exactly when
    [canPlaceAny] is false for the refilled block set. *)
Theorem game_over_exactly_when_stuck :
  (∀ w blocks,
     wf_grid (grid w) = true → Forall (λ b, shape b ≠ []) blocks →
     ∃ any, canPlaceAny blocks w = (Ok any, w) ∧
       (any = false ↔
        ∀ b color row col, b ∈ blocks →
          0 ≤ row ≤ 8 - height (shape b) → 0 ≤ col ≤ 8 - width0 (shape b) →
          canPlace (shape b) color row col w = (Ok false, w))) ∧
  (∀ w blockIndex row col w',
     tryPlaceBlock blockIndex row col w = (Ok true, w') →
     (gameOver w' = true ↔
      fst (canPlaceAny (currentBlocks w') w') = Ok false)).
Proof.
  split.
  - intros w blocks Hg Hne. eexists. split; [by apply canPlaceAny_run|].
    rewrite Forall_forall in Hne. split.
    + intros Hex b color row col Hb Hr Hc.
      rewrite (canPlace_run (shape b) color row col w (Hne b Hb) Hg ltac:(lia)).
      rewrite anchor_in_bounds by (unfold ROWS, COLS; lia). simpl.
      assert (Hfit : fits_somewhere (grid w) (shape b) = false).
      { apply not_true_is_false. intros Hfit.
        rewrite <- not_true_iff_false in Hex. apply Hex.
        apply existsb_elem_of. eauto. }
      rewrite (proj1 (fits_somewhere_false _ _) Hfit row col Hr Hc). reflexivity.
    + intros H. apply not_true_is_false. intros Hex.
      apply existsb_elem_of in Hex as (b & Hb & Hfit).
      rewrite <- not_false_iff_true in Hfit. apply Hfit.
      apply fits_somewhere_false. intros row col Hr Hc.
      specialize (H b None row col Hb Hr Hc).
      rewrite (canPlace_run (shape b) None row col w (Hne b Hb) Hg ltac:(lia)) in H.
      rewrite anchor_in_bounds in H by (unfold ROWS, COLS; lia). simpl in H.
      injection H as H. by apply negb_false_iff in H.
  - intros w blockIndex row col w' E.
    destruct (tryPlaceBlock_accept_inv _ _ _ _ _ E)
      as (b & g1 & lc & w4 & news & n & any & Hover & _ & _ & _ & _ & _
          & _ & Hcase & _ & _ & Eany & ->).
    assert (Hover4 : gameOver w4 = false).
    { destruct Hcase as [[_ ->] | [_ (g2 & ->)]]; exact Hover. }
    unfold finish in *. cbv beta iota zeta in Eany.
    set (w5 := set_drawn n _) in *.
    destruct any.
    + rewrite Eany. simpl. rewrite Hover4. split; discriminate.
    + pose proof (reads_same_grid (canPlaceAny (currentBlocks w5))
                    (set_gameOver true w5) w5 (reads_canPlaceAny _) eq_refl)
        as Hsame.
      change (currentBlocks (set_gameOver true w5)) with (currentBlocks w5).
      rewrite Hsame, Eany. split; reflexivity.
Qed.

Lemma game_over_exactly_when_stuck_witness :
  (∃ any, canPlaceAny (currentBlocks almost_row) almost_row = (Ok any, almost_row) ∧
     (any = false ↔
      ∀ b color row col, b ∈ currentBlocks almost_row →
        0 ≤ row ≤ 8 - height (shape b) → 0 ≤ col ≤ 8 - width0 (shape b) →
        canPlace (shape b) color row col almost_row = (Ok false, almost_row))) ∧
  (gameOver (snd (tryPlaceBlock 0 0 0 nearly_full)) = true ↔
   fst (canPlaceAny (currentBlocks (snd (tryPlaceBlock 0 0 0 nearly_full)))
          (snd (tryPlaceBlock 0 0 0 nearly_full))) = Ok false).
Proof.
  split.
  - apply (proj1 game_over_exactly_when_stuck almost_row).
    + vm_compute. reflexivity.
    + repeat (constructor; [discriminate|]). constructor.
  - apply (proj2 game_over_exactly_when_stuck nearly_full 0 0 0).
    vm_compute. reflexivity.
Defined.

(* ------------------------------------------------------------------ *)
(** ** The bounds and overlap test *)

Lemma overlaps_spec g s row col :
  overlaps g s row col = true ↔
  ∃ r c, 0 ≤ r < height s ∧ 0 ≤ c < width0 s ∧
         truthyZ (shapeAt s r c) = true ∧
         truthy (cellAt g (row + r) (col + c)) = true.
Proof.
  unfold overlaps. rewrite existsb_seqZ. split.
  - intros (r & Hr & H). apply existsb_seqZ in H as (c & Hc & H).
    apply andb_true_iff in H as [H1 H2]. exists r, c.
    split; [exact Hr|]. split; [exact Hc|]. split; assumption.
  - intros (r & c & Hr & Hc & H1 & H2). exists r. split; [exact Hr|].
    apply existsb_seqZ. exists c. split; [exact Hc|]. by rewrite H1, H2.
Qed.

Lemma out_of_bounds_spec s row col :
  out_of_bounds s row col = true ↔ row + height s > 8 ∨ col + width0 s > 8.
Proof.
  unfold out_of_bounds, ROWS, COLS. rewrite orb_true_iff, !Z.gtb_lt. lia.
Qed.

(** C3, as the code has it.  For a catalog shape on the 8x8 grid [canPlace]
    changes nothing.  From a row [row >= 0] and any column it returns: false
    if [row + height > 8] or [col + width > 8] or some occupied cell of the
    shape lies on a truthy entry of [state.grid], true otherwise.  From a row
    [row < 0] it returns false when the shape is out of the upper bounds and
    throws a [TypeError] otherwise. *)
Theorem canPlace_bounds_overlap s color row col w :
  s ∈ SHAPES → wf_grid (grid w) = true →
  snd (canPlace s color row col w) = w ∧
  (0 ≤ row →
   ∃ b, fst (canPlace s color row col w) = Ok b ∧
     (b = false ↔
      row + height s > 8 ∨ col + width0 s > 8 ∨
      ∃ r c, 0 ≤ r < height s ∧ 0 ≤ c < width0 s ∧
             truthyZ (shapeAt s r c) = true ∧
             truthy (cellAt (grid w) (row + r) (col + c)) = true)) ∧
  (row < 0 →
   (row + height s > 8 ∨ col + width0 s > 8 →
    fst (canPlace s color row col w) = Ok false) ∧
   (row + height s ≤ 8 → col + width0 s ≤ 8 →
    fst (canPlace s color row col w) = TypeError)).
Proof.
  intros Hs Hg. pose proof (catalog_shape_nonempty s Hs) as Hne.
  split; [apply reads_unchanged, reads_canPlace|]. split.
  - intros Hrow. rewrite (canPlace_run s color row col w Hne Hg Hrow).
    eexists. split; [reflexivity|].
    rewrite negb_false_iff, orb_true_iff, out_of_bounds_spec, overlaps_spec.
    tauto.
  - intros Hrow. split.
    + intros Hoob. apply out_of_bounds_spec in Hoob.
      by rewrite (canPlace_unfold s color row col w Hne), Hoob.
    + intros Hr Hc. rewrite canPlace_negative_row; [reflexivity| |exact Hrow|].
      * pose proof catalog_first_row_occupied as H.
        rewrite Forall_forall in H. by apply H.
      * apply not_true_is_false. rewrite out_of_bounds_spec. lia.
Qed.

Lemma canPlace_bounds_overlap_witness :
  snd (canPlace [[1; 1]] None 0 6 almost_row) = almost_row ∧
  (0 ≤ 0 →
   ∃ b, fst (canPlace [[1; 1]] None 0 6 almost_row) = Ok b ∧
     (b = false ↔
      0 + height [[1; 1]] > 8 ∨ 6 + width0 [[1; 1]] > 8 ∨
      ∃ r c, 0 ≤ r < height [[1; 1]] ∧ 0 ≤ c < width0 [[1; 1]] ∧
             truthyZ (shapeAt [[1; 1]] r c) = true ∧
             truthy (cellAt (grid almost_row) (0 + r) (6 + c)) = true)) ∧
  (0 < 0 →
   (0 + height [[1; 1]] > 8 ∨ 6 + width0 [[1; 1]] > 8 →
    fst (canPlace [[1; 1]] None 0 6 almost_row) = Ok false) ∧
   (0 + height [[1; 1]] ≤ 8 → 6 + width0 [[1; 1]] ≤ 8 →
    fst (canPlace [[1; 1]] None 0 6 almost_row) = TypeError)).
Proof.
  apply (canPlace_bounds_overlap [[1; 1]] None 0 6 almost_row).
  - apply list_elem_of_In. simpl. tauto.
  - vm_compute. reflexivity.
Defined.

(** The single cell at row -1 of a fresh board: within the upper bounds and
    over no occupied cell, yet [canPlace] does not return true, it throws. *)
Lemma canPlace_row_minus_one_throws :
  [[1]] ∈ SHAPES ∧ wf_grid (grid fresh) = true ∧
  ¬ (-1 + height [[1]] > 8) ∧ ¬ (0 + width0 [[1]] > 8) ∧
  overlaps (grid fresh) [[1]] (-1) 0 = false ∧
  canPlace [[1]] None (-1) 0 fresh = (TypeError, fresh).
Proof.
  split; [apply list_elem_of_In; simpl; tauto|].
  split; [vm_compute; reflexivity|].
  split; [vm_compute; discriminate|].
  split; [vm_compute; discriminate|].
  split; vm_compute; reflexivity.
Qed.

(* ------------------------------------------------------------------ *)
(** ** The catalog and its large shapes *)

Lemma lookupZ_SHAPES_cases i s :
  lookupZ SHAPES i = Some s → 0 ≤ i < 23.
Proof. intros H. apply lookupZ_Some in H. simpl in H. lia. Qed.

Lemma large_index_test i s :
  lookupZ SHAPES i = Some s →
  bool_decide (i ∈ LARGE_SHAPE_INDICES) = (4 <=? occupied_cells s) && negb (i =? 3).
Proof.
  intros H. pose proof (lookupZ_SHAPES_cases i s H) as Hi.
  assert (Hcases : i = 0 ∨ i = 1 ∨ i = 2 ∨ i = 3 ∨ i = 4 ∨ i = 5 ∨ i = 6 ∨ i = 7 ∨
                   i = 8 ∨ i = 9 ∨ i = 10 ∨ i = 11 ∨ i = 12 ∨ i = 13 ∨ i = 14 ∨
                   i = 15 ∨ i = 16 ∨ i = 17 ∨ i = 18 ∨ i = 19 ∨ i = 20 ∨
                   i = 21 ∨ i = 22) by lia.
  repeat (destruct Hcases as [->|Hcases];
          [injection H as <-; vm_compute; reflexivity|]).
  subst i. injection H as <-. vm_compute. reflexivity.
Qed.

(** The large subset has 13 distinct entries, each the index of a catalog
    shape with 4 or more occupied cells; the only catalog shape with 4 or
    more occupied cells that it does not list is the one at index 3. *)
Lemma large_subset_contents :
  length SHAPES = 23%nat ∧
  length LARGE_SHAPE_INDICES = 13%nat ∧
  NoDup LARGE_SHAPE_INDICES ∧
  ∀ i s, lookupZ SHAPES i = Some s →
    (i ∈ LARGE_SHAPE_INDICES ↔ 4 ≤ occupied_cells s ∧ i ≠ 3).
Proof.
  split; [reflexivity|]. split; [reflexivity|]. split.
  - apply (bool_decide_unpack _). vm_compute. reflexivity.
  - intros i s H. pose proof (large_index_test i s H) as Ht.
    rewrite <- (bool_decide_spec (i ∈ LARGE_SHAPE_INDICES)), Ht.
    destruct (Z.leb_spec 4 (occupied_cells s)), (Z.eqb_spec i 3); simpl;
      intuition (try lia; try done).
Qed.

(** C8.  The catalog has 23 shapes and the large subset 13 entries, but the
    subset does not hold every catalog shape with 4 or more occupied cells:
    the 2x2 square at index 3 has 4 occupied cells and is not in it, and 14
    catalog shapes have 4 or more occupied cells. *)
Theorem square_2x2_not_large :
  length SHAPES = 23%nat ∧
  length LARGE_SHAPE_INDICES = 13%nat ∧
  lookupZ SHAPES 3 = Some [[1; 1]; [1; 1]] ∧
  occupied_cells [[1; 1]; [1; 1]] = 4 ∧
  length (List.filter is_large SHAPES) = 14%nat ∧
  3 ∉ LARGE_SHAPE_INDICES.
Proof.
  do 4 (split; [reflexivity|]). split; [vm_compute; reflexivity|].
  apply (bool_decide_unpack _). vm_compute. reflexivity.
Qed.

(* ------------------------------------------------------------------ *)
(** ** Difficulty scaling *)

Lemma level_below_250 score : 0 ≤ score < 250 → level score = 0.
Proof. intros H. unfold level. apply Z.div_small. lia. Qed.

Lemma level_from_250 score : 250 ≤ score < 500 → level score = 1.
Proof. intros H. unfold level. symmetry. apply (Z.div_unique score 250 1 (score - 250)); lia. Qed.

Lemma nearest_even_lt y n : (y + (1 # 2) < inject_Z n)%Q → nearest_even y < n.
Proof.
  intros H. destruct (nearest_even_near y) as [_ Hhi].
  rewrite Zlt_Qlt. lra.
Qed.

(** [Math.floor(score / 250)], computed on doubles, is the integer
    quotient: the rounding of the division never reaches the next
    integer. *)
Lemma level_double score :
  0 ≤ score < 2 ^ 53 →
  Qfloor (double (inject_Z score / 250)) = level score.
Proof.
  intros Hs. unfold level.
  pose proof (Z.div_mod score 250 ltac:(lia)) as Hdm.
  pose proof (Z.mod_pos_bound score 250 ltac:(lia)) as Hm.
  set (k := score / 250) in *. set (r := score mod 250) in *.
  assert (Hk : 0 ≤ k) by (apply Z.div_pos; lia).
  set (x := (inject_Z score / 250)%Q).
  assert (Ex : (x == inject_Z k + inject_Z r / 250)%Q).
  { subst x. rewrite Hdm, inject_Z_plus, inject_Z_mult. change (inject_Z 250) with 250%Q. field. }
  assert (Hr0 : (0 <= inject_Z r)%Q) by (change 0%Q with (inject_Z 0); rewrite <- Zle_Qle; lia).
  assert (Hr1 : (inject_Z r <= 249)%Q) by (change 249%Q with (inject_Z 249); rewrite <- Zle_Qle; lia).
  assert (Hk0 : (0 <= inject_Z k)%Q) by (change 0%Q with (inject_Z 0); rewrite <- Zle_Qle; lia).
  assert (HR0 : (0 <= inject_Z r / 250)%Q).
  { apply Qle_shift_div_l; [reflexivity|]. rewrite Qmult_0_l. exact Hr0. }
  assert (HR1 : (inject_Z r / 250 <= 249 # 250)%Q).
  { apply Qle_shift_div_r; [reflexivity|].
    eapply Qle_trans; [exact Hr1|]. apply Qle_bool_imp_le. reflexivity. }
  assert (Hx0 : (0 <= x)%Q).
  { rewrite Ex. set (R := (inject_Z r / 250)%Q) in *. clearbody R. lra. }
  assert (Hbound : (x < pow2 46)%Q).
  { subst x. apply Qlt_shift_div_r; [reflexivity|].
    rewrite pow2_inject by lia. change 250%Q with (inject_Z 250).
    rewrite <- inject_Z_mult, <- Zlt_Qlt. lia. }
  destruct (Qlt_le_dec 0 x) as [Hpos|Hz].
  2:{ assert (Hd : (double x == 0)%Q).
      { apply Qle_antisym; [by apply double_nonpos | by apply double_nonneg]. }
      rewrite (Qfloor_comp _ _ Hd). 
      assert (H0 : k = 0); [|rewrite H0; reflexivity].
      assert (Hk1 : (inject_Z k <= 0)%Q).
      { rewrite Ex in Hz. set (R := (inject_Z r / 250)%Q) in *. clearbody R. lra. }
      change 0%Q with (inject_Z 0) in Hk1. rewrite <- Zle_Qle in Hk1. lia. }
  set (q := ulp_exponent x).
  assert (Hq : q ≤ -7).
  { subst q. unfold ulp_exponent. rewrite (Qabs_pos_eq x Hpos).
    destruct (ilog2_spec x Hpos) as [H1 _].
    assert (ilog2 x < 46).
    { apply (Qpower_lt_compat_l_inv 2); [|reflexivity].
      fold (pow2 (ilog2 x)). fold (pow2 46). lra. }
    lia. }
  pose proof (pow2_pos q) as Hp.
  assert (Hgrid : ∀ j : Z, (inject_Z j == inject_Z (j * 2 ^ (- q)) * pow2 q)%Q).
  { intros j. rewrite inject_Z_mult, <- pow2_inject by lia.
    rewrite <- Qmult_assoc, <- pow2_add. replace (- q + q) with 0 by lia.
    change (pow2 0) with 1%Q. ring. }
  pose proof (double_eq x) as E. fold q in E.
  set (n := nearest_even (x / pow2 q)) in *.
  assert (Hlo : k * 2 ^ (- q) ≤ n).
  { apply nearest_even_ge. apply Qle_shift_div_l; [exact Hp|].
    rewrite <- Hgrid, Ex. set (R := (inject_Z r / 250)%Q) in *. clearbody R. lra. }
  assert (Hhi : n < (k + 1) * 2 ^ (- q)).
  { apply nearest_even_lt.
    assert (H128 : (128 <= inject_Z (2 ^ (- q)))%Q).
    { change 128%Q with (inject_Z (2 ^ 7)). rewrite <- Zle_Qle.
      apply Z.pow_le_mono_r; lia. }
    assert (Hone : (inject_Z (2 ^ (- q)) * pow2 q == 1)%Q).
    { rewrite <- pow2_inject, <- pow2_add by lia. by replace (- q + q) with 0 by lia. }
    rewrite inject_Z_mult, inject_Z_plus. change (inject_Z 1) with 1%Q.
    assert (Hy : (x / pow2 q == x * inject_Z (2 ^ (- q)))%Q).
    { apply Qmult_inj_r with (pow2 q); [apply pow2_nonzero|].
      rewrite div_pow2, <- Qmult_assoc, Hone. ring. }
    rewrite Hy, Ex.
    set (T := inject_Z (2 ^ (- q))) in *. set (K := inject_Z k) in *.
    set (R := (inject_Z r / 250)%Q) in *. clearbody T K R. nra. }
  assert (Hd1 : (inject_Z k <= double x)%Q).
  { rewrite E, (Hgrid k). apply Qmult_le_compat_r; [|by apply Qlt_le_weak].
    by rewrite <- Zle_Qle. }
  assert (Hd2 : (double x < inject_Z (k + 1))%Q).
  { rewrite E, (Hgrid (k + 1)). apply Qmult_lt_compat_r; [exact Hp|].
    by rewrite <- Zlt_Qlt. }
  apply Z.le_antisymm.
  - assert (Qfloor (double x) < k + 1); [|lia]. rewrite Zlt_Qlt.
    eapply Qle_lt_trans; [apply Qfloor_le | exact Hd2].
  - rewrite <- (Qfloor_Z k). apply Qfloor_resp_le. exact Hd1.
Qed.

Lemma largeChance_0 : largeChance 0 = 0%Q.
Proof. vm_compute. reflexivity. Qed.

Lemma largeChance_1 : largeChance 1 = double (8 # 100).
Proof. vm_compute. reflexivity. Qed.

(** The literal [0.08] is the double 5764607523034235 * 2^-56, a little
    above 8/100. *)
Lemma literal_0_08 :
  double (8 # 100) = 5764607523034235 # 72057594037927936 ∧
  (8 # 100 < double (8 # 100))%Q ∧
  (double (8 # 100) < (8 # 100) + pow2 (-58))%Q.
Proof.
  split; [vm_compute; reflexivity|]. split; apply Qlt_alt; vm_compute; reflexivity.
Qed.

(** C9, as the code has it.  [largeChance = floor(score / 250) * 0.08] is
    the chance of drawing from the large-only pool instead of the whole
    catalog.  Below 250 it is 0: [randomShape] makes no draw for the pool and
    takes the shape from the whole catalog with its first draw.  From 250 to
    499 it is the double 0.08: [randomShape] takes the shape from the
    large-only pool exactly when its first draw is below 0.08. *)
Theorem large_pool_chance :
  (∀ score, 0 ≤ score < 250 → largeChance (level score) == 0) ∧
  (∀ score, 250 ≤ score < 500 → largeChance (level score) == double (8 # 100)) ∧
  (∀ w, 0 ≤ score w < 250 →
     ∃ s, pick (seqZ 0 (Z.of_nat (length SHAPES)))
               (random_double (draws w (drawn w))) = Some s ∧
          randomShape w =
            (Ok (mkBlock s
                   (default c1
                      (lookupZ COLORS
                         (scale (random_double (draws w (S (drawn w))))
                                (length COLORS))))),
             set_drawn (S (S (drawn w))) w)) ∧
  (∀ w, 250 ≤ score w < 500 →
     ∃ s, pick (if Qltb (random_double (draws w (drawn w))) (double (8 # 100))
                then LARGE_SHAPE_INDICES
                else seqZ 0 (Z.of_nat (length SHAPES)))
               (random_double (draws w (S (drawn w)))) = Some s ∧
          randomShape w =
            (Ok (mkBlock s
                   (default c1
                      (lookupZ COLORS
                         (scale (random_double (draws w (S (S (drawn w)))))
                                (length COLORS))))),
             set_drawn (S (S (S (drawn w)))) w)).
Proof.
  split; [|split; [|split]].
  - intros score H. rewrite (level_below_250 score H), largeChance_0. reflexivity.
  - intros score H. rewrite (level_from_250 score H), largeChance_1. reflexivity.
  - intros w H.
    destruct (pick_defined (seqZ 0 (Z.of_nat (length SHAPES)))
                (draws w (drawn w)) ltac:(discriminate) all_indices_in_catalog)
      as (s & Hs & _).
    exists s. split; [exact Hs|].
    unfold randomShape, bind at 1, gets.
    rewrite (level_below_250 _ H), largeChance_0.
    change (Qltb 0 0) with false. cbv iota.
    unfold bind at 1, ret at 1. unfold bind at 1, Math_random at 1.
    unfold pick in Hs. rewrite Hs. reflexivity.
  - intros w H.
    set (pool := if Qltb (random_double (draws w (drawn w))) (double (8 # 100))
                 then LARGE_SHAPE_INDICES else seqZ 0 (Z.of_nat (length SHAPES))).
    assert (Hpool : pool ≠ [] ∧ Forall (λ i, 0 ≤ i < 23) pool).
    { subst pool. destruct (Qltb _ _);
        (split; [discriminate |
                 apply large_indices_in_catalog || apply all_indices_in_catalog]). }
    destruct (pick_defined pool (draws w (S (drawn w))) (proj1 Hpool) (proj2 Hpool))
      as (s & Hs & _).
    exists s. split; [exact Hs|].
    unfold randomShape, bind at 1, gets.
    rewrite (level_from_250 _ H), largeChance_1.
    replace (Qltb 0 (double (8 # 100))) with true by (vm_compute; reflexivity).
    cbv iota.
    unfold bind at 2. unfold bind at 1. unfold Math_random at 1, ret at 1.
    fold pool.
    unfold bind at 1, Math_random at 1.
    unfold pick in Hs. simpl drawn. simpl draws. rewrite Hs. reflexivity.
Qed.

(** At score 249 the random source can make [randomShape] return the 3x3
    square, a large shape of the large subset. *)
Lemma large_shape_at_249 :
  score at_249 = 249 ∧
  fst (randomShape at_249)
    = Ok (mkBlock [[1; 1; 1]; [1; 1; 1]; [1; 1; 1]] c5) ∧
  is_large [[1; 1; 1]; [1; 1; 1]; [1; 1; 1]] = true ∧
  lookupZ SHAPES 22 = Some [[1; 1; 1]; [1; 1; 1]; [1; 1; 1]] ∧
  22 ∈ LARGE_SHAPE_INDICES.
Proof.
  split; [reflexivity|]. split; [vm_compute; reflexivity|].
  split; [reflexivity|]. split; [reflexivity|].
  apply (bool_decide_unpack _). vm_compute. reflexivity.
Qed.

Lemma large_pool_chance_witness :
  largeChance (level 249) == 0 ∧
  largeChance (level 250) == double (8 # 100) ∧
  (∃ s, pick (seqZ 0 (Z.of_nat (length SHAPES)))
             (random_double (draws at_249 (drawn at_249))) = Some s ∧
        randomShape at_249 =
          (Ok (mkBlock s
                 (default c1
                    (lookupZ COLORS
                       (scale (random_double (draws at_249 (S (drawn at_249))))
                              (length COLORS))))),
           set_drawn (S (S (drawn at_249))) at_249)) ∧
  (∃ s, pick (if Qltb (random_double (draws (set_score 250 at_249)
                                            (drawn (set_score 250 at_249))))
                      (double (8 # 100))
              then LARGE_SHAPE_INDICES
              else seqZ 0 (Z.of_nat (length SHAPES)))
             (random_double (draws (set_score 250 at_249)
                                   (S (drawn (set_score 250 at_249))))) = Some s ∧
        randomShape (set_score 250 at_249) =
          (Ok (mkBlock s
                 (default c1
                    (lookupZ COLORS
                       (scale (random_double
                                 (draws (set_score 250 at_249)
                                        (S (S (drawn (set_score 250 at_249))))))
                              (length COLORS))))),
           set_drawn (S (S (S (drawn (set_score 250 at_249)))))
                     (set_score 250 at_249))).
Proof.
  destruct large_pool_chance as (H1 & H2 & H3 & H4).
  split; [apply H1; lia|]. split; [apply H2; lia|].
  split; [apply (H3 at_249); simpl; lia|].
  apply (H4 (set_score 250 at_249)). simpl. lia.
Defined.

(* ------------------------------------------------------------------ *)
(** ** Placement *)

Lemma covers_spec s row col i j :
  covers s row col i j = true ↔
  ∃ r c, 0 ≤ r < height s ∧ 0 ≤ c < width0 s ∧
         truthyZ (shapeAt s r c) = true ∧ i = row + r ∧ j = col + c.
Proof.
  unfold covers. rewrite existsb_seqZ. split.
  - intros (r & Hr & H). apply existsb_seqZ in H as (c & Hc & H).
    apply andb_true_iff in H as [H1 H2]. apply andb_true_iff in H2 as [H2 H3].
    exists r, c. split; [exact Hr|]. split; [exact Hc|]. split; [exact H1|]. lia.
  - intros (r & c & Hr & Hc & H1 & -> & ->). exists r. split; [exact Hr|].
    apply existsb_seqZ. exists c. split; [exact Hc|].
    rewrite H1, !Z.eqb_refl. reflexivity.
Qed.

(** X1.  After [canPlace] has accepted, [placeBlock] returns; the cells the shape
    covers were empty and now hold the block's colour, and every other cell,
    on or off the board, is as before. *)
Theorem placement_conservation s color row col w :
  wf_grid (grid w) = true →
  canPlace s (Some color) row col w = (Ok true, w) →
  ∃ g1, placeBlock s color row col w = (Ok tt, set_grid g1 w) ∧
        wf_grid g1 = true ∧
        ∀ i j,
          (covers s row col i j = true →
           truthy (cellAt (grid w) i j) = false ∧
           cellAt g1 i j = Some (Tag color)) ∧
          (covers s row col i j = false → cellAt g1 i j = cellAt (grid w) i j).
Proof.
  intros Hg Ecan.
  destruct (placeBlock_after_canPlace _ _ _ _ _ Hg Ecan) as (g1 & Eplace & Hwf & U).
  exists g1. split; [exact Eplace|]. split; [exact Hwf|].
  intros i j. split.
  - intros Hc. split; [|by rewrite U, Hc].
    apply covers_spec in Hc as (r & c & Hr & Hcc & Hocc & -> & ->).
    destruct (canPlace_true_inv _ _ _ _ _ _ Ecan) as (_ & _ & _ & Hcells).
    destruct (Hcells r c Hr Hcc Hocc) as (a & Ha & Ht).
    unfold cellAt. rewrite Ha. exact Ht.
  - intros Hc. by rewrite U, Hc.
Qed.

Lemma placement_conservation_witness :
  ∃ g1, placeBlock [[1; 1]] c3 1 (-1) almost_row = (Ok tt, set_grid g1 almost_row) ∧
        wf_grid g1 = true ∧
        ∀ i j,
          (covers [[1; 1]] 1 (-1) i j = true →
           truthy (cellAt (grid almost_row) i j) = false ∧
           cellAt g1 i j = Some (Tag c3)) ∧
          (covers [[1; 1]] 1 (-1) i j = false →
           cellAt g1 i j = cellAt (grid almost_row) i j).
Proof.
  apply (placement_conservation [[1; 1]] c3 1 (-1) almost_row).
  - vm_compute. reflexivity.
  - vm_compute. reflexivity.
Defined.

(* ------------------------------------------------------------------ *)
(** ** The outcome of a move *)

Lemma lookupZ_None_iff {A} (l : list A) i :
  lookupZ l i = None ↔ i < 0 ∨ Z.of_nat (length l) ≤ i.
Proof.
  split; [|apply lookupZ_None].
  intros H. destruct (Z.lt_ge_cases i 0) as [|H0]; [by left|].
  destruct (Z.lt_ge_cases i (Z.of_nat (length l))) as [Hlt|]; [|by right].
  destruct (lookupZ_is_Some l i ltac:(lia)) as [a Ha]. congruence.
Qed.

Lemma tryPlaceBlock_guard blockIndex row col w :
  gameOver w = true ∨ lookupZ (currentBlocks w) blockIndex = None →
  tryPlaceBlock blockIndex row col w = (Ok false, w).
Proof.
  intros H. unfold tryPlaceBlock, bind at 1 2, gets.
  destruct (gameOver w); [reflexivity|]. cbn [orb].
  destruct (Z.ltb_spec blockIndex 0); [reflexivity|]. cbn [orb].
  destruct (Z.geb_spec blockIndex (Z.of_nat (length (currentBlocks w))));
    [reflexivity|].
  destruct H as [H|H]; [discriminate|].
  apply lookupZ_None_iff in H. lia.
Qed.

Lemma tryPlaceBlock_not_accepted blockIndex row col w b o :
  gameOver w = false →
  lookupZ (currentBlocks w) blockIndex = Some b →
  canPlace (shape b) (Some (color b)) row col w = (o, w) →
  o ≠ Ok true →
  tryPlaceBlock blockIndex row col w =
    (match o with Ok _ => Ok false | TypeError => TypeError
                | OutOfFuel => OutOfFuel end, w).
Proof.
  intros Hover Hb Eo Hne. pose proof (lookupZ_Some _ _ _ Hb) as Hidx.
  unfold tryPlaceBlock, bind at 1 2, gets. rewrite Hover. cbn [orb].
  destruct (Z.ltb_spec blockIndex 0); [lia|]. cbn [orb].
  destruct (Z.geb_spec blockIndex (Z.of_nat (length (currentBlocks w)))); [lia|].
  rewrite Hb. unfold defined. unfold bind at 1, ret at 1.
  unfold bind at 1. rewrite Eo.
  destruct o as [[|]| |]; [done | reflexivity..].
Qed.

(** The three ways a move can go on an 8x8 grid with catalog blocks. *)
Lemma tryPlaceBlock_decided blockIndex row col w :
  wf_grid (grid w) = true →
  Forall (λ b, shape b ∈ SHAPES) (currentBlocks w) →
  ((gameOver w = true ∨ lookupZ (currentBlocks w) blockIndex = None ∨
    ∃ b, lookupZ (currentBlocks w) blockIndex = Some b ∧
         (out_of_bounds (shape b) row col = true ∨
          (0 ≤ row ∧ overlaps (grid w) (shape b) row col = true))) ∧
   tryPlaceBlock blockIndex row col w = (Ok false, w)) ∨
  ((gameOver w = false ∧
    ∃ b, lookupZ (currentBlocks w) blockIndex = Some b ∧ row < 0 ∧
         out_of_bounds (shape b) row col = false) ∧
   tryPlaceBlock blockIndex row col w = (TypeError, w)) ∨
  ((gameOver w = false ∧
    ∃ b, lookupZ (currentBlocks w) blockIndex = Some b ∧ 0 ≤ row ∧
         out_of_bounds (shape b) row col = false ∧
         overlaps (grid w) (shape b) row col = false) ∧
   ∃ w', tryPlaceBlock blockIndex row col w = (Ok true, w')).
Proof.
  intros Hg Hcat.
  destruct (gameOver w) eqn:Hover.
  { left. split; [by left | apply tryPlaceBlock_guard; by left]. }
  destruct (lookupZ (currentBlocks w) blockIndex) as [b|] eqn:Hb.
  2:{ left. split; [by right; left | apply tryPlaceBlock_guard; by right]. }
  assert (Hs : shape b ∈ SHAPES).
  { rewrite Forall_forall in Hcat. eapply Hcat, lookupZ_elem_of, Hb. }
  pose proof (catalog_shape_nonempty _ Hs) as Hne.
  destruct (out_of_bounds (shape b) row col) eqn:Hoob.
  { left. split; [right; right; exists b; split; [done | by left]|].
    rewrite (tryPlaceBlock_not_accepted blockIndex row col w b (Ok false));
      try done.
    by rewrite (canPlace_unfold _ _ _ _ _ Hne), Hoob. }
  destruct (Z.le_gt_cases 0 row) as [Hrow|Hrow].
  - pose proof (canPlace_run (shape b) (Some (color b)) row col w Hne Hg Hrow) as Ecan.
    rewrite Hoob in Ecan. simpl in Ecan.
    destruct (overlaps (grid w) (shape b) row col) eqn:Hov; simpl in Ecan.
    + left. split; [right; right; exists b; split; [done | by right]|].
      by rewrite (tryPlaceBlock_not_accepted blockIndex row col w b (Ok false)).
    + right. right. split; [split; [done|]; by exists b|].
      by eapply tryPlaceBlock_accepts.
  - right. left. split; [split; [done|]; exists b; repeat split; try done; lia|].
    rewrite (tryPlaceBlock_not_accepted blockIndex row col w b TypeError);
      try done.
    apply canPlace_negative_row; [|lia|exact Hoob].
    pose proof catalog_first_row_occupied as H.
    rewrite Forall_forall in H. by apply H.
Qed.

(** X2.  On an 8x8 grid with catalog blocks a move is accepted exactly when the
    game is not over, the index names a block, [row >= 0], the shape is within
    the upper bounds and overlaps nothing; it throws exactly when the game is
    not over, the index names a block, [row < 0] and the shape is within the
    upper bounds; otherwise it returns false.  Unless it is accepted the state
    is untouched, and the refill loop never runs out of fuel. *)
Theorem tryPlaceBlock_outcome blockIndex row col w :
  wf_grid (grid w) = true →
  Forall (λ b, shape b ∈ SHAPES) (currentBlocks w) →
  (fst (tryPlaceBlock blockIndex row col w) = Ok true ↔
   gameOver w = false ∧
   ∃ b, lookupZ (currentBlocks w) blockIndex = Some b ∧ 0 ≤ row ∧
        out_of_bounds (shape b) row col = false ∧
        overlaps (grid w) (shape b) row col = false) ∧
  (fst (tryPlaceBlock blockIndex row col w) = TypeError ↔
   gameOver w = false ∧
   ∃ b, lookupZ (currentBlocks w) blockIndex = Some b ∧ row < 0 ∧
        out_of_bounds (shape b) row col = false) ∧
  (fst (tryPlaceBlock blockIndex row col w) ≠ Ok true →
   snd (tryPlaceBlock blockIndex row col w) = w) ∧
  fst (tryPlaceBlock blockIndex row col w) ≠ OutOfFuel.
Proof.
  intros Hg Hcat.
  destruct (tryPlaceBlock_decided blockIndex row col w Hg Hcat)
    as [[HA ->] | [[[HB1 (b & Hb & Hrow & Hoob)] ->] |
        [[HC1 (b & Hb & Hrow & Hoob & Hov)] [w' ->]]]]; simpl.
  - split; [|split; [|split; [done | done]]].
    + split; [done|]. intros [Hover (b & Hb & Hrow & Hoob & Hov)].
      destruct HA as [HA | [HA | (b' & Hb' & [HA | [_ HA]])]]; congruence.
    + split; [done|]. intros [Hover (b & Hb & Hrow & Hoob)].
      destruct HA as [HA | [HA | (b' & Hb' & [HA | [HA _]])]];
        [congruence | congruence | congruence | lia].
  - split; [|split; [|split; [done | done]]].
    + split; [done|]. intros [_ (b' & Hb' & Hrow' & _)]. lia.
    + split; [|done]. intros _. split; [done|]. by exists b.
  - split; [|split; [|split; [done | done]]].
    + split; [|done]. intros _. split; [done|]. by exists b.
    + split; [done|]. intros [_ (b' & Hb' & Hrow' & _)]. lia.
Qed.

Lemma tryPlaceBlock_outcome_witness :
  (fst (tryPlaceBlock 0 (-1) 0 almost_row) = Ok true ↔
   gameOver almost_row = false ∧
   ∃ b, lookupZ (currentBlocks almost_row) 0 = Some b ∧ 0 ≤ -1 ∧
        out_of_bounds (shape b) (-1) 0 = false ∧
        overlaps (grid almost_row) (shape b) (-1) 0 = false) ∧
  (fst (tryPlaceBlock 0 (-1) 0 almost_row) = TypeError ↔
   gameOver almost_row = false ∧
   ∃ b, lookupZ (currentBlocks almost_row) 0 = Some b ∧ -1 < 0 ∧
        out_of_bounds (shape b) (-1) 0 = false) ∧
  (fst (tryPlaceBlock 0 (-1) 0 almost_row) ≠ Ok true →
   snd (tryPlaceBlock 0 (-1) 0 almost_row) = almost_row) ∧
  fst (tryPlaceBlock 0 (-1) 0 almost_row) ≠ OutOfFuel.
Proof.
  apply (tryPlaceBlock_outcome 0 (-1) 0 almost_row).
  - vm_compute. reflexivity.
  - repeat (constructor; [apply list_elem_of_In; simpl; tauto|]). constructor.
Defined.

(* ------------------------------------------------------------------ *)
(** ** Score, streak and combo over a session *)

Lemma no_full_line_lists g :
  no_full_line g ↔ full_rows g = [] ∧ full_cols g = [].
Proof.
  split.
  - intros [Hr Hc]. split.
    + apply elem_of_nil_inv. intros r Hin.
      apply elem_of_full_rows in Hin as [Hrange Hf]. rewrite Hr in Hf; done.
    + apply elem_of_nil_inv. intros c Hin.
      apply elem_of_full_cols in Hin as [Hrange Hf]. rewrite Hc in Hf; done.
  - intros [Hr Hc]. split.
    + intros r Hrange. apply not_true_is_false. intros Hf.
      assert (Hin : r ∈ full_rows g) by (by apply elem_of_full_rows).
      rewrite Hr in Hin. by apply elem_of_nil in Hin.
    + intros c Hrange. apply not_true_is_false. intros Hf.
      assert (Hin : c ∈ full_cols g) by (by apply elem_of_full_cols).
      rewrite Hc in Hin. by apply elem_of_nil in Hin.
Qed.

Lemma count_zero_iff g :
  Z.of_nat (length (full_rows g)) + Z.of_nat (length (full_cols g)) = 0 ↔
  no_full_line g.
Proof.
  rewrite no_full_line_lists. split.
  - intros H. split; apply length_zero_iff_nil; lia.
  - intros [-> ->]. reflexivity.
Qed.

Lemma pow2_ge_2 n : 1 ≤ n → 2 ≤ 2 ^ n.
Proof.
  intros H. change 2 with (2 ^ 1) at 1. apply Z.pow_le_mono_r; lia.
Qed.

(** X3.  An accepted move that clears nothing (no row and no column is full
    once the block is stamped in) raises the score by exactly 5 and leaves
    [lastMoveCleared] off; an accepted move that clears a line raises the
    score by at least 17 and sets [lastMoveCleared]. *)
Theorem accepted_move_raises_score blockIndex row col w w' :
  wf_grid (grid w) = true →
  tryPlaceBlock blockIndex row col w = (Ok true, w') →
  ∃ b g1 lc,
    lookupZ (currentBlocks w) blockIndex = Some b ∧
    updated (grid w) g1 (covers (shape b) row col) (Tag (color b)) ∧
    linesOfMove blockIndex row col w = Ok lc ∧
    (count lc = 0 ↔ no_full_line g1) ∧
    (count lc = 0 → score w' = score w + 5 ∧ lastMoveCleared w' = false) ∧
    (count lc ≠ 0 → score w + 17 ≤ score w' ∧ lastMoveCleared w' = true).
Proof.
  intros Hg E.
  destruct (accepted_move_grid _ _ _ _ _ Hg E) as (b & g1 & Hb & _ & U1 & _ & Hlines).
  eexists b, g1, _. split; [exact Hb|]. split; [exact U1|]. split; [exact Hlines|].
  split; [apply count_zero_iff|].
  destruct (accepted_move_counters _ _ _ _ _ _ E Hlines)
    as [(H0 & Hs & _ & _ & Hl) | (Hpos & Hs & _ & _ & Hl)].
  - split; [intros _; by split | intros Hne; contradiction].
  - split; [intros H0; rewrite H0 in Hpos; lia|].
    intros _. split; [|exact Hl]. pose proof (pow2_ge_2 _ Hpos).
    destruct (Z.gtb_spec (streak w) 0); lia.
Qed.

Lemma accepted_move_raises_score_witness :
  (∃ b g1 lc,
    lookupZ (currentBlocks almost_row) 0 = Some b ∧
    updated (grid almost_row) g1 (covers (shape b) 0 7) (Tag (color b)) ∧
    linesOfMove 0 0 7 almost_row = Ok lc ∧
    (count lc = 0 ↔ no_full_line g1) ∧
    (count lc = 0 →
       score (snd (tryPlaceBlock 0 0 7 almost_row)) = score almost_row + 5 ∧
       lastMoveCleared (snd (tryPlaceBlock 0 0 7 almost_row)) = false) ∧
    (count lc ≠ 0 →
       score almost_row + 17 ≤ score (snd (tryPlaceBlock 0 0 7 almost_row)) ∧
       lastMoveCleared (snd (tryPlaceBlock 0 0 7 almost_row)) = true)) ∧
  (∃ b g1 lc,
    lookupZ (currentBlocks almost_row) 0 = Some b ∧
    updated (grid almost_row) g1 (covers (shape b) 3 3) (Tag (color b)) ∧
    linesOfMove 0 3 3 almost_row = Ok lc ∧
    (count lc = 0 ↔ no_full_line g1) ∧
    (count lc = 0 →
       score (snd (tryPlaceBlock 0 3 3 almost_row)) = score almost_row + 5 ∧
       lastMoveCleared (snd (tryPlaceBlock 0 3 3 almost_row)) = false) ∧
    (count lc ≠ 0 →
       score almost_row + 17 ≤ score (snd (tryPlaceBlock 0 3 3 almost_row)) ∧
       lastMoveCleared (snd (tryPlaceBlock 0 3 3 almost_row)) = true)).
Proof.
  split.
  - apply (accepted_move_raises_score 0 0 7 almost_row
             (snd (tryPlaceBlock 0 0 7 almost_row)));
      vm_compute; reflexivity.
  - apply (accepted_move_raises_score 0 3 3 almost_row
             (snd (tryPlaceBlock 0 3 3 almost_row)));
      vm_compute; reflexivity.
Defined.

Example accepted_move_scores :
  linesOfMove 0 0 7 almost_row = Ok (mkLines 1 [0] []) ∧
  score (snd (tryPlaceBlock 0 0 7 almost_row)) = score almost_row + 57 ∧
  linesOfMove 0 3 3 almost_row = Ok (mkLines 0 [] []) ∧
  score (snd (tryPlaceBlock 0 3 3 almost_row)) = score almost_row + 5.
Proof. do 3 (split; [vm_compute; reflexivity|]). vm_compute. reflexivity. Qed.

Lemma length_in_interval (l : list Z) a n :
  NoDup l → (∀ x, x ∈ l → a ≤ x < a + n) → Z.of_nat (length l) ≤ Z.max 0 n.
Proof.
  intros Hnd Hin.
  assert (Hsub : l ⊆+ seqZ a n).
  { apply NoDup_submseteq; [exact Hnd|]. intros x Hx. apply elem_of_seqZ.
    specialize (Hin x Hx). lia. }
  apply submseteq_length in Hsub. rewrite length_seqZ in Hsub. lia.
Qed.

Lemma covers_outside_rows s row col i j :
  ¬ (row ≤ i < row + height s) → covers s row col i j = false.
Proof.
  intros H. apply not_true_is_false. intros Hc.
  apply covers_spec in Hc as (r & c & Hr & _ & _ & -> & _). lia.
Qed.

Lemma covers_outside_cols s row col i j :
  ¬ (col ≤ j < col + width0 s) → covers s row col i j = false.
Proof.
  intros H. apply not_true_is_false. intros Hc.
  apply covers_spec in Hc as (r & c & _ & Hcc & _ & _ & ->). lia.
Qed.

(** A line that is full after stamping, on a grid that had no full line,
    passes through the stamped block. *)
Lemma full_lines_touch_block g g1 s row col v :
  no_full_line g → updated g g1 (covers s row col) v →
  (∀ r, r ∈ full_rows g1 → row ≤ r < row + height s) ∧
  (∀ c, c ∈ full_cols g1 → col ≤ c < col + width0 s) ∧
  Z.of_nat (length (full_rows g1)) + Z.of_nat (length (full_cols g1))
    ≤ height s + width0 s.
Proof.
  intros [Hnr Hnc] [_ U].
  assert (Hr : ∀ r, r ∈ full_rows g1 → row ≤ r < row + height s).
  { intros r Hin. apply elem_of_full_rows in Hin as [Hrange Hfull].
    destruct (decide (row ≤ r < row + height s)) as [|Hout]; [done|].
    exfalso. assert (Heq : row_full g1 r = row_full g r).
    { unfold row_full. apply forallb_ext_in. intros c _.
      by rewrite U, (covers_outside_rows _ _ _ _ _ Hout). }
    rewrite Heq, (Hnr r Hrange) in Hfull. discriminate. }
  assert (Hc : ∀ c, c ∈ full_cols g1 → col ≤ c < col + width0 s).
  { intros c Hin. apply elem_of_full_cols in Hin as [Hrange Hfull].
    destruct (decide (col ≤ c < col + width0 s)) as [|Hout]; [done|].
    exfalso. assert (Heq : col_full g1 c = col_full g c).
    { unfold col_full. apply forallb_ext_in. intros r _.
      by rewrite U, (covers_outside_cols _ _ _ _ _ Hout). }
    rewrite Heq, (Hnc c Hrange) in Hfull. discriminate. }
  split; [exact Hr|]. split; [exact Hc|].
  pose proof (length_in_interval (full_rows g1) row (height s)
                ltac:(apply NoDup_filter, NoDup_seqZ) Hr).
  pose proof (length_in_interval (full_cols g1) col (width0 s)
                ltac:(apply NoDup_filter, NoDup_seqZ) Hc).
  assert (0 ≤ height s) by (unfold height; lia).
  assert (0 ≤ width0 s) by (destruct s; simpl; lia).
  lia.
Qed.

Lemma accepted_move_lines_touch blockIndex row col w w' lc :
  wf_grid (grid w) = true → no_full_line (grid w) →
  tryPlaceBlock blockIndex row col w = (Ok true, w') →
  linesOfMove blockIndex row col w = Ok lc →
  ∃ b, lookupZ (currentBlocks w) blockIndex = Some b ∧
    (∀ r, r ∈ rows lc → row ≤ r < row + height (shape b)) ∧
    (∀ c, c ∈ cols lc → col ≤ c < col + width0 (shape b)) ∧
    count lc ≤ height (shape b) + width0 (shape b).
Proof.
  intros Hg Hnf E Hlc.
  destruct (accepted_move_grid _ _ _ _ _ Hg E)
    as (b & g1 & Hb & _ & U1 & _ & Hlines).
  rewrite Hlines in Hlc. injection Hlc as <-. simpl.
  exists b. split; [exact Hb|].
  exact (full_lines_touch_block _ _ _ _ _ _ Hnf U1).
Qed.

(** X4.  In a state without a full line (every state of a session), the lines an
    accepted move clears all pass through the placed block: the cleared rows
    lie in [row, row + height), the cleared columns in [col, col + width),
    and their number is at most height + width. *)
Theorem cleared_lines_touch_block blockIndex row col w w' lc :
  wf_grid (grid w) = true → no_full_line (grid w) →
  tryPlaceBlock blockIndex row col w = (Ok true, w') →
  linesOfMove blockIndex row col w = Ok lc →
  ∃ b, lookupZ (currentBlocks w) blockIndex = Some b ∧
    (∀ r, r ∈ rows lc → row ≤ r < row + height (shape b)) ∧
    (∀ c, c ∈ cols lc → col ≤ c < col + width0 (shape b)) ∧
    count lc ≤ height (shape b) + width0 (shape b).
Proof. apply accepted_move_lines_touch. Qed.

Lemma almost_cross_no_full_line : no_full_line (grid almost_cross).
Proof.
  split; intros i Hi; apply in_range_cases in Hi;
    repeat (destruct Hi as [->|Hi]; [reflexivity|]); subst i; reflexivity.
Qed.

Lemma cleared_lines_touch_block_witness :
  ∃ b, lookupZ (currentBlocks almost_cross) 0 = Some b ∧
    (∀ r, r ∈ rows (mkLines 2 [0] [7]) → 0 ≤ r < 0 + height (shape b)) ∧
    (∀ c, c ∈ cols (mkLines 2 [0] [7]) → 7 ≤ c < 7 + width0 (shape b)) ∧
    count (mkLines 2 [0] [7]) ≤ height (shape b) + width0 (shape b).
Proof.
  apply (cleared_lines_touch_block 0 0 7 almost_cross
           (snd (tryPlaceBlock 0 0 7 almost_cross))).
  - vm_compute. reflexivity.
  - exact almost_cross_no_full_line.
  - vm_compute. reflexivity.
  - vm_compute. reflexivity.
Defined.

Lemma catalog_extent (s : list (list Z)) :
  s ∈ SHAPES → height s + width0 s ≤ 6.
Proof.
  intros Hs.
  assert (H : Forall (λ s : list (list Z), height s + width0 s ≤ 6) SHAPES).
  { repeat (constructor; [vm_compute; discriminate|]). constructor. }
  rewrite Forall_forall in H. by apply H.
Qed.

Lemma Counters_accepted blockIndex row col w w' :
  Inv w → Counters w →
  tryPlaceBlock blockIndex row col w = (Ok true, w') → Counters w'.
Proof.
  intros (Hg & _ & Hcat & Hnf) (Hsc & Hst & Hco & _ & _) E.
  destruct (accepted_move_has_lines _ _ _ _ _ E) as (lc & Hlc & _).
  destruct (accepted_move_lines_touch _ _ _ _ _ _ Hg Hnf E Hlc)
    as (b & Hb & _ & _ & Hcount).
  assert (Hs : shape b ∈ SHAPES).
  { rewrite Forall_forall in Hcat. eapply Hcat, lookupZ_elem_of, Hb. }
  pose proof (catalog_extent _ Hs).
  destruct (accepted_move_counters _ _ _ _ _ _ E Hlc)
    as [(_ & Hs' & Hc' & Hk' & Hl') | (Hpos & Hs' & Hc' & Hk' & Hl')];
    unfold Counters; rewrite Hs', Hc', Hk', Hl'.
  - repeat split; try lia; intros; (discriminate || lia).
  - pose proof (pow2_ge_2 _ Hpos).
    repeat split; try lia; try done.
    destruct (Z.gtb_spec (streak w) 0); lia.
Qed.

Lemma reachable_Counters w : reachable w → Counters w.
Proof.
  induction 1 as [rnd n w E | w w' _ IH E | w blockIndex row col o w' Hr IH E
                  | w k _ IH | w k _ IH].
  - destruct (getThreeBlocks_run
                (set_grid ((λ _, arr_fill COLS Zero) <$> seqZ 0 ROWS) (state0 rnd n)))
      as (b0 & b1 & b2 & n' & E' & _).
    unfold init, initGrid in E. unfold bind at 1, modify at 1 in E.
    rewrite (bind_run _ _ _ _ _ E') in E. injection E as <-.
    unfold Counters. simpl. repeat split; try lia; intros; (discriminate || lia).
  - destruct (getThreeBlocks_run
                (set_grid ((λ _, arr_fill COLS Zero) <$> seqZ 0 ROWS) w))
      as (b0 & b1 & b2 & n' & E' & _).
    unfold doRestart, initGrid in E. unfold bind at 1, modify at 1 in E.
    rewrite (bind_run _ _ _ _ _ E') in E. injection E as <-.
    unfold Counters. simpl. repeat split; try lia; intros; (discriminate || lia).
  - pose proof (reachable_Inv _ Hr) as HI.
    destruct HI as (Hg & Hlen & Hcat & Hnf).
    destruct (tryPlaceBlock_cases blockIndex row col w Hg Hcat)
      as [E' | [[_ E'] | [w'' E']]]; rewrite E' in E; injection E as <- <-;
      [exact IH | exact IH |].
    eapply Counters_accepted; [|exact IH|exact E'].
    exact (conj Hg (conj Hlen (conj Hcat Hnf))).
  - exact IH.
  - exact IH.
Qed.

(** Moves made one after the other stay within the session. *)
Lemma reachable_play moves w : reachable w → reachable (play moves w).
Proof.
  revert w. induction moves as [|[[b r] c] moves IH]; intros w Hw; [exact Hw|].
  apply IH. apply (reach_move w b r c (fst (tryPlaceBlock b r c w))); [exact Hw|].
  apply surjective_pairing.
Qed.

(** Eight single cells on row 0 of a fresh board: the eighth move clears
    the row. *)
Example after_clear_state :
  score after_clear = 52 ∧ streak after_clear = 1 ∧ combo after_clear = 1 ∧
  lastMoveCleared after_clear = true ∧ grid after_clear = empty_grid ∧
  tryPlaceBlock 0 0 7 (play [(0, 0, 0); (0, 0, 1); (0, 0, 2); (0, 0, 3);
                             (0, 0, 4); (0, 0, 5); (0, 0, 6)] fresh)
    = (Ok true, after_clear).
Proof. do 5 (split; [vm_compute; reflexivity|]). vm_compute. reflexivity. Qed.

(** X5.  In every state of a session the score and the streak are non-negative,
    the combo is between 0 and 6, and [lastMoveCleared], [streak >= 1] and
    [combo >= 1] hold together or not at all. *)
Theorem session_counters w :
  reachable w →
  0 ≤ score w ∧ 0 ≤ streak w ∧ 0 ≤ combo w ≤ 6 ∧
  (lastMoveCleared w = true ↔ 1 ≤ streak w) ∧
  (lastMoveCleared w = true ↔ 1 ≤ combo w).
Proof. apply reachable_Counters. Qed.

Lemma session_counters_witness :
  0 ≤ score after_clear ∧ 0 ≤ streak after_clear ∧ 0 ≤ combo after_clear ≤ 6 ∧
  (lastMoveCleared after_clear = true ↔ 1 ≤ streak after_clear) ∧
  (lastMoveCleared after_clear = true ↔ 1 ≤ combo after_clear).
Proof.
  apply (session_counters after_clear).
  apply reachable_play.
  apply (reach_init (λ _, 0%Q) 0). vm_compute. reflexivity.
Defined.

(* ------------------------------------------------------------------ *)
(** ** Restart and the game-over flag *)

Lemma catalog_fits_empty_board :
  Forall (λ s : list (list Z), fits_somewhere empty_grid s = true) SHAPES.
Proof. repeat (constructor; [vm_compute; reflexivity|]). constructor. Qed.

Lemma canPlaceAny_empty_board (bs : list Block) w :
  grid w = empty_grid → bs ≠ [] → Forall (λ b, shape b ∈ SHAPES) bs →
  canPlaceAny bs w = (Ok true, w).
Proof.
  intros Hg Hne Hcat.
  rewrite canPlaceAny_run;
    [|rewrite Hg; exact empty_grid_wf | by apply blocks_nonempty].
  rewrite Hg. destruct bs as [|b bs]; [done|]. simpl.
  apply Forall_cons in Hcat as [Hb _].
  pose proof catalog_fits_empty_board as H. rewrite Forall_forall in H.
  by rewrite (H _ Hb).
Qed.

Lemma empty_grid_cells r c :
  0 ≤ r < 8 → 0 ≤ c < 8 → cellAt empty_grid r c = Some Zero.
Proof.
  intros Hr Hc. apply in_range_cases in Hr. apply in_range_cases in Hc.
  repeat (destruct Hr as [->|Hr];
          [repeat (destruct Hc as [->|Hc]; [reflexivity|]); subst c; reflexivity|]).
  subst r. repeat (destruct Hc as [->|Hc]; [reflexivity|]); subst c; reflexivity.
Qed.

(** X6.  [doRestart] returns from every state, game over or not, whatever the
    random source: the board is empty, score, combo and streak are 0, the
    flags are off, nothing is selected or dragged, there are 3 catalog
    blocks, and [canPlaceAny] holds for them, so the new game is not stuck. *)
Theorem restart_resets w :
  ∃ w', doRestart w = (Ok tt, w') ∧
    (∀ r c, 0 ≤ r < 8 → 0 ≤ c < 8 → cellAt (grid w') r c = Some Zero) ∧
    wf_grid (grid w') = true ∧
    score w' = 0 ∧ combo w' = 0 ∧ streak w' = 0 ∧
    lastMoveCleared w' = false ∧ gameOver w' = false ∧
    selectedBlockIndex w' = -1 ∧ draggingBlockIndex w' = -1 ∧
    length (currentBlocks w') = 3%nat ∧
    Forall (λ b, shape b ∈ SHAPES) (currentBlocks w') ∧
    canPlaceAny (currentBlocks w') w' = (Ok true, w').
Proof.
  unfold doRestart, initGrid. unfold bind at 1, modify at 1.
  destruct (getThreeBlocks_run
              (set_grid ((λ _, arr_fill COLS Zero) <$> seqZ 0 ROWS) w))
    as (b0 & b1 & b2 & n' & E & H).
  rewrite (bind_run _ _ _ _ _ E). eexists. split; [reflexivity|]. simpl.
  split; [exact empty_grid_cells|]. split; [exact empty_grid_wf|].
  repeat (split; [reflexivity|]). split; [exact H|].
  by apply canPlaceAny_empty_board.
Qed.

Lemma restart_resets_aux w :
  ∃ w', doRestart w = (Ok tt, w') ∧ gameOver w' = false ∧
        canPlaceAny (currentBlocks w') w' = (Ok true, w').
Proof.
  unfold doRestart, initGrid. unfold bind at 1, modify at 1.
  destruct (getThreeBlocks_run
              (set_grid ((λ _, arr_fill COLS Zero) <$> seqZ 0 ROWS) w))
    as (b0 & b1 & b2 & n' & E & H).
  rewrite (bind_run _ _ _ _ _ E). eexists. split; [reflexivity|]. simpl.
  split; [reflexivity|]. by apply canPlaceAny_empty_board.
Qed.

Lemma accepted_move_game_over blockIndex row col w w' :
  tryPlaceBlock blockIndex row col w = (Ok true, w') →
  (gameOver w' = true ↔ fst (canPlaceAny (currentBlocks w') w') = Ok false).
Proof.
  intros E.
  destruct (tryPlaceBlock_accept_inv _ _ _ _ _ E)
    as (b & g1 & lc & w4 & news & n & any & Hover & _ & _ & _ & _ & _
        & _ & Hcase & _ & _ & Eany & ->).
  assert (Hover4 : gameOver w4 = false).
  { destruct Hcase as [[_ ->] | [_ (g2 & ->)]]; exact Hover. }
  unfold finish in *. cbv beta iota zeta in Eany.
  set (w5 := set_drawn n _) in *.
  destruct any.
  - rewrite Eany. simpl. rewrite Hover4. split; discriminate.
  - pose proof (reads_same_grid (canPlaceAny (currentBlocks w5))
                  (set_gameOver true w5) w5 (reads_canPlaceAny _) eq_refl)
      as Hsame.
    change (currentBlocks (set_gameOver true w5)) with (currentBlocks w5).
    rewrite Hsame, Eany. split; reflexivity.
Qed.

Lemma init_state rnd n w :
  init (state0 rnd n) = (Ok tt, w) →
  grid w = empty_grid ∧ gameOver w = false ∧
  length (currentBlocks w) = 3%nat ∧
  Forall (λ b, shape b ∈ SHAPES) (currentBlocks w).
Proof.
  unfold init, initGrid. unfold bind at 1, modify at 1.
  destruct (getThreeBlocks_run
              (set_grid ((λ _, arr_fill COLS Zero) <$> seqZ 0 ROWS) (state0 rnd n)))
    as (b0 & b1 & b2 & n' & E & H).
  rewrite (bind_run _ _ _ _ _ E). intros [= <-]. by repeat split.
Qed.

Lemma reachable_flag w :
  reachable w →
  (gameOver w = true ↔ fst (canPlaceAny (currentBlocks w) w) = Ok false).
Proof.
  induction 1 as [rnd n w E | w w' _ IH E | w blockIndex row col o w' Hr IH E
                  | w k _ IH | w k _ IH].
  - destruct (init_state _ _ _ E) as (Hg & Hover & Hlen & Hcat).
    rewrite canPlaceAny_empty_board, Hover;
      [split; discriminate | exact Hg | | exact Hcat].
    intros Hnil. by rewrite Hnil in Hlen.
  - destruct (restart_resets_aux w) as (w0 & E0 & Hover & Hany).
    rewrite E0 in E. injection E as <-. rewrite Hany, Hover. split; discriminate.
  - destruct (reachable_Inv _ Hr) as (Hg & Hlen & Hcat & Hnf).
    destruct (tryPlaceBlock_cases blockIndex row col w Hg Hcat)
      as [E' | [[_ E'] | [w'' E']]]; rewrite E' in E; injection E as <- <-;
      [exact IH | exact IH |].
    by eapply accepted_move_game_over.
  - change (currentBlocks (set_selectedBlockIndex k w)) with (currentBlocks w).
    change (gameOver (set_selectedBlockIndex k w)) with (gameOver w).
    rewrite (reads_same_grid (canPlaceAny (currentBlocks w))
               (set_selectedBlockIndex k w) w (reads_canPlaceAny _) eq_refl).
    exact IH.
  - change (currentBlocks (set_draggingBlockIndex k w)) with (currentBlocks w).
    change (gameOver (set_draggingBlockIndex k w)) with (gameOver w).
    rewrite (reads_same_grid (canPlaceAny (currentBlocks w))
               (set_draggingBlockIndex k w) w (reads_canPlaceAny _) eq_refl).
    exact IH.
Qed.

(** X7.  In every state of a session the [gameOver] flag is set exactly when
    [canPlaceAny] is false for the current blocks. *)
Theorem game_over_flag_tracks_canPlaceAny w :
  reachable w →
  (gameOver w = true ↔ fst (canPlaceAny (currentBlocks w) w) = Ok false).
Proof. apply reachable_flag. Qed.

Lemma game_over_flag_tracks_canPlaceAny_witness :
  gameOver (snd (tryPlaceBlock 0 0 0 fresh)) = true ↔
  fst (canPlaceAny (currentBlocks (snd (tryPlaceBlock 0 0 0 fresh)))
         (snd (tryPlaceBlock 0 0 0 fresh))) = Ok false.
Proof.
  apply (game_over_flag_tracks_canPlaceAny (snd (tryPlaceBlock 0 0 0 fresh))).
  apply (reach_move fresh 0 0 0 (Ok true)).
  - apply (reach_init (λ _, 0%Q) 0). vm_compute. reflexivity.
  - vm_compute. reflexivity.
Defined.

(** X8.  When [canPlaceAny] is false for the current blocks, every move at a cell
    of the board or beyond its lower and right edges ([row >= 0], [col >= 0])
    is rejected and changes nothing, whatever the [gameOver] flag says. *)
Theorem stuck_rejects_moves w :
  wf_grid (grid w) = true →
  Forall (λ b, shape b ∈ SHAPES) (currentBlocks w) →
  fst (canPlaceAny (currentBlocks w) w) = Ok false →
  ∀ blockIndex row col, 0 ≤ row → 0 ≤ col →
    tryPlaceBlock blockIndex row col w = (Ok false, w).
Proof.
  intros Hg Hcat Hstuck blockIndex row col Hrow Hcol.
  destruct (tryPlaceBlock_decided blockIndex row col w Hg Hcat)
    as [[_ E] | [[[_ (b & _ & Hneg & _)] _] |
        [[_ (b & Hb & _ & Hoob & Hov)] _]]]; [exact E | lia |].
  exfalso.
  rewrite (canPlaceAny_run _ _ Hg (blocks_nonempty _ Hcat)) in Hstuck.
  simpl in Hstuck. injection Hstuck as Hstuck.
  rewrite <- not_true_iff_false in Hstuck. apply Hstuck.
  apply existsb_elem_of. exists b. split; [eapply lookupZ_elem_of, Hb|].
  unfold out_of_bounds, ROWS, COLS in Hoob.
  apply orb_false_iff in Hoob as [Hr Hc].
  unfold fits_somewhere, ROWS, COLS.
  apply existsb_seqZ. exists row. split; [lia|].
  apply existsb_seqZ. exists col. split; [lia|]. by rewrite Hov.
Qed.

Lemma stuck_rejects_moves_witness :
  tryPlaceBlock 1 6 1
    (set_gameOver false (snd (tryPlaceBlock 0 0 0 nearly_full)))
  = (Ok false, set_gameOver false (snd (tryPlaceBlock 0 0 0 nearly_full))).
Proof.
  apply (stuck_rejects_moves
           (set_gameOver false (snd (tryPlaceBlock 0 0 0 nearly_full)))).
  - vm_compute. reflexivity.
  - apply (bool_decide_unpack _). vm_compute. reflexivity.
  - vm_compute. reflexivity.
  - lia.
  - lia.
Defined.

(* ------------------------------------------------------------------ *)
(** ** The game-over scan over several blocks *)

(** X9.  [canPlaceAny] of no block is false, and [canPlaceAny] of a concatenation
    is the disjunction of the answers for its parts, in either order. *)
Theorem canPlaceAny_append w bs1 bs2 :
  wf_grid (grid w) = true →
  Forall (λ b, shape b ≠ []) bs1 → Forall (λ b, shape b ≠ []) bs2 →
  canPlaceAny [] w = (Ok false, w) ∧
  ∃ a1 a2,
    canPlaceAny bs1 w = (Ok a1, w) ∧ canPlaceAny bs2 w = (Ok a2, w) ∧
    canPlaceAny (bs1 ++ bs2) w = (Ok (a1 || a2), w) ∧
    canPlaceAny (bs2 ++ bs1) w = (Ok (a1 || a2), w).
Proof.
  intros Hg H1 H2. split; [reflexivity|].
  eexists _, _. split; [by apply canPlaceAny_run|].
  split; [by apply canPlaceAny_run|].
  rewrite !canPlaceAny_run by (try apply Forall_app; done).
  rewrite !existsb_app. split; [reflexivity|]. by rewrite orb_comm.
Qed.

Lemma canPlaceAny_append_witness :
  canPlaceAny [] nearly_full = (Ok false, nearly_full) ∧
  ∃ a1 a2,
    canPlaceAny [mkBlock [[1]] c2] nearly_full = (Ok a1, nearly_full) ∧
    canPlaceAny [mkBlock [[1]; [1]] c4] nearly_full = (Ok a2, nearly_full) ∧
    canPlaceAny ([mkBlock [[1]] c2] ++ [mkBlock [[1]; [1]] c4]) nearly_full
      = (Ok (a1 || a2), nearly_full) ∧
    canPlaceAny ([mkBlock [[1]; [1]] c4] ++ [mkBlock [[1]] c2]) nearly_full
      = (Ok (a1 || a2), nearly_full).
Proof.
  apply (canPlaceAny_append nearly_full).
  - vm_compute. reflexivity.
  - repeat (constructor; [discriminate|]). constructor.
  - repeat (constructor; [discriminate|]). constructor.
Defined.

(* ------------------------------------------------------------------ *)
(** ** [clearLines] on its own *)

(** X10.  On an 8x8 grid [clearLines] returns; it reports no line exactly when no
    row and no column is full, and then it changes nothing: score, streak,
    combo and [lastMoveCleared] are left to the caller. *)
Theorem clearLines_noop_iff w :
  wf_grid (grid w) = true →
  ∃ lc w', clearLines w = (Ok lc, w') ∧
    (count lc = 0 ↔ no_full_line (grid w)) ∧
    (count lc = 0 → rows lc = [] ∧ cols lc = [] ∧ w' = w).
Proof.
  intros Hg. destruct (clearLines_total w Hg) as (w' & E & _ & Hw').
  eexists _, w'. split; [exact E|]. simpl. split; [apply count_zero_iff|].
  intros Hz. rewrite Hz in Hw'. simpl in Hw'.
  apply count_zero_iff, no_full_line_lists in Hz as [-> ->]. by repeat split.
Qed.

Lemma clearLines_noop_iff_witness :
  ∃ lc w', clearLines almost_row = (Ok lc, w') ∧
    (count lc = 0 ↔ no_full_line (grid almost_row)) ∧
    (count lc = 0 → rows lc = [] ∧ cols lc = [] ∧ w' = almost_row).
Proof.
  apply (clearLines_noop_iff almost_row). vm_compute. reflexivity.
Defined.

(** X11.  Calling [clearLines] again right after [clearLines] finds nothing and
    changes nothing: one call clears all there is to clear. *)
Theorem clearLines_twice w lc w1 :
  wf_grid (grid w) = true →
  clearLines w = (Ok lc, w1) →
  clearLines w1 = (Ok (mkLines 0 [] []), w1).
Proof.
  intros Hg E. destruct (clearLines_total w Hg) as (w1' & E' & U & _).
  rewrite E in E'. injection E' as _ <-.
  pose proof (cleared_no_full_line _ _ Hg U) as Hnf.
  destruct (clearLines_total w1 (proj1 U)) as (w2 & E2 & _ & Hw2).
  pose proof (proj2 (count_zero_iff _) Hnf) as Hz.
  apply no_full_line_lists in Hnf as [Hr Hc].
  rewrite Hz in Hw2. simpl in Hw2. subst w2.
  rewrite E2, Hr, Hc. reflexivity.
Qed.

Lemma clearLines_twice_witness :
  clearLines (snd (clearLines
                     (snd (placeBlock [[1]] c2 0 7 almost_cross))))
  = (Ok (mkLines 0 [] []),
     snd (clearLines (snd (placeBlock [[1]] c2 0 7 almost_cross)))).
Proof.
  apply (clearLines_twice (snd (placeBlock [[1]] c2 0 7 almost_cross))
           (mkLines 2 [0] [7])).
  - vm_compute. reflexivity.
  - vm_compute. reflexivity.
Defined.

(* ------------------------------------------------------------------ *)
(** ** Block generation at every score *)

Lemma randomShape_unfold w :
  randomShape w =
    let lc := largeChance (level (score w)) in
    let d := drawn w in
    let all := seqZ 0 (Z.of_nat (length SHAPES)) in
    if Qltb 0 lc then
      match pick (if Qltb (random_double (draws w d)) lc then LARGE_SHAPE_INDICES else all)
                 (random_double (draws w (S d))) with
      | Some s =>
          (Ok (mkBlock s
                 (default c1
                    (lookupZ COLORS
                       (scale (random_double (draws w (S (S d)))) (length COLORS))))),
           set_drawn (S (S (S d))) w)
      | None => (TypeError, set_drawn (S (S d)) w)
      end
    else
      match pick all (random_double (draws w d)) with
      | Some s =>
          (Ok (mkBlock s
                 (default c1
                    (lookupZ COLORS
                       (scale (random_double (draws w (S d))) (length COLORS))))),
           set_drawn (S (S d)) w)
      | None => (TypeError, set_drawn (S d) w)
      end.
Proof.
  unfold randomShape, bind at 1, gets. cbv zeta.
  destruct (Qltb 0 (largeChance (level (score w)))).
  - unfold bind at 2. unfold bind at 1. unfold Math_random at 1, ret at 1.
    unfold bind at 1, Math_random at 1. unfold pick.
    simpl drawn. simpl draws.
    destruct (_ ≫= lookupZ SHAPES); reflexivity.
  - unfold bind at 1, ret at 1. unfold bind at 1, Math_random at 1. unfold pick.
    destruct (_ ≫= lookupZ SHAPES); reflexivity.
Qed.

Lemma literal_0_08_near :
  (8 # 100 <= double (8 # 100))%Q ∧
  (double (8 # 100) <= (8 # 100) * (1 + pow2 (-53)))%Q.
Proof. split; apply Qle_bool_imp_le; vm_compute; reflexivity. Qed.

Lemma tier_product k : 1 ≤ k → (8 # 100 <= inject_Z k * double (8 # 100))%Q.
Proof.
  intros Hk. destruct literal_0_08_near as [Hd _].
  rewrite Zle_Qle in Hk. change (inject_Z 1) with 1%Q in Hk.
  set (K := inject_Z k) in *. set (D := double (8 # 100)) in *. clearbody K D. nra.
Qed.

(** [largeChance] is [0.08 * k] up to the two roundings of the product. *)
Lemma largeChance_near k :
  1 ≤ k →
  ((8 * k # 100) * (1 - pow2 (-51)) <= largeChance k)%Q ∧
  (largeChance k <= (8 * k # 100) * (1 + pow2 (-51)))%Q.
Proof.
  intros Hk. pose proof (tier_product k Hk) as Hx.
  destruct rounding_units as (Hc0 & Hc & _ & _ & Hmin).
  destruct (double_rel (inject_Z k * double (8 # 100)) ltac:(lra)) as [H1 H2].
  fold (largeChance k) in H1, H2.
  destruct literal_0_08_near as [Hd1 Hd2].
  assert (Hk8 : ((8 * k # 100) == inject_Z k * (8 # 100))%Q).
  { unfold Qeq. simpl. lia. }
  assert (H4 : (pow2 (-51) == 4 * pow2 (-53))%Q).
  { change (-51) with (2 + -53). rewrite pow2_add. reflexivity. }
  rewrite Hk8, H4.
  rewrite Zle_Qle in Hk. change (inject_Z 1) with 1%Q in Hk.
  set (K := inject_Z k) in *. set (D := double (8 # 100)) in *.
  set (c := pow2 (-53)) in *. set (l := largeChance k) in *. clearbody K D c l.
  assert (Ha : (K * D <= K * ((8 # 100) * (1 + c)))%Q) by nra.
  assert (Hb : (K * (8 # 100) <= K * D)%Q) by nra.
  split; nra.
Qed.

Lemma largeChance_nonpos k : k ≤ 0 → (largeChance k <= 0)%Q.
Proof.
  intros Hk. apply double_nonpos. destruct literal_0_08_near as [Hd _].
  rewrite Zle_Qle in Hk. change (inject_Z 0) with 0%Q in Hk.
  set (K := inject_Z k) in *. set (D := double (8 # 100)) in *. clearbody K D. nra.
Qed.

Lemma largeChance_pos k : 1 ≤ k → (0 < largeChance k)%Q.
Proof.
  intros Hk. destruct (largeChance_near k Hk) as [Hlo _].
  assert (H4 : (pow2 (-51) <= 1 # 2)%Q) by (apply (pow2_le (-51) (-1)); lia).
  assert (Hk8 : ((8 * k # 100) == inject_Z k * (8 # 100))%Q).
  { unfold Qeq. simpl. lia. }
  rewrite Hk8 in Hlo.
  rewrite Zle_Qle in Hk. change (inject_Z 1) with 1%Q in Hk.
  set (K := inject_Z k) in *. set (c := pow2 (-51)) in *.
  set (l := largeChance k) in *. clearbody K c l. nra.
Qed.

Lemma Qltb_0_largeChance k : Qltb 0 (largeChance k) = (1 <=? k).
Proof.
  unfold Qltb. destruct (Z.leb_spec 1 k) as [Hk|Hk].
  - apply negb_true_iff, not_true_is_false. intros H.
    apply Qle_bool_imp_le in H. pose proof (largeChance_pos k Hk). lra.
  - apply negb_false_iff, Qle_bool_iff, largeChance_nonpos. lia.
Qed.

Lemma level_ge_1 score : 1 ≤ level score ↔ 250 ≤ score.
Proof.
  unfold level. split; intros H.
  - destruct (Z.lt_ge_cases score 250) as [Hlt|]; [|done].
    assert (score / 250 ≤ 0); [|lia].
    destruct (Z.lt_ge_cases score 0).
    + pose proof (Z.div_lt_upper_bound score 250 0). lia.
    + rewrite Z.div_small; lia.
  - apply Z.div_le_lower_bound; lia.
Qed.

Lemma pool_ok (b : bool) :
  (if b then LARGE_SHAPE_INDICES else seqZ 0 (Z.of_nat (length SHAPES))) ≠ [] ∧
  Forall (λ i, 0 ≤ i < 23)
    (if b then LARGE_SHAPE_INDICES else seqZ 0 (Z.of_nat (length SHAPES))).
Proof.
  destruct b; (split; [discriminate |
     apply large_indices_in_catalog || apply all_indices_in_catalog]).
Qed.

(** X12.  [randomShape] never throws, whatever the score and the random source:
    it returns a catalog shape, changes nothing of the session state, and
    draws 2 random numbers when the score is below 250 and 3 from 250 on. *)
Theorem randomShape_returns w :
  ∃ b, randomShape w =
         (Ok b, set_drawn (drawn w + (if 250 <=? score w then 3 else 2)) w) ∧
       shape b ∈ SHAPES.
Proof.
  rewrite randomShape_unfold. cbv zeta. rewrite Qltb_0_largeChance.
  destruct (Z.leb_spec 1 (level (score w))) as [Hl|Hl];
    destruct (Z.leb_spec 250 (score w)) as [Hs|Hs];
    try (apply level_ge_1 in Hl; lia);
    try (apply level_ge_1 in Hs; lia).
  - set (pool := if Qltb _ _ then _ else _).
    destruct (pool_ok (Qltb (random_double (draws w (drawn w)))
                            (largeChance (level (score w))))) as [Hne Hall].
    destruct (pick_defined pool (draws w (S (drawn w))) Hne Hall) as (s & -> & Hin).
    eexists. split; [apply f_equal2; [reflexivity | f_equal; lia] | exact Hin].
  - destruct (pick_defined (seqZ 0 (Z.of_nat (length SHAPES)))
                (draws w (drawn w)) ltac:(discriminate) all_indices_in_catalog)
      as (s & -> & Hin).
    eexists. split; [apply f_equal2; [reflexivity | f_equal; lia] | exact Hin].
Qed.

(** X13.  From score 250 on, with [k = floor(score / 250)], [largeChance] is
    the double product [k * 0.08], within a relative [2^-51] of 8k/100, and
    the shape is taken from the large-only pool exactly when the first
    random number is below it, from the whole catalog otherwise. *)
Theorem large_pool_rule w :
  250 ≤ score w →
  ((8 * (score w / 250) # 100) * (1 - pow2 (-51))
     <= largeChance (level (score w)))%Q ∧
  (largeChance (level (score w))
     <= (8 * (score w / 250) # 100) * (1 + pow2 (-51)))%Q ∧
  ∃ b, fst (randomShape w) = Ok b ∧
       pick (if Qltb (random_double (draws w (drawn w)))
                     (largeChance (level (score w)))
             then LARGE_SHAPE_INDICES
             else seqZ 0 (Z.of_nat (length SHAPES)))
            (random_double (draws w (S (drawn w)))) = Some (shape b).
Proof.
  intros Hs. pose proof (proj2 (level_ge_1 (score w)) Hs) as Hl.
  destruct (largeChance_near (level (score w)) Hl) as [Hlo Hhi].
  split; [exact Hlo|]. split; [exact Hhi|].
  rewrite randomShape_unfold. cbv zeta. rewrite Qltb_0_largeChance.
  destruct (Z.leb_spec 1 (level (score w))); [|lia].
  set (pool := if Qltb _ _ then _ else _).
  destruct (pool_ok (Qltb (random_double (draws w (drawn w)))
                          (largeChance (level (score w))))) as [Hne Hall].
  destruct (pick_defined pool (draws w (S (drawn w))) Hne Hall) as (s & -> & _).
  eexists. split; reflexivity.
Qed.

Lemma large_pool_rule_witness :
  ((8 * (score at_750 / 250) # 100) * (1 - pow2 (-51))
     <= largeChance (level (score at_750)))%Q ∧
  (largeChance (level (score at_750))
     <= (8 * (score at_750 / 250) # 100) * (1 + pow2 (-51)))%Q ∧
  ∃ b, fst (randomShape at_750) = Ok b ∧
       pick (if Qltb (random_double (draws at_750 (drawn at_750)))
                     (largeChance (level (score at_750)))
             then LARGE_SHAPE_INDICES
             else seqZ 0 (Z.of_nat (length SHAPES)))
            (random_double (draws at_750 (S (drawn at_750)))) = Some (shape b).
Proof.
  apply (large_pool_rule at_750). simpl. lia.
Defined.

(** The third tier: [3 * 0.08] is the double below 24/100.  A first draw
    equal to it is not below it, so the shape comes from the whole catalog
    (index 11 for a second draw of 0.5) and not from the large-only pool
    (index 16). *)
Example third_tier_boundary :
  largeChance 3 = 1080863910568919 # 4503599627370496 ∧
  (largeChance 3 < 24 # 100)%Q ∧
  random_double (draws at_750 0) = largeChance 3 ∧
  fst (randomShape at_750) = Ok (mkBlock [[0; 0; 1]; [1; 1; 1]] c3) ∧
  lookupZ SHAPES 11 = Some [[0; 0; 1]; [1; 1; 1]] ∧
  pick LARGE_SHAPE_INDICES (random_double (draws at_750 1)) = lookupZ SHAPES 16.
Proof.
  split; [vm_compute; reflexivity|].
  split; [apply Qlt_alt; vm_compute; reflexivity|].
  do 3 (split; [vm_compute; reflexivity|]). vm_compute. reflexivity.
Qed.

Lemma level_ge_13 score : 3250 ≤ score → 13 ≤ level score.
Proof. intros H. unfold level. apply Z.div_le_lower_bound; lia. Qed.

Lemma largeChance_saturated k : 13 ≤ k → (104 # 100 <= largeChance k)%Q.
Proof.
  intros Hk. destruct (Z.eq_dec k 13) as [->|Hne].
  { apply Qle_bool_imp_le. vm_compute. reflexivity. }
  destruct (largeChance_near k ltac:(lia)) as [Hlo _].
  assert (H4 : (pow2 (-51) <= 1 # 1024)%Q) by (apply (pow2_le (-51) (-10)); lia).
  pose proof (pow2_pos (-51)) as H0.
  assert (Hk8 : ((8 * k # 100) == inject_Z k * (8 # 100))%Q).
  { unfold Qeq. simpl. lia. }
  rewrite Hk8 in Hlo.
  assert (Hk' : 14 ≤ k) by lia.
  rewrite Zle_Qle in Hk'. change (inject_Z 14) with 14%Q in Hk'.
  set (K := inject_Z k) in *. set (c := pow2 (-51)) in *.
  set (l := largeChance k) in *. clearbody K c l. nra.
Qed.

(** The products [k * 0.08] of the first tiers against 8k/100: the third,
    sixth, ninth and twelfth round below it. *)
Example tier_roundings :
  map (λ k, (largeChance k ?= 8 * k # 100)%Q) [1; 2; 3; 4; 5; 6; 7; 8; 9; 10; 11; 12]
  = [Gt; Gt; Lt; Gt; Gt; Lt; Gt; Gt; Lt; Gt; Gt; Lt].
Proof. vm_compute. reflexivity. Qed.

Lemma Qltb_random_saturated q k :
  13 ≤ k → Qltb (random_double q) (largeChance k) = true.
Proof.
  intros Hk. destruct (random_double_range q) as [_ Hle].
  pose proof (largeChance_saturated k Hk) as H1. pose proof (pow2_pos (-53)) as Hc.
  unfold Qltb. apply negb_true_iff, not_true_is_false. intros H.
  apply Qle_bool_imp_le in H. lra.
Qed.

Lemma pick_large q :
  ∃ i s, i ∈ LARGE_SHAPE_INDICES ∧ lookupZ SHAPES i = Some s ∧
         pick LARGE_SHAPE_INDICES (random_double q) = Some s ∧ is_large s = true.
Proof.
  destruct (random_double_range q) as [Hlo Hhi].
  pose proof (scale_range (random_double q) (length LARGE_SHAPE_INDICES) Hlo Hhi
                ltac:(simpl; lia)) as Hk.
  destruct (lookupZ_is_Some LARGE_SHAPE_INDICES _ Hk) as [i Hi].
  pose proof (lookupZ_elem_of _ _ _ Hi) as Hin.
  pose proof large_indices_in_catalog as Hall. rewrite Forall_forall in Hall.
  destruct (lookupZ_is_Some SHAPES i ltac:(specialize (Hall i Hin); simpl; lia))
    as [s Hs].
  exists i, s. split; [exact Hin|]. split; [exact Hs|]. split.
  - unfold pick. rewrite Hi. exact Hs.
  - pose proof (large_index_test i s Hs) as Ht.
    rewrite bool_decide_eq_true_2 in Ht by exact Hin.
    symmetry in Ht. apply andb_true_iff in Ht as [Ht _]. exact Ht.
Qed.

Lemma randomShape_saturated w :
  3250 ≤ score w →
  ∃ b i, randomShape w = (Ok b, set_drawn (S (S (S (drawn w)))) w) ∧
         i ∈ LARGE_SHAPE_INDICES ∧ lookupZ SHAPES i = Some (shape b) ∧
         is_large (shape b) = true.
Proof.
  intros Hs. pose proof (level_ge_13 _ Hs) as Hl.
  rewrite randomShape_unfold. cbv zeta. rewrite Qltb_0_largeChance.
  destruct (Z.leb_spec 1 (level (score w))); [|lia].
  rewrite (Qltb_random_saturated _ _ Hl).
  destruct (pick_large (draws w (S (drawn w)))) as (i & s & Hin & Hs' & -> & Hlarge).
  eexists _, i. split; [reflexivity|]. by repeat split.
Qed.

(** X14.  From score 3250 on [largeChance] is at least 1.04, above every random
    number: [randomShape] always takes the shape from the large-only pool,
    so every generated block has 4 or more cells. *)
Theorem always_large_from_3250 w :
  3250 ≤ score w →
  ∃ b i, fst (randomShape w) = Ok b ∧
         i ∈ LARGE_SHAPE_INDICES ∧ lookupZ SHAPES i = Some (shape b) ∧
         4 ≤ occupied_cells (shape b).
Proof.
  intros Hs. destruct (randomShape_saturated w Hs) as (b & i & E & Hin & Hi & Hl).
  exists b, i. rewrite E. repeat split; try done.
  unfold is_large in Hl. lia.
Qed.

Lemma always_large_from_3250_witness :
  ∃ b i, fst (randomShape (set_score 3250 at_249)) = Ok b ∧
         i ∈ LARGE_SHAPE_INDICES ∧ lookupZ SHAPES i = Some (shape b) ∧
         4 ≤ occupied_cells (shape b).
Proof.
  apply (always_large_from_3250 (set_score 3250 at_249)). simpl. lia.
Defined.

(** X15.  [doRestart] generates the three new blocks before it resets the score,
    so they are drawn at the difficulty of the game that just ended: after a
    game that reached 3250 points the restarted game, at score 0, starts
    with three blocks of 4 or more cells. *)
Theorem restart_draws_at_old_score w w' :
  3250 ≤ score w → doRestart w = (Ok tt, w') →
  score w' = 0 ∧
  length (currentBlocks w') = 3%nat ∧
  Forall (λ b, 4 ≤ occupied_cells (shape b)) (currentBlocks w').
Proof.
  intros Hs. unfold doRestart, initGrid. unfold bind at 1, modify at 1.
  unfold getThreeBlocks.
  set (w0 := set_grid _ w).
  destruct (randomShape_saturated w0 Hs) as (b0 & i0 & E0 & _ & _ & H0).
  destruct (randomShape_saturated (set_drawn (S (S (S (drawn w0)))) w0) Hs)
    as (b1 & i1 & E1 & _ & _ & H1).
  destruct (randomShape_saturated
              (set_drawn (S (S (S (drawn (set_drawn (S (S (S (drawn w0)))) w0)))))
                 (set_drawn (S (S (S (drawn w0)))) w0)) Hs)
    as (b2 & i2 & E2 & _ & _ & H2).
  unfold bind at 1. unfold bind at 1.
  rewrite E0. unfold bind at 1. rewrite E1. unfold bind at 1. rewrite E2.
  intros [= <-]. simpl. split; [reflexivity|]. split; [reflexivity|].
  unfold is_large in *.
  repeat (apply Forall_cons_2; [lia|]). apply Forall_nil_2.
Qed.

Lemma restart_draws_at_old_score_witness :
  score (snd (doRestart (set_score 3250 at_249))) = 0 ∧
  length (currentBlocks (snd (doRestart (set_score 3250 at_249)))) = 3%nat ∧
  Forall (λ b, 4 ≤ occupied_cells (shape b))
    (currentBlocks (snd (doRestart (set_score 3250 at_249)))).
Proof.
  apply (restart_draws_at_old_score (set_score 3250 at_249)).
  - simpl. lia.
  - vm_compute. reflexivity.
Defined.

(* ------------------------------------------------------------------ *)
(** ** Numbers as strings *)

Lemma read_digits_uint d acc :
  read_digits (NilEmpty.string_of_uint d) (Some acc) = Some (horner d acc).
Proof.
  revert acc. induction d; intros acc; simpl; try reflexivity;
    rewrite IHd; do 2 f_equal; lia.
Qed.

Lemma read_digits_uint_start d :
  read_digits (NilZero.string_of_uint d) None = Some (horner d 0).
Proof.
  destruct d; simpl; try reflexivity;
    rewrite read_digits_uint; do 2 f_equal.
Qed.

Lemma horner_of_uint_acc d p :
  Z.pos (Pos.of_uint_acc d p) = horner d (Z.pos p).
Proof.
  revert p. induction d; intros p; simpl; try reflexivity;
    rewrite IHd; f_equal; lia.
Qed.

Lemma horner_of_uint d : Z.of_N (Pos.of_uint d) = horner d 0.
Proof.
  induction d; simpl; try reflexivity; try exact IHd;
    apply horner_of_uint_acc.
Qed.

Lemma horner_to_uint p : horner (Pos.to_uint p) 0 = Z.pos p.
Proof. by rewrite <- horner_of_uint, DecimalPos.Unsigned.of_to. Qed.

Lemma parseInt10_digit_start a s v :
  digit_value a = Some v →
  parseInt10 (String a s) = read_digits (String a s) None.
Proof.
  destruct a as [[|] [|] [|] [|] [|] [|] [|] [|]]; intros H;
    try discriminate; reflexivity.
Qed.

Lemma string_of_uint_digit_start d :
  ∃ a s v, NilZero.string_of_uint d = String a s ∧ digit_value a = Some v.
Proof. destruct d; simpl; eexists _, _, _; (split; reflexivity). Qed.

(** [parseInt] reads back what [String] prints. *)
Lemma parseInt10_JsString n : parseInt10 (JsString n) = Some n.
Proof.
  unfold JsString. destruct n as [|p|p]; [reflexivity| |].
  - simpl. destruct (string_of_uint_digit_start (Pos.to_uint p))
      as (a & s & v & E & Hd).
    rewrite E, (parseInt10_digit_start a s v Hd), <- E.
    by rewrite read_digits_uint_start, horner_to_uint.
  - simpl. unfold parseInt10. simpl.
    by rewrite read_digits_uint_start, horner_to_uint.
Qed.

Lemma JsString_inj n m : JsString n = JsString m → n = m.
Proof.
  intros H. apply (f_equal parseInt10) in H.
  rewrite !parseInt10_JsString in H. by injection H.
Qed.

(* ------------------------------------------------------------------ *)
(** ** The stored high score *)

Lemma high_score_aux value st :
  getHighScore (setHighScore value st) = Some value ∧
  getHighScore None = Some 0.
Proof. split; [apply parseInt10_JsString | reflexivity]. Qed.

(** X16.  What [setHighScore] stores for an integer score, [getHighScore] reads
    back, whatever was stored before; and with nothing stored the high score
    reads 0. *)
Theorem high_score_round_trip value st :
  Z.abs value < 2 ^ 53 →
  getHighScore (setHighScore value st) = Some value ∧
  getHighScore None = Some 0.
Proof. intros _. apply high_score_aux. Qed.

Lemma high_score_round_trip_witness :
  getHighScore (setHighScore 157 (Some "abc"%string)) = Some 157 ∧
  getHighScore None = Some 0.
Proof. apply (high_score_round_trip 157). vm_compute. reflexivity. Defined.

(** X17.  After [showGameOver]: when the stored item reads as a number, the item
    reads as the larger of that number and the score, and it is rewritten
    only when the score is strictly larger; when the stored item has no
    leading number (it reads [NaN]), it is left as it is and still reads
    [NaN], however large the score. *)
Theorem showGameOver_keeps_best w st :
  Z.abs (score w) < 2 ^ 53 →
  (∀ best, getHighScore st = Some best → Z.abs best < 2 ^ 53 →
     getHighScore (showGameOver w st) = Some (Z.max best (score w)) ∧
     (score w ≤ best → showGameOver w st = st) ∧
     (best < score w → showGameOver w st = Some (JsString (score w)))) ∧
  (getHighScore st = None →
     showGameOver w st = st ∧ getHighScore (showGameOver w st) = None).
Proof.
  intros _. unfold showGameOver. split.
  - intros best E _. rewrite E. simpl.
    destruct (Z.gtb_spec (score w) best) as [Hgt|Hle].
    + split; [|split; [lia | done]].
      destruct (high_score_aux (score w) st) as [-> _]. f_equal. lia.
    + split; [|split; [done | lia]]. rewrite E. f_equal. lia.
  - intros E. rewrite E. simpl. by split.
Qed.

Lemma showGameOver_keeps_best_witness :
  (∀ best, getHighScore (Some "120"%string) = Some best → Z.abs best < 2 ^ 53 →
     getHighScore (showGameOver almost_cross (Some "120"%string))
       = Some (Z.max best (score almost_cross)) ∧
     (score almost_cross ≤ best →
      showGameOver almost_cross (Some "120"%string) = Some "120"%string) ∧
     (best < score almost_cross →
      showGameOver almost_cross (Some "120"%string)
        = Some (JsString (score almost_cross)))) ∧
  (getHighScore (Some "120"%string) = None →
     showGameOver almost_cross (Some "120"%string) = Some "120"%string ∧
     getHighScore (showGameOver almost_cross (Some "120"%string)) = None).
Proof.
  apply (showGameOver_keeps_best almost_cross (Some "120"%string)).
  vm_compute. reflexivity.
Defined.

Example showGameOver_examples :
  showGameOver almost_cross (Some "120"%string) = Some "200"%string ∧
  showGameOver almost_cross (Some "999"%string) = Some "999"%string ∧
  showGameOver almost_cross None = Some "200"%string ∧
  showGameOver almost_cross (Some "best: 5"%string) = Some "best: 5"%string ∧
  getHighScore (Some "best: 5"%string) = None ∧
  getHighScore (Some " 12.5"%string) = Some 12.
Proof. vm_compute. repeat split. Qed.

(* ------------------------------------------------------------------ *)
(** ** The cells of the star blast *)

Lemma no_comma_uint d : no_comma (NilEmpty.string_of_uint d) = true.
Proof. induction d; simpl; try reflexivity; exact IHd. Qed.

Lemma no_comma_JsString n : no_comma (JsString n) = true.
Proof.
  unfold JsString. destruct (Z.to_int n) as [d|d]; simpl;
    destruct d; simpl; try reflexivity; apply no_comma_uint.
Qed.

Lemma append_comma_inj s1 t1 s2 t2 :
  no_comma s1 = true → no_comma s2 = true →
  String.append s1 (String "," t1) = String.append s2 (String "," t2) →
  s1 = s2 ∧ t1 = t2.
Proof.
  revert s2. induction s1 as [|a s1 IH]; intros [|b s2] H1 H2 E; simpl in *.
  - by injection E.
  - injection E as <- _. by rewrite Ascii.eqb_refl in H2.
  - injection E as -> _. by rewrite Ascii.eqb_refl in H1.
  - injection E as <- E. apply andb_true_iff in H1 as [_ H1].
    apply andb_true_iff in H2 as [_ H2].
    destruct (IH s2 H1 H2 E) as [-> ->]. by split.
Qed.

Lemma cellKey_inj r c r' c' : cellKey r c = cellKey r' c' → r = r' ∧ c = c'.
Proof.
  unfold cellKey. intros E.
  apply append_comma_inj in E as [Hr Hc]; try apply no_comma_JsString.
  split; by apply JsString_inj.
Qed.

Lemma elem_of_foldl_add {A} (f : A → string) (l : list A) (s0 : gset string) x :
  x ∈ foldl (λ set k, {[f k]} ∪ set) s0 l ↔ x ∈ s0 ∨ ∃ k, k ∈ l ∧ x = f k.
Proof.
  revert s0. induction l as [|k l IH]; intros s0; simpl.
  - split; [by left | intros [H | (k & Hk & _)]; [done | by apply elem_of_nil in Hk]].
  - rewrite IH, elem_of_union, elem_of_singleton. split.
    + intros [[-> | H] | (k' & Hk' & ->)].
      * right. exists k. split; [apply list_elem_of_here | done].
      * by left.
      * right. exists k'. split; [by apply list_elem_of_further | done].
    + intros [H | (k' & Hk' & ->)]; [left; by right|].
      apply elem_of_cons in Hk' as [-> | Hk']; [left; by left|].
      right. by exists k'.
Qed.

Lemma elem_of_foldl_add2 {A B} (f : A → B → string) (l : list A) (m : list B)
    (s0 : gset string) x :
  x ∈ foldl (λ set a, foldl (λ set b, {[f a b]} ∪ set) set m) s0 l ↔
  x ∈ s0 ∨ ∃ a b, a ∈ l ∧ b ∈ m ∧ x = f a b.
Proof.
  revert s0. induction l as [|a l IH]; intros s0; simpl.
  - split; [by left | intros [H | (a & b & Ha & _)]; [done | by apply elem_of_nil in Ha]].
  - rewrite IH, elem_of_foldl_add. split.
    + intros [[H | (b & Hb & ->)] | (a' & b & Ha' & Hb & ->)].
      * by left.
      * right. exists a, b. split; [apply list_elem_of_here | done].
      * right. exists a', b. split; [by apply list_elem_of_further | done].
    + intros [H | (a' & b & Ha' & Hb & ->)]; [left; by left|].
      apply elem_of_cons in Ha' as [-> | Ha'].
      * left. right. by exists b.
      * right. by exists a', b.
Qed.

(** The cells whose key is in the set [triggerBoardStarBlast] builds. *)
Lemma blastActive_spec rowsCleared colsCleared r c :
  blastActive (blastCellSet rowsCleared colsCleared) r c = true ↔
  (r ∈ rowsCleared ∧ 0 ≤ c < 8) ∨ (c ∈ colsCleared ∧ 0 ≤ r < 8).
Proof.
  unfold blastActive, blastCellSet, ROWS, COLS.
  rewrite bool_decide_eq_true.
  rewrite (elem_of_foldl_add2 (λ c r, cellKey r c)), elem_of_foldl_add2.
  split.
  - intros [[H | (r' & c' & Hr & Hc & E)] | (c' & r' & Hc & Hr & E)].
    + by apply elem_of_empty in H.
    + apply cellKey_inj in E as [-> ->]. apply elem_of_seqZ in Hc. left. split; [done | lia].
    + apply cellKey_inj in E as [-> ->]. apply elem_of_seqZ in Hr. right. split; [done | lia].
  - intros [[Hr Hc] | [Hc Hr]].
    + left. right. exists r, c. split; [done|]. split; [apply elem_of_seqZ; lia | done].
    + right. exists c, r. split; [done|]. split; [apply elem_of_seqZ; lia | done].
Qed.

(** X18.  The star blast marks exactly the cells that [clearLines] has emptied:
    for the rows and columns [clearLines] reports on an 8x8 grid, a cell of
    the board gets a star exactly when its row or its column was full. *)
Theorem blast_marks_cleared_cells w lc w' :
  wf_grid (grid w) = true →
  clearLines w = (Ok lc, w') →
  ∀ r c, 0 ≤ r < 8 → 0 ≤ c < 8 →
    (blastActive (blastCellSet (rows lc) (cols lc)) r c = true ↔
     row_full (grid w) r = true ∨ col_full (grid w) c = true) ∧
    (blastActive (blastCellSet (rows lc) (cols lc)) r c = true →
     cellAt (grid w') r c = Some Zero) ∧
    (blastActive (blastCellSet (rows lc) (cols lc)) r c = false →
     cellAt (grid w') r c = cellAt (grid w) r c).
Proof.
  intros Hg E r c Hr Hc.
  destruct (clearLines_total w Hg) as (w1 & E1 & [_ U] & _).
  rewrite E in E1. injection E1 as -> <-. simpl.
  assert (Hiff : blastActive (blastCellSet (full_rows (grid w)) (full_cols (grid w))) r c
                 = cleared (grid w) r c).
  { apply eq_iff_eq_true. rewrite blastActive_spec.
    rewrite elem_of_full_rows, elem_of_full_cols.
    unfold cleared, ROWS, COLS.
    rewrite !andb_true_iff, orb_true_iff, !Z.leb_le, !Z.ltb_lt. tauto. }
  split; [|split].
  - rewrite blastActive_spec, elem_of_full_rows, elem_of_full_cols. tauto.
  - intros H. rewrite Hiff in H. by rewrite U, H.
  - intros H. rewrite Hiff in H. by rewrite U, H.
Qed.

Lemma blast_marks_cleared_cells_witness :
  (blastActive (blastCellSet (rows (mkLines 2 [0] [7])) (cols (mkLines 2 [0] [7]))) 3 7 = true ↔
   row_full (grid (snd (placeBlock [[1]] c2 0 7 almost_cross))) 3 = true ∨
   col_full (grid (snd (placeBlock [[1]] c2 0 7 almost_cross))) 7 = true) ∧
  (blastActive (blastCellSet (rows (mkLines 2 [0] [7])) (cols (mkLines 2 [0] [7]))) 3 7 = true →
   cellAt (grid (snd (clearLines (snd (placeBlock [[1]] c2 0 7 almost_cross))))) 3 7
     = Some Zero) ∧
  (blastActive (blastCellSet (rows (mkLines 2 [0] [7])) (cols (mkLines 2 [0] [7]))) 3 7 = false →
   cellAt (grid (snd (clearLines (snd (placeBlock [[1]] c2 0 7 almost_cross))))) 3 7
     = cellAt (grid (snd (placeBlock [[1]] c2 0 7 almost_cross))) 3 7).
Proof.
  apply (blast_marks_cleared_cells (snd (placeBlock [[1]] c2 0 7 almost_cross))
           (mkLines 2 [0] [7])).
  - vm_compute. reflexivity.
  - vm_compute. reflexivity.
  - lia.
  - lia.
Defined.

(* ------------------------------------------------------------------ *)
(** ** Click to place *)

(** X19.  A click on a cell of the board (row [r >= 0]) never throws.  With no
    block selected, or when the placement is rejected, it changes nothing
    and the selection stays; when the placement is accepted the state is
    that of the move with the selection cleared. *)
Theorem cellClick_places r c w :
  wf_grid (grid w) = true →
  Forall (λ b, shape b ∈ SHAPES) (currentBlocks w) →
  0 ≤ r →
  (cellClick r c w = (Ok tt, w) ∧
   (selectedBlockIndex w < 0 ∨
    tryPlaceBlock (selectedBlockIndex w) r c w = (Ok false, w))) ∨
  (∃ w1, 0 ≤ selectedBlockIndex w ∧
         tryPlaceBlock (selectedBlockIndex w) r c w = (Ok true, w1) ∧
         cellClick r c w = (Ok tt, set_selectedBlockIndex (-1) w1)).
Proof.
  intros Hg Hcat Hr.
  destruct (Z.ltb_spec (selectedBlockIndex w) 0) as [Hneg|Hsel].
  { left. split; [|by left]. unfold cellClick, bind, gets.
    destruct (Z.ltb_spec (selectedBlockIndex w) 0); [reflexivity | lia]. }
  assert (Hrun : ∀ ok w1,
            tryPlaceBlock (selectedBlockIndex w) r c w = (Ok ok, w1) →
            cellClick r c w =
              (Ok tt, if ok then set_selectedBlockIndex (-1) w1 else w1)).
  { intros ok w1 E. unfold cellClick, bind, gets.
    destruct (Z.ltb_spec (selectedBlockIndex w) 0); [lia|].
    rewrite E. by destruct ok. }
  destruct (tryPlaceBlock_decided (selectedBlockIndex w) r c w Hg Hcat)
    as [[_ E] | [[[_ (b & _ & Hlt & _)] _] | [_ [w1 E]]]]; [|lia|].
  - left. split; [exact (Hrun _ _ E) | by right].
  - right. exists w1. split; [exact Hsel|]. split; [exact E | exact (Hrun _ _ E)].
Qed.

Lemma cellClick_places_witness :
  (cellClick 0 7 (set_selectedBlockIndex 0 almost_row)
     = (Ok tt, set_selectedBlockIndex 0 almost_row) ∧
   (selectedBlockIndex (set_selectedBlockIndex 0 almost_row) < 0 ∨
    tryPlaceBlock (selectedBlockIndex (set_selectedBlockIndex 0 almost_row)) 0 7
      (set_selectedBlockIndex 0 almost_row)
    = (Ok false, set_selectedBlockIndex 0 almost_row))) ∨
  (∃ w1, 0 ≤ selectedBlockIndex (set_selectedBlockIndex 0 almost_row) ∧
         tryPlaceBlock (selectedBlockIndex (set_selectedBlockIndex 0 almost_row)) 0 7
           (set_selectedBlockIndex 0 almost_row) = (Ok true, w1) ∧
         cellClick 0 7 (set_selectedBlockIndex 0 almost_row)
           = (Ok tt, set_selectedBlockIndex (-1) w1)).
Proof.
  apply (cellClick_places 0 7 (set_selectedBlockIndex 0 almost_row)).
  - vm_compute. reflexivity.
  - repeat (constructor; [apply list_elem_of_In; simpl; tauto|]). constructor.
  - lia.
Defined.
